(** * NEO container codec: a shallow embedding of neo.go and xor.go

    The development follows the Go sources function by function:
    the base-255 variable-length integer codec, the XOR stream, the
    header (Marshall / UnMarshall), the streaming encoder (NeoWriter) and
    the streaming decoder (NeoReader).  Go's [uint] and [int] are the
    64-bit ones of the gc compiler on amd64/arm64; their wrap-around is
    written out.  A byte slice is a [list byte]; a Go panic is an explicit
    outcome. *)

From Stdlib Require Import ZArith List Lia Bool String.
From Stdlib Require Import Strings.Byte.
From stdpp Require Import list.
Import ListNotations.

Local Open Scope Z_scope.
Local Open Scope list_scope.

(** ** Machine integers and bytes *)

Module GoInt.

Definition uint_bits : Z := 64.
Definition uint_mod : Z := 2 ^ uint_bits.
Definition int_max : Z := 2 ^ (uint_bits - 1) - 1.

(** Arithmetic on [uint] wraps modulo 2^64. *)
Definition wrap_uint (z : Z) : Z := z mod uint_mod.

(** The conversion [int(u)] of a [uint]: two's complement reading. *)
Definition int_of_uint (u : Z) : Z :=
  if u <=? int_max then u else u - uint_mod.

(** The conversion [uint(i)] of an [int]. *)
Definition uint_of_int (i : Z) : Z := wrap_uint i.

(** Arithmetic on [int] wraps to the signed range. *)
Definition wrap_int (z : Z) : Z := int_of_uint (wrap_uint z).

(** [byte(z)]: truncation to the low 8 bits. *)
Definition byte_of_Z (z : Z) : byte :=
  match Byte.of_N (Z.to_N (z mod 256)) with
  | Some b => b
  | None => x00
  end.

(** [uint(b)], [int(b)]: the value of a byte. *)
Definition Z_of_byte (b : byte) : Z := Z.of_N (Byte.to_N b).

Definition byte_xor (a b : byte) : byte :=
  byte_of_Z (Z.lxor (Z_of_byte a) (Z_of_byte b)).

Definition byte_and (a b : byte) : byte :=
  byte_of_Z (Z.land (Z_of_byte a) (Z_of_byte b)).

(** [len(s)] as a Go [int]. *)
Definition len {A} (s : list A) : Z := Z.of_nat (length s).

End GoInt.
Import GoInt.

(** ** Outcomes of Go calls

    A call either returns, or panics with a message.  The decoder's Read
    and its length loop are defined with fuel; [OutOfFuel] is their
    result when the fuel is used up, which does not happen with the fuel
    that [NeoReader_Read] gives them (lemma [NeoReader_Read_finishes]). *)

Inductive outcome (A : Type) : Type :=
| Ret (a : A)
| Panic (msg : string)
| OutOfFuel.
Arguments Ret {A} a.
Arguments Panic {A} msg.
Arguments OutOfFuel {A}.

Definition bind {A B} (m : outcome A) (k : A -> outcome B) : outcome B :=
  match m with
  | Ret a => k a
  | Panic msg => Panic msg
  | OutOfFuel => OutOfFuel
  end.

Notation "'let*' x ':=' m 'in' k" := (bind m (fun x => k))
  (at level 10, x pattern, m at level 100, k at level 200).

(** Go's run-time panics that the code can raise. *)
Definition slice_bounds : string := "runtime error: slice bounds out of range".
Definition index_range : string := "runtime error: index out of range".
Definition divide_by_zero : string := "runtime error: integer divide by zero".
Definition makeslice_range : string := "runtime error: makeslice: len out of range".

(** [s[lo:]]: needs [0 <= lo <= len(s)]. *)
Definition slice_from {A} (s : list A) (lo : Z) : outcome (list A) :=
  if (0 <=? lo) && (lo <=? len s) then Ret (drop (Z.to_nat lo) s)
  else Panic slice_bounds.

(** [s[:hi]] for the uses in this program.  Go bounds [hi] by the
    capacity, not the length; every [s[:hi]] of the sources is taken
    either on a slice whose length is known to be at least [hi], or
    together with [s[hi:]] in one assignment, which panics when
    [hi > len(s)].  So the bound used here is the length. *)
Definition slice_to {A} (s : list A) (hi : Z) : outcome (list A) :=
  if (0 <=? hi) && (hi <=? len s) then Ret (take (Z.to_nat hi) s)
  else Panic slice_bounds.

(** [a, b = s[:k], s[k:]] *)
Definition split_at {A} (s : list A) (k : Z) : outcome (list A * list A) :=
  let* a := slice_to s k in
  let* b := slice_from s k in
  Ret (a, b).

(** [s[0]] *)
Definition index0 {A} (s : list A) : outcome A :=
  match s with
  | x :: _ => Ret x
  | [] => Panic index_range
  end.

(** [make([]byte, n)] *)
Definition make (n : Z) : outcome (list byte) :=
  if (0 <=? n) && (n <=? int_max) then Ret (replicate (Z.to_nat n) x00)
  else Panic makeslice_range.

(** [copy(dst, src)]: overwrites the first [min(len dst, len src)] bytes
    of [dst]; returns the new contents of [dst] and the count. *)
Definition copy {A} (dst src : list A) : list A * Z :=
  let n := Nat.min (length dst) (length src) in
  (take n src ++ drop n dst, Z.of_nat n).

(** ** Errors *)

Inductive error : Type :=
| ErrCRCCheckFailed
| ErrNotNEOHeader
| ErrBadVersion
| ErrUnknownCryptoMethod
| EOF
| ErrNoProgress
| ErrOther (msg : string).

(** ** Constants of the format *)

Definition VersionV1 : byte := x01.
Definition FlagVersion : byte := x0f.
Definition XorEnc : byte := x01.
Definition NeoMagicNumber : list byte := [xff; x4e; x45; x4f].

(** ** Variable-length unsigned integers (base 255) *)

(** [for i := 0; i < int(u)/0xFF; i++ { buf.WriteByte(0xFF) }]
    then [buf.WriteByte(byte(u % 0xFF))].  Go's [/] on [int] truncates
    towards zero ([Z.quot]); a negative bound runs the loop zero times. *)
Definition encodeVUint (u : Z) : list byte :=
  replicate (Z.to_nat (Z.quot (int_of_uint u) 255)) xff
  ++ [byte_of_Z (u mod 255)].

(** The [range] loop of decodeVUint with its accumulator [res]; the
    surplus stays [nil] (the empty list) when no terminal byte is met. *)
Fixpoint decodeVUint_loop (res : Z) (p : list byte) : Z * list byte :=
  match p with
  | [] => (res, [])
  | v :: tl =>
      if Byte.eqb v xff then decodeVUint_loop (wrap_uint (res + 255)) tl
      else (wrap_uint (res + Z_of_byte v), tl)
  end.

Definition decodeVUint (p : list byte) : Z * list byte :=
  decodeVUint_loop 0 p.

(** ** The XOR stream (xor.go) *)

Record XorStream : Type := mkXorStream { idx : Z; key : list byte }.

Definition NewXorStream (k : list byte) : XorStream :=
  {| idx := 0; key := k |}.

(** [s.key[s.idx % uint(len(s.key))]] *)
Definition key_byte (s : XorStream) : outcome byte :=
  if len (key s) =? 0 then Panic divide_by_zero
  else match key s !! Z.to_nat (idx s mod len (key s)) with
       | Some k => Ret k
       | None => Panic index_range
       end.

(** [for i, v := range src { dst[i] = v ^ s.key[...] }], from index [i]. *)
Fixpoint XORKeyStream_loop (s : XorStream) (i : nat) (src dst : list byte)
  : outcome (list byte) :=
  match src with
  | [] => Ret dst
  | v :: src' =>
      let* k := key_byte s in
      XORKeyStream_loop s (S i) src' (<[i := byte_xor v k]> dst)
  end.

(** XORKeyStream returns the stream (its fields are not assigned by the
    method) and the new contents of [dst]. *)
Definition XORKeyStream (s : XorStream) (dst src : list byte)
  : outcome (XorStream * list byte) :=
  if len src =? 0 then Ret (s, dst)
  else if len dst <? len src then Panic "xor: len(dst) < len(src)"
  else let* dst' := XORKeyStream_loop s 0 src dst in Ret (s, dst').

(** ** The header (neo.go) *)

(** A Go [string] is its byte sequence; [[]byte(s)] and [string(b)] keep
    the bytes as they are, so [OriginalFilename] is a list of bytes. *)
Record NeoHeader : Type := mkNeoHeader {
  Version : byte;
  OriginalHeaderEncMethod : byte;
  OriginalHeader : list byte;
  OriginalFilenameEncMethod : byte;
  OriginalFilename : list byte;
  Crc32 : Z
}.

(** [new(NeoHeader)] *)
Definition zero_NeoHeader : NeoHeader :=
  {| Version := x00; OriginalHeaderEncMethod := x00; OriginalHeader := [];
     OriginalFilenameEncMethod := x00; OriginalFilename := []; Crc32 := 0 |}.

(** [binary.BigEndian.PutUint32] into a fresh 4-byte slice. *)
Definition PutUint32 (v : Z) : list byte :=
  [byte_of_Z (Z.shiftr v 24); byte_of_Z (Z.shiftr v 16);
   byte_of_Z (Z.shiftr v 8); byte_of_Z v].

(** [binary.BigEndian.Uint32]; it indexes [b[3]] first. *)
Definition Uint32 (b : list byte) : outcome Z :=
  match b with
  | b0 :: b1 :: b2 :: b3 :: _ =>
      Ret (Z.lor (Z.lor (Z.lor (Z_of_byte b3) (Z.shiftl (Z_of_byte b2) 8))
                        (Z.shiftl (Z_of_byte b1) 16))
                 (Z.shiftl (Z_of_byte b0) 24))
  | _ => Panic index_range
  end.

(** writeContentWithXorEnc appends to [buf]. *)
Definition writeContentWithXorEnc (buf content k : list byte)
  : outcome (list byte) :=
  let buf := buf ++ [XorEnc] in
  let buf := buf ++ encodeVUint (uint_of_int (len k)) in
  let buf := buf ++ k in
  let buf := buf ++ encodeVUint (uint_of_int (len content)) in
  let* dst := make (len content) in
  let* (_, dst) := XORKeyStream (NewXorStream k) dst content in
  Ret (buf ++ dst).

(** loadContextWithXorEnc returns [(content, surplus)]. *)
Definition loadContextWithXorEnc (p : list byte)
  : outcome (list byte * list byte) :=
  let '(keyLen, surplus) := decodeVUint p in
  let* (k, surplus) := split_at surplus (int_of_uint keyLen) in
  let '(contentLen, surplus) := decodeVUint surplus in
  let* (secContent, surplus) := split_at surplus (int_of_uint contentLen) in
  let* content := make (int_of_uint contentLen) in
  let* (_, content) := XORKeyStream (NewXorStream k) content secContent in
  Ret (content, surplus).

(** What one call [rand.Reader.Read(key)] on a 4-byte [key] does: it
    fills the four bytes, or fails. *)
Inductive rand_read : Type :=
| RandKey (b0 b1 b2 b3 : byte)
| RandErr (e : error).

Definition key_of (b0 b1 b2 b3 : byte) : list byte := [b0; b1; b2; b3].

(** The last lines of Marshall: [res] is made with room for the magic
    number, the length and the fields, and filled by three [copy]s. *)
Definition Marshall_frame (contentLenVint buf : list byte)
  : outcome (list byte) :=
  let* res := make (4 + len contentLenVint + len buf) in
  let* res4 := slice_to res 4 in
  let* rest4 := slice_from res 4 in
  let res := fst (copy res4 NeoMagicNumber) ++ rest4 in
  let* rest4 := slice_from res 4 in
  let res := take 4 res ++ fst (copy rest4 contentLenVint) in
  let off := 4 + len contentLenVint in
  let* resto := slice_from res off in
  Ret (take (Z.to_nat off) res ++ fst (copy resto buf)).

(** Marshall; [r1] and [r2] are the outcomes of its two reads of the
    random source (the second is consulted only when it is reached).
    The result is Go's pair [([]byte, error)], [nil] being [[]]. *)
Definition Marshall (h : NeoHeader) (r1 r2 : rand_read)
  : outcome (list byte * option error) :=
  if negb (Byte.eqb (Version h) VersionV1) then Ret ([], Some ErrBadVersion)
  else
    let flag := byte_and (Version h) FlagVersion in
    let buf := [flag] in
    if Byte.eqb (OriginalHeaderEncMethod h) XorEnc then
      match r1 with
      | RandErr e => Ret ([], Some e)
      | RandKey a0 a1 a2 a3 =>
          let* buf := writeContentWithXorEnc buf (OriginalHeader h)
                        (key_of a0 a1 a2 a3) in
          if Byte.eqb (OriginalFilenameEncMethod h) XorEnc then
            match r2 with
            | RandErr e => Ret ([], Some e)
            | RandKey c0 c1 c2 c3 =>
                let* buf := writeContentWithXorEnc buf (OriginalFilename h)
                              (key_of c0 c1 c2 c3) in
                let buf := buf ++ PutUint32 (Crc32 h) in
                let contentLenVint := encodeVUint (uint_of_int (len buf)) in
                let* res := Marshall_frame contentLenVint buf in
                Ret (res, None)
            end
          else Ret ([], Some ErrUnknownCryptoMethod)
      end
    else Ret ([], Some ErrUnknownCryptoMethod).

(** UnMarshall on the receiver [h]; it returns the receiver as the call
    leaves it (fields assigned before an error return stay assigned) and
    Go's [error] result. *)
Definition UnMarshall (h : NeoHeader) (p : list byte)
  : outcome (NeoHeader * option error) :=
  if len p <=? 4 then Ret (h, Some ErrNotNEOHeader)
  else
    let* p4 := slice_from p 4 in
    let '(neoHdrlen, p) := decodeVUint p4 in
    if negb (uint_of_int (len p) =? neoHdrlen) then Panic "len not equal"
    else
      let* flag := index0 p in
      let* p := slice_from p 1 in
      let h := {| Version := byte_and flag FlagVersion;
                  OriginalHeaderEncMethod := OriginalHeaderEncMethod h;
                  OriginalHeader := OriginalHeader h;
                  OriginalFilenameEncMethod := OriginalFilenameEncMethod h;
                  OriginalFilename := OriginalFilename h;
                  Crc32 := Crc32 h |} in
      if negb (Byte.eqb (Version h) VersionV1) then Ret (h, Some ErrBadVersion)
      else
        let* m := index0 p in
        let* p := slice_from p 1 in
        let h := {| Version := Version h;
                    OriginalHeaderEncMethod := m;
                    OriginalHeader := OriginalHeader h;
                    OriginalFilenameEncMethod := OriginalFilenameEncMethod h;
                    OriginalFilename := OriginalFilename h;
                    Crc32 := Crc32 h |} in
        if Byte.eqb (OriginalHeaderEncMethod h) XorEnc then
          let* (content, p) := loadContextWithXorEnc p in
          let h := {| Version := Version h;
                      OriginalHeaderEncMethod := OriginalHeaderEncMethod h;
                      OriginalHeader := content;
                      OriginalFilenameEncMethod := OriginalFilenameEncMethod h;
                      OriginalFilename := OriginalFilename h;
                      Crc32 := Crc32 h |} in
          let* m := index0 p in
          let* p := slice_from p 1 in
          let h := {| Version := Version h;
                      OriginalHeaderEncMethod := OriginalHeaderEncMethod h;
                      OriginalHeader := OriginalHeader h;
                      OriginalFilenameEncMethod := m;
                      OriginalFilename := OriginalFilename h;
                      Crc32 := Crc32 h |} in
          if Byte.eqb (OriginalFilenameEncMethod h) XorEnc then
            let* (filename, p) := loadContextWithXorEnc p in
            let h := {| Version := Version h;
                        OriginalHeaderEncMethod := OriginalHeaderEncMethod h;
                        OriginalHeader := OriginalHeader h;
                        OriginalFilenameEncMethod := OriginalFilenameEncMethod h;
                        OriginalFilename := filename;
                        Crc32 := Crc32 h |} in
            let* (crc32, p) := split_at p 4 in
            let* c := Uint32 crc32 in
            Ret ({| Version := Version h;
                    OriginalHeaderEncMethod := OriginalHeaderEncMethod h;
                    OriginalHeader := OriginalHeader h;
                    OriginalFilenameEncMethod := OriginalFilenameEncMethod h;
                    OriginalFilename := OriginalFilename h;
                    Crc32 := c |}, None)
          else Ret (h, Some ErrUnknownCryptoMethod)
        else Ret (h, Some ErrUnknownCryptoMethod).

(** ** io.Writer, io.Reader and bytes.Buffer

    The two interfaces of package io, as classes.  [io_Write w p] returns
    the sink, the count and the error; [io_Read r n] is a [Read] into a
    slice of length [n] and returns the source, the bytes it stored at
    the front of that slice, and the error. *)

Class io_Writer (W : Type) : Type :=
  io_Write : W -> list byte -> W * (Z * option error).

Class io_Reader (R : Type) : Type :=
  io_Read : R -> Z -> R * (list byte * option error).

(** bytes.Buffer: the unread bytes.  [Write] appends and never fails;
    [Read] takes from the front and reports [io.EOF] when the buffer is
    empty and the destination is not. *)
Record Buffer : Type := mkBuffer { Bytes : list byte }.

#[export] Instance Buffer_Writer : io_Writer Buffer :=
  fun b p => (mkBuffer (Bytes b ++ p), (len p, None)).

#[export] Instance Buffer_Reader : io_Reader Buffer :=
  fun b n =>
    match Bytes b with
    | [] => if n =? 0 then (b, ([], None)) else (b, ([], Some EOF))
    | _ => let k := Z.to_nat (Z.min n (len (Bytes b))) in
           (mkBuffer (drop k (Bytes b)), (take k (Bytes b), None))
    end.

(** ** The streaming encoder *)

Section Writer.
Context {W : Type} `{io_Writer W}.

Record NeoWriter : Type := mkNeoWriter {
  originHdrLen : Z;
  hdr : NeoHeader;
  w : W;
  buf : list byte;
  isNewHdrWritten : bool
}.

Definition NewNeoWriter (sink : W) (hdrLen : Z) (filename : list byte)
    (crc32 : Z) : NeoWriter :=
  {| originHdrLen := hdrLen;
     hdr := {| Version := VersionV1;
               OriginalHeaderEncMethod := XorEnc;
               OriginalHeader := [];
               OriginalFilenameEncMethod := XorEnc;
               OriginalFilename := filename;
               Crc32 := crc32 |};
     w := sink;
     buf := [];
     isNewHdrWritten := false |}.

Definition set_w (x : NeoWriter) (sink : W) : NeoWriter :=
  {| originHdrLen := originHdrLen x; hdr := hdr x; w := sink;
     buf := buf x; isNewHdrWritten := isNewHdrWritten x |}.

Definition set_buf (x : NeoWriter) (b : list byte) : NeoWriter :=
  {| originHdrLen := originHdrLen x; hdr := hdr x; w := w x;
     buf := b; isNewHdrWritten := isNewHdrWritten x |}.

Definition set_OriginalHeader (x : NeoWriter) (b : list byte) : NeoWriter :=
  {| originHdrLen := originHdrLen x;
     hdr := {| Version := Version (hdr x);
               OriginalHeaderEncMethod := OriginalHeaderEncMethod (hdr x);
               OriginalHeader := b;
               OriginalFilenameEncMethod := OriginalFilenameEncMethod (hdr x);
               OriginalFilename := OriginalFilename (hdr x);
               Crc32 := Crc32 (hdr x) |};
     w := w x; buf := buf x; isNewHdrWritten := isNewHdrWritten x |}.

Definition set_isNewHdrWritten (x : NeoWriter) (b : bool) : NeoWriter :=
  {| originHdrLen := originHdrLen x; hdr := hdr x; w := w x;
     buf := buf x; isNewHdrWritten := b |}.

(** The part of Write from the comment "got enough bytes" on. *)
Definition Write_flush (x : NeoWriter) (p : list byte) (r1 r2 : rand_read)
  : outcome (NeoWriter * (Z * option error)) :=
  let x := set_OriginalHeader x (buf x) in
  let* (hdrBytes, err) := Marshall (hdr x) r1 r2 in
  match err with
  | Some e => Ret (x, (0, Some e))
  | None =>
      let '(sink, (_, err)) := io_Write (w x) hdrBytes in
      let x := set_w x sink in
      match err with
      | Some e => Ret (x, (0, Some e))
      | None =>
          let x := set_isNewHdrWritten x true in
          let* rest := slice_from p (originHdrLen x) in
          let '(sink, (n, err)) := io_Write (w x) rest in
          Ret (set_w x sink, (wrap_int (n + originHdrLen x), err))
      end
  end.

(** NeoWriter.Write; [r1], [r2] are what the random source yields if
    this call marshals the header. *)
Definition NeoWriter_Write (x : NeoWriter) (p : list byte)
    (r1 r2 : rand_read) : outcome (NeoWriter * (Z * option error)) :=
  if isNewHdrWritten x then
    let '(sink, res) := io_Write (w x) p in Ret (set_w x sink, res)
  else if len (buf x) <? originHdrLen x then
    if len p <=? originHdrLen x then
      Ret (set_buf x (buf x ++ p), (len p, None))
    else
      let* p' := slice_to p (originHdrLen x) in
      Write_flush (set_buf x (buf x ++ p')) p r1 r2
  else Write_flush x p r1 r2.

(** A caller that writes the chunks one after the other and stops at
    the first error (as io.Copy does). *)
Fixpoint write_chunks (x : NeoWriter) (chunks : list (list byte))
    (r1 r2 : rand_read) : outcome (NeoWriter * option error) :=
  match chunks with
  | [] => Ret (x, None)
  | c :: cs =>
      let* (x, (_, err)) := NeoWriter_Write x c r1 r2 in
      match err with
      | Some e => Ret (x, Some e)
      | None => write_chunks x cs r1 r2
      end
  end.

End Writer.
Arguments NeoWriter W : clear implicits.

(** The payload cut into 1-byte writes. *)
Definition one_byte_chunks (payload : list byte) : list (list byte) :=
  map (fun b => [b]) payload.

(** ** bufio.Reader

    Go's standard buffered reader, as far as NeoReader uses it: [Read]
    and [ReadByte] over a buffer of the default size.  The state keeps
    the unread part of the buffer ([b.buf[b.r:b.w]]) and the pending
    error [b.err]. *)

Section Bufio.
Context {R : Type} `{io_Reader R}.

Definition defaultBufSize : Z := 4096.
Definition maxConsecutiveEmptyReads : nat := 100.

Record bufio_Reader : Type := mkBufio {
  b_rd : R;
  b_buf : list byte;
  b_err : option error
}.

Definition bufio_NewReader (src : R) : bufio_Reader :=
  {| b_rd := src; b_buf := []; b_err := None |}.

(** [b.readErr()] *)
Definition readErr (b : bufio_Reader) : bufio_Reader * option error :=
  ({| b_rd := b_rd b; b_buf := b_buf b; b_err := None |}, b_err b).

(** The retry loop of [b.fill()]. *)
Fixpoint fill_loop (i : nat) (b : bufio_Reader) : bufio_Reader :=
  match i with
  | O => {| b_rd := b_rd b; b_buf := b_buf b; b_err := Some ErrNoProgress |}
  | S i' =>
      let '(src, (data, err)) :=
        io_Read (b_rd b) (defaultBufSize - len (b_buf b)) in
      let b := {| b_rd := src; b_buf := b_buf b ++ data; b_err := b_err b |} in
      match err with
      | Some e => {| b_rd := b_rd b; b_buf := b_buf b; b_err := Some e |}
      | None => if 0 <? len data then b else fill_loop i' b
      end
  end.

Definition fill (b : bufio_Reader) : outcome bufio_Reader :=
  if defaultBufSize <=? len (b_buf b)
  then Panic "bufio: tried to fill full buffer"
  else Ret (fill_loop maxConsecutiveEmptyReads b).

(** [b.Read(p)] with [n = len(p)]: the reader, the bytes stored at the
    front of [p], and the error. *)
Definition bufio_Read (b : bufio_Reader) (n : Z)
  : bufio_Reader * (list byte * option error) :=
  if n =? 0 then
    if 0 <? len (b_buf b) then (b, ([], None))
    else let '(b, e) := readErr b in (b, ([], e))
  else
    let copy_out (b : bufio_Reader) :=
      let k := Z.to_nat (Z.min n (len (b_buf b))) in
      ({| b_rd := b_rd b; b_buf := drop k (b_buf b); b_err := b_err b |},
       (take k (b_buf b), None)) in
    match b_buf b with
    | [] =>
        match b_err b with
        | Some _ => let '(b, e) := readErr b in (b, ([], e))
        | None =>
            if defaultBufSize <=? n then
              let '(src, (data, err)) := io_Read (b_rd b) n in
              (* b.err is set and taken back by readErr at once *)
              ({| b_rd := src; b_buf := []; b_err := None |}, (data, err))
            else
              let '(src, (data, err)) := io_Read (b_rd b) defaultBufSize in
              let b := {| b_rd := src; b_buf := []; b_err := err |} in
              if len data =? 0 then
                let '(b, e) := readErr b in (b, ([], e))
              else
                copy_out {| b_rd := b_rd b; b_buf := data; b_err := b_err b |}
        end
    | _ :: _ => copy_out b
    end.

(** [b.ReadByte()].  Its loop [for b.r == b.w] runs [fill] at most
    once: [fill] leaves either data or an error behind. *)
Definition bufio_ReadByte (b : bufio_Reader)
  : outcome (bufio_Reader * (byte * option error)) :=
  let take_byte (b : bufio_Reader) (otherwise : outcome _) :=
    match b_buf b with
    | c :: tl =>
        Ret ({| b_rd := b_rd b; b_buf := tl; b_err := b_err b |}, (c, None))
    | [] =>
        match b_err b with
        | Some _ => let '(b, e) := readErr b in Ret (b, (x00, e))
        | None => otherwise
        end
    end in
  take_byte b (let* b := fill b in take_byte b OutOfFuel).

End Bufio.
Arguments bufio_Reader R : clear implicits.

(** ** The streaming decoder *)

Fixpoint bytes_Equal (a b : list byte) : bool :=
  match a, b with
  | [], [] => true
  | x :: a', y :: b' => Byte.eqb x y && bytes_Equal a' b'
  | _, _ => false
  end.

Section Reader.
Context {R : Type} `{io_Reader R}.

Record NeoReader : Type := mkNeoReader {
  r_n : Z;
  r_rd : bufio_Reader R;
  r_NeoHeader : option NeoHeader;
  r_buf : list byte
}.

Definition NewNeoReader (src : R) : NeoReader :=
  {| r_n := 0;
     r_rd := bufio_NewReader src;
     r_NeoHeader := None;
     r_buf := replicate 1024 x00 |}.

Definition set_n (r : NeoReader) (v : Z) : NeoReader :=
  {| r_n := v; r_rd := r_rd r; r_NeoHeader := r_NeoHeader r;
     r_buf := r_buf r |}.

Definition set_rd (r : NeoReader) (b : bufio_Reader R) : NeoReader :=
  {| r_n := r_n r; r_rd := b; r_NeoHeader := r_NeoHeader r;
     r_buf := r_buf r |}.

Definition set_NeoHeader (r : NeoReader) (h : NeoHeader) : NeoReader :=
  {| r_n := r_n r; r_rd := r_rd r; r_NeoHeader := Some h;
     r_buf := r_buf r |}.

Definition set_r_buf (r : NeoReader) (b : list byte) : NeoReader :=
  {| r_n := r_n r; r_rd := r_rd r; r_NeoHeader := r_NeoHeader r;
     r_buf := b |}.

(** The loop that reads the length of the header byte by byte; it
    yields the reader, [ReadByte]'s error if any, [n_] and [hdrLen]. *)
Fixpoint read_hdrLen (fuel : nat) (b : bufio_Reader R) (n_ hdrLen : Z)
  : outcome (bufio_Reader R * (option error * Z * Z)) :=
  match fuel with
  | O => OutOfFuel
  | S fuel' =>
      let* (b, (v, err)) := bufio_ReadByte b in
      match err with
      | Some e => Ret (b, (Some e, n_, hdrLen))
      | None =>
          let hdrLen := wrap_int (hdrLen + Z_of_byte v) in
          let n_ := wrap_int (n_ + 1) in
          if negb (Byte.eqb v xff) then Ret (b, (None, n_, hdrLen))
          else read_hdrLen fuel' b n_ hdrLen
      end
  end.

(** The result of a [Read(p)]: the contents of [p] after the call, the
    count [n] and the error. *)
Definition read_result : Type := list byte * Z * option error.

(** Read when the header is parsed and the replay is not over
    ([r.n < len(r.NeoHeader.OriginalHeader)]); [self] is the call
    [r.Read] of the method to itself. *)
Definition Read_replay
    (self : NeoReader -> list byte -> outcome (NeoReader * read_result))
    (r : NeoReader) (h : NeoHeader) (p : list byte)
  : outcome (NeoReader * read_result) :=
  let* src := slice_from (OriginalHeader h) (r_n r) in
  let '(p, n) := copy p src in
  let r := set_n r (wrap_int (r_n r + n)) in
  let* sub := slice_from p (r_n r) in
  let* (r', (sub', n_, err_)) := self r sub in
  Ret (r', (take (Z.to_nat (r_n r)) p ++ sub', wrap_int (n_ + n), err_)).

(** Read when no header is parsed yet, up to the final [return
    r.Read(p)]: the result is [Some (n, err)] where the code returns
    early and [None] where it goes on to [r.Read(p)].  [hdr] is a slice
    of [r.buf] when the header fits it ([aliased]): what is written to
    [hdr] is then written to [r.buf]. *)
Definition Read_parse (fuel : nat) (r : NeoReader)
  : outcome (NeoReader * option (Z * option error)) :=
  let* m := slice_to (r_buf r) (len NeoMagicNumber) in
  let '(b, (data, err)) := bufio_Read (r_rd r) (len m) in
  let r := set_rd r b in
  let r := set_r_buf r (fst (copy (r_buf r) data)) in
  match err with
  | Some _ => Ret (r, Some (0, None))
  | None =>
  let* m := slice_to (r_buf r) (len NeoMagicNumber) in
  if negb (bytes_Equal m NeoMagicNumber)
  then Ret (r, Some (0, Some ErrNotNEOHeader))
  else
  let* (b, (err, n_, hdrLen)) := read_hdrLen fuel (r_rd r) 0 0 in
  let r := set_rd r b in
  match err with
  | Some e => Ret (r, Some (0, Some e))
  | None =>
  let n := 0 in
  let aliased :=
    wrap_int (len NeoMagicNumber + n_ + hdrLen) <=? len (r_buf r) in
  let* hdr :=
    (if aliased
     then slice_to (r_buf r) (wrap_int (len NeoMagicNumber + n_ + hdrLen))
     else make (wrap_int (len NeoMagicNumber + n + hdrLen))) in
  let hdr := fst (copy hdr NeoMagicNumber) in
  let* tl := slice_from hdr (len NeoMagicNumber) in
  let hdr := take (Z.to_nat (len NeoMagicNumber)) hdr
             ++ fst (copy tl (encodeVUint (uint_of_int hdrLen))) in
  let* tl := slice_from hdr (wrap_int (len NeoMagicNumber + n_)) in
  let '(b, (data, err)) := bufio_Read (r_rd r) (len tl) in
  let hdr := take (Z.to_nat (wrap_int (len NeoMagicNumber + n_))) hdr
             ++ fst (copy tl data) in
  let r := set_rd r b in
  let r := if aliased then set_r_buf r (fst (copy (r_buf r) hdr)) else r in
  match err with
  | Some e => Ret (r, Some (0, Some e))
  | None =>
  let* (h, err) := UnMarshall zero_NeoHeader hdr in
  let r := set_NeoHeader r h in
  match err with
  | Some _ => Ret (r, Some (0, None))
  | None => Ret (r, None)
  end end end end.

(** The body of NeoReader.Read; [fuel] is handed to the length loop. *)
Definition Read_body
    (self : NeoReader -> list byte -> outcome (NeoReader * read_result))
    (fuel : nat) (r : NeoReader) (p : list byte)
  : outcome (NeoReader * read_result) :=
  if len p =? 0 then Ret (r, (p, 0, None))
  else
    match r_NeoHeader r with
    | Some h =>
        if r_n r <? len (OriginalHeader h) then Read_replay self r h p
        else
          let '(b, (data, err)) := bufio_Read (r_rd r) (len p) in
          Ret (set_rd r b, (fst (copy p data), len data, err))
    | None =>
        let* (r, early) := Read_parse fuel r in
        match early with
        | Some (n, err) => Ret (r, (p, n, err))
        | None => self r p
        end
    end.

(** NeoReader.Read.  [fuel] bounds the depth of its calls to itself and
    the iterations of the length loop. *)
Fixpoint NeoReader_Read_fuel (fuel : nat) (r : NeoReader) (p : list byte)
  : outcome (NeoReader * read_result) :=
  match fuel with
  | O => OutOfFuel
  | S fuel' => Read_body (NeoReader_Read_fuel fuel') fuel' r p
  end.

End Reader.
Arguments NeoReader R : clear implicits.

(** For a source held in memory the decoder needs no more fuel than two
    nested calls and one turn of the length loop per byte left. *)
Definition NeoReader_Read (r : NeoReader Buffer) (p : list byte)
  : outcome (NeoReader Buffer * read_result) :=
  NeoReader_Read_fuel
    (4 + length (b_buf (r_rd r)) + length (Bytes (b_rd (r_rd r)))) r p.

(** A caller that reads to exhaustion: one [Read] per request size, each
    into a fresh buffer of that size, collecting [p[:n]], until a [Read]
    returns an error (io.EOF at the end of the stream). *)
Fixpoint read_all (sizes : list Z) (r : NeoReader Buffer) (acc : list byte)
  : outcome (NeoReader Buffer * (list byte * option error)) :=
  match sizes with
  | [] => Ret (r, (acc, None))
  | s :: sizes' =>
      let* p := make s in
      let* (r, (p, n, err)) := NeoReader_Read r p in
      let* got := slice_to p n in
      match err with
      | Some e => Ret (r, (acc ++ got, Some e))
      | None => read_all sizes' r (acc ++ got)
      end
  end.

(** ** CRC-32 (hash/crc32, IEEE polynomial, reflected) *)

Definition crc32_poly : Z := 0xedb88320.

Fixpoint crc32_bits (k : nat) (c : Z) : Z :=
  match k with
  | O => c
  | S k' =>
      crc32_bits k'
        (if Z.testbit c 0 then Z.lxor (Z.shiftr c 1) crc32_poly
         else Z.shiftr c 1)
  end.

Definition crc32_update (c : Z) (p : list byte) : Z :=
  fold_left (fun c b => crc32_bits 8 (Z.lxor c (Z_of_byte b))) p c.

Definition ChecksumIEEE (p : list byte) : Z :=
  Z.lxor (crc32_update 0xffffffff p) 0xffffffff.

(** ** Scenarios *)

(** What a call returned, without the state it left. *)
Definition result_of {S A} (o : outcome (S * A)) : outcome A :=
  let* (_, a) := o in Ret a.

(** A whole payload given to a new encoder in one Write (what io.Copy
    does with a short file); the result is what reached the sink. *)
Definition encode_once (hdrLen : Z) (filename : list byte) (crc32 : Z)
    (payload : list byte) (r1 r2 : rand_read) : outcome (list byte) :=
  let* (x, _) :=
    NeoWriter_Write (NewNeoWriter (mkBuffer []) hdrLen filename crc32)
      payload r1 r2 in
  Ret (Bytes (w x)).

(** The same payload given in the chunks listed. *)
Definition encode_chunks (hdrLen : Z) (filename : list byte) (crc32 : Z)
    (chunks : list (list byte)) (r1 r2 : rand_read) : outcome (list byte) :=
  let* (x, _) :=
    write_chunks (NewNeoWriter (mkBuffer []) hdrLen filename crc32)
      chunks r1 r2 in
  Ret (Bytes (w x)).

(** A new decoder on the container, read with the request sizes listed. *)
Definition decode_with (sizes : list Z) (container : list byte)
  : outcome (list byte * option error) :=
  result_of (read_all sizes (NewNeoReader (mkBuffer container)) []).

(** The payload of the examples: the 128 bytes 0, 1, ..., 127. *)
Definition test_payload : list byte :=
  map (fun i => byte_of_Z (Z.of_nat i)) (seq 0 128).

(** "test.bin" *)
Definition test_filename : list byte :=
  [x74; x65; x73; x74; x2e; x62; x69; x6e].

Definition key1 : rand_read := RandKey x9c x01 xfe x33.
Definition key2 : rand_read := RandKey x00 xff x10 x20.

Definition test_container : outcome (list byte) :=
  encode_once 32 test_filename (ChecksumIEEE test_payload) test_payload
    key1 key2.

(** A stream whose flags byte carries version 2, and one whose first
    method tag is 7. *)
Definition bad_version_stream : list byte := NeoMagicNumber ++ [x01; x02].
Definition bad_method_stream : list byte := NeoMagicNumber ++ [x02; x01; x07].

(** A container whose header holds 1024 leading bytes. *)
Definition long_payload : list byte := replicate 1100 x41.
Definition long_container : outcome (list byte) :=
  encode_once 1024 test_filename (ChecksumIEEE long_payload) long_payload
    key1 key2.

(** What writeContentWithXorEnc appends for a 4-byte key. *)
Definition xor_block (k0 k1 k2 k3 : byte) (content : list byte) : list byte :=
  [XorEnc] ++ encodeVUint 4 ++ key_of k0 k1 k2 k3
  ++ encodeVUint (len content) ++ map (fun v => byte_xor v k0) content.

(** The bytes Marshall produces for a version-1 header with both fields
    XOR-obfuscated. *)
Definition wire (h : NeoHeader) (a0 a1 a2 a3 c0 c1 c2 c3 : byte) : list byte :=
  let body := [x01] ++ xor_block a0 a1 a2 a3 (OriginalHeader h)
              ++ xor_block c0 c1 c2 c3 (OriginalFilename h)
              ++ PutUint32 (Crc32 h) in
  NeoMagicNumber ++ encodeVUint (len body) ++ body.

(** The header of the repository's test, with its multi-byte file name
    (here the UTF-8 bytes of a two-character Chinese name and ".rar"). *)
Definition test_header : NeoHeader :=
  {| Version := VersionV1;
     OriginalHeaderEncMethod := XorEnc;
     OriginalHeader := [x52; x61; x71; x21; x1a; x07; x01; x00];
     OriginalFilenameEncMethod := XorEnc;
     OriginalFilename := [xe8; xbf; x99; xe6; x98; xaf; x2e; x72; x61; x72];
     Crc32 := 6655 |}.

(** ** Predicates for the properties *)

(** The call returned or panicked: its fuel was enough. *)
Definition finishes {A} (o : outcome A) : Prop := o <> OutOfFuel.

(** The bytes a buffered reader over a bytes.Buffer still holds. *)
Definition pending (b : bufio_Reader Buffer) : nat :=
  (length (b_buf b) + length (Bytes (b_rd b)))%nat.

(** Every slice of a Go program has a length that is an [int]. *)
Definition header_fits (r : NeoReader Buffer) : Prop :=
  match r_NeoHeader r with
  | Some h => len (OriginalHeader h) <= int_max
  | None => True
  end.

(** ** Further scenarios *)

(** What writeContentWithXorEnc appends after the method tag, for a key
    [k0 :: ks] of any length. *)
Definition block_body (k0 : byte) (ks content : list byte) : list byte :=
  encodeVUint (len (k0 :: ks)) ++ (k0 :: ks)
  ++ encodeVUint (len content) ++ map (fun v => byte_xor v k0) content.

(** IsNeoFile on a regular file that opens; [file] is its content.
    [fromFd.Read] behaves as the Read of a buffer over the content: it
    takes what is there and reports io.EOF on an empty file. *)
Definition IsNeoFile (file : list byte) : outcome (bool * option error) :=
  let* magicNum := make (len NeoMagicNumber) in
  let '(_, (data, err)) := io_Read (mkBuffer file) (len magicNum) in
  let magicNum := fst (copy magicNum data) in
  match err with
  | Some e => Ret (false, Some e)
  | None => Ret (bytes_Equal magicNum NeoMagicNumber, None)
  end.

(** The bytes of a header after its length: flags, two tagged blocks with
    keys of any length, the checksum, and whatever follows inside the
    declared length. *)
Definition header_body (flag a0 : byte) (aks oh : list byte) (c0 : byte)
    (cks fn : list byte) (crc : Z) (junk : list byte) : list byte :=
  flag :: XorEnc :: block_body a0 aks oh
  ++ XorEnc :: block_body c0 cks fn ++ PutUint32 crc ++ junk.

(** The header a new encoder has when it flushes: version 1, both
    methods XorEnc, the first [hdrLen] bytes of what was written. *)
Definition written_header (hdrLen : Z) (filename : list byte) (crc32 : Z)
    (payload : list byte) : NeoHeader :=
  {| Version := VersionV1;
     OriginalHeaderEncMethod := XorEnc;
     OriginalHeader := take (Z.to_nat hdrLen) payload;
     OriginalFilenameEncMethod := XorEnc;
     OriginalFilename := filename;
     Crc32 := crc32 |}.

(** The bytes a buffered reader over a bytes.Buffer has not delivered
    yet, in order: its own buffer, then the source. *)
Definition unread (b : bufio_Reader Buffer) : list byte :=
  b_buf b ++ Bytes (b_rd b).


(** ** Files

    The commands of the program work on regular files.  A file is modelled
    by its content, and opening, creating, closing and renaming one are
    taken to succeed (their failures end the command with a log line
    before any byte is moved).  io.Copy moves bytes through one buffer of
    32 KB: it reads until the source reports io.EOF, writes what each read
    delivered, and stops at the first other error. *)

Definition copy_buffer_size : Z := 32 * 1024.

(** The reads io.Copy gets from a regular file: 32 KB each, the last one
    what is left. *)
Fixpoint file_reads_fuel (fuel : nat) (file : list byte) : list (list byte) :=
  match fuel with
  | O => []
  | S fuel' =>
      match file with
      | [] => []
      | _ => take (Z.to_nat copy_buffer_size) file
             :: file_reads_fuel fuel' (drop (Z.to_nat copy_buffer_size) file)
      end
  end.

Definition file_reads (file : list byte) : list (list byte) :=
  file_reads_fuel (length file) file.

(** hash/crc32's digest as io.Copy feeds it: [Write] continues the
    checksum kept so far, [Sum32] is that checksum. *)
Definition crc32_Write (crc : Z) (p : list byte) : Z :=
  Z.lxor (crc32_update (Z.lxor crc 0xffffffff) p) 0xffffffff.

Definition crc32ofFile (file : list byte) : Z :=
  fold_left crc32_Write (file_reads file) 0.

(** encodeFile: the content of the file it leaves beside the original
    (under a random name), and the error of io.Copy that it logs.
    [base] is path.Base of the file's name. *)
Definition encodeFile (base file : list byte) (r1 r2 : rand_read)
  : outcome (list byte * option error) :=
  let crc32_ := crc32ofFile file in
  let* (x, err) :=
    write_chunks (NewNeoWriter (mkBuffer []) 8 base crc32_)
      (file_reads file) r1 r2 in
  Ret (Bytes (w x), err).

(** What decodeFile leaves: the decoded file under the name stored in the
    header, or nothing (the ".decoding" file is removed) after a failed
    copy or a checksum mismatch. *)
Inductive decoded : Type :=
| Renamed (name content : list byte)
| CopyFailed (e : error)
| CrcMismatch (stored computed : Z).

Definition nil_dereference : string :=
  "invalid memory address or nil pointer dereference".

(** decodeFile.  io.Copy reads the decoder into its 32 KB buffer; the
    tee hands every byte read to the checksum, so that [h.Sum32()] is the
    checksum of what was written.  A Read uses of its buffer only the
    length and returns what it stored, so the one buffer of io.Copy is
    read as a buffer per Read.  The copy is cut after two reads more than
    the file has bytes. *)
Definition decodeFile (file : list byte) : outcome decoded :=
  let* (neoRd, (written, err)) :=
    read_all (replicate (2 + length file) copy_buffer_size)
      (NewNeoReader (mkBuffer file)) [] in
  match err with
  | None => OutOfFuel
  | Some EOF =>
      match r_NeoHeader neoRd with
      | None => Panic nil_dereference
      | Some h =>
          let crc32_ := crc32_Write 0 written in
          if crc32_ =? Crc32 h then Ret (Renamed (OriginalFilename h) written)
          else Ret (CrcMismatch (Crc32 h) crc32_)
      end
  | Some e => Ret (CopyFailed e)
  end.

(** parseFile: a container is decoded, any other file encoded. *)
Inductive parsed : Type :=
| NotParsed (e : error)
| Decoded (d : decoded)
| Encoded (container : list byte) (err : option error).

Definition parseFile (base file : list byte) (r1 r2 : rand_read)
  : outcome parsed :=
  let* (isNeoFile, err) := IsNeoFile file in
  match err with
  | Some e => Ret (NotParsed e)
  | None =>
      if isNeoFile then let* d := decodeFile file in Ret (Decoded d)
      else let* (c, e) := encodeFile base file r1 r2 in Ret (Encoded c e)
  end.
(* ================================================================= *)
(** * Properties *)

(** ** Bytes and machine integers *)

Lemma Z_of_byte_range (b : byte) : 0 <= Z_of_byte b < 256.
Proof.
  unfold Z_of_byte. pose proof (Byte.to_N_bounded b). lia.
Qed.

Lemma byte_of_Z_of_byte (b : byte) : byte_of_Z (Z_of_byte b) = b.
Proof.
  unfold byte_of_Z. rewrite Z.mod_small by apply Z_of_byte_range.
  unfold Z_of_byte. rewrite N2Z.id, Byte.of_to_N. reflexivity.
Qed.

Lemma Z_of_byte_of_Z (z : Z) : 0 <= z < 256 -> Z_of_byte (byte_of_Z z) = z.
Proof.
  intros Hz. unfold byte_of_Z, Z_of_byte. rewrite Z.mod_small by lia.
  destruct (Byte.of_N (Z.to_N z)) as [b|] eqn:E.
  - apply Byte.to_of_N in E. rewrite E. lia.
  - apply Byte.of_N_None_iff in E. lia.
Qed.

Lemma Z_of_byte_inj (a b : byte) : Z_of_byte a = Z_of_byte b -> a = b.
Proof.
  intros E. rewrite <- (byte_of_Z_of_byte a), <- (byte_of_Z_of_byte b).
  now rewrite E.
Qed.

Lemma byte_eqb_refl (b : byte) : Byte.eqb b b = true.
Proof. now apply Byte.byte_dec_lb. Qed.

Lemma byte_eqb_neq (a b : byte) : a <> b -> Byte.eqb a b = false.
Proof.
  intros Hne. destruct (Byte.eqb a b) eqn:E; [|reflexivity].
  now apply Byte.byte_dec_bl in E.
Qed.

Lemma bits_lt_256 (x : Z) :
  0 <= x -> (forall n, 8 <= n -> Z.testbit x n = false) -> x < 256.
Proof.
  intros Hx Hbits.
  assert (E : x = x mod 2 ^ 8).
  { apply Z.bits_inj'. intros n Hn.
    destruct (Z_lt_dec n 8).
    - now rewrite Z.mod_pow2_bits_low.
    - rewrite Z.mod_pow2_bits_high by lia. apply Hbits. lia. }
  rewrite E. apply Z.mod_pos_bound. lia.
Qed.

Lemma byte_high_bits (b : byte) (n : Z) :
  8 <= n -> Z.testbit (Z_of_byte b) n = false.
Proof.
  intros Hn. pose proof (Z_of_byte_range b) as Hb.
  rewrite <- (Z.mod_small (Z_of_byte b) (2 ^ 8)) by (change (2 ^ 8) with 256; lia).
  apply Z.mod_pow2_bits_high. lia.
Qed.

Lemma lxor_byte_range (a b : byte) :
  0 <= Z.lxor (Z_of_byte a) (Z_of_byte b) < 256.
Proof.
  pose proof (Z_of_byte_range a). pose proof (Z_of_byte_range b).
  split.
  - apply Z.lxor_nonneg. lia.
  - apply bits_lt_256.
    + apply Z.lxor_nonneg. lia.
    + intros n Hn. rewrite Z.lxor_spec, !byte_high_bits by lia. reflexivity.
Qed.

Lemma byte_xor_involutive (a k : byte) : byte_xor (byte_xor a k) k = a.
Proof.
  unfold byte_xor. rewrite Z_of_byte_of_Z by apply lxor_byte_range.
  rewrite Z.lxor_assoc, Z.lxor_nilpotent, Z.lxor_0_r.
  apply byte_of_Z_of_byte.
Qed.

Lemma len_nonneg {A} (s : list A) : 0 <= len s.
Proof. unfold len. lia. Qed.

Lemma len_app {A} (a b : list A) : len (a ++ b) = len a + len b.
Proof. unfold len. rewrite length_app. lia. Qed.

Lemma wrap_uint_small (z : Z) : 0 <= z < uint_mod -> wrap_uint z = z.
Proof. intros Hz. unfold wrap_uint. now apply Z.mod_small. Qed.

Lemma int_of_uint_small (u : Z) : u <= int_max -> int_of_uint u = u.
Proof.
  intros Hu. unfold int_of_uint.
  destruct (Z.leb_spec u int_max); [reflexivity | lia].
Qed.

Lemma int_max_lt_uint_mod : int_max < uint_mod.
Proof. reflexivity. Qed.

(** ** The variable-length integer codec *)

Lemma decodeVUint_loop_sentinels (k : nat) :
  forall (res : Z) (rest : list byte),
    0 <= res -> res + 255 * Z.of_nat k < uint_mod ->
    decodeVUint_loop res (replicate k xff ++ rest)
    = decodeVUint_loop (res + 255 * Z.of_nat k) rest.
Proof.
  induction k as [|k IH]; intros res rest Hres Hbound.
  - simpl. now rewrite Z.add_0_r.
  - cbn [replicate app decodeVUint_loop]. rewrite byte_eqb_refl.
    rewrite wrap_uint_small by lia.
    rewrite IH by lia. f_equal. lia.
Qed.

Lemma decodeVUint_loop_terminal (res : Z) (t : byte) (rest : list byte) :
  t <> xff ->
  decodeVUint_loop res (t :: rest) = (wrap_uint (res + Z_of_byte t), rest).
Proof.
  intros Ht. cbn [decodeVUint_loop]. now rewrite byte_eqb_neq.
Qed.

Lemma terminal_byte_not_sentinel (u : Z) : byte_of_Z (u mod 255) <> xff.
Proof.
  intros E. apply (f_equal Z_of_byte) in E.
  pose proof (Z.mod_pos_bound u 255 ltac:(lia)) as Hm.
  rewrite Z_of_byte_of_Z in E by lia.
  change (Z_of_byte xff) with 255 in E. lia.
Qed.

Lemma encodeVUint_small (u : Z) :
  0 <= u <= int_max ->
  encodeVUint u
  = replicate (Z.to_nat (u / 255)) xff ++ [byte_of_Z (u mod 255)].
Proof.
  intros Hu. unfold encodeVUint.
  rewrite int_of_uint_small by lia.
  rewrite Z.quot_div_nonneg by lia. reflexivity.
Qed.

(** Decoding what encodeVUint wrote gives the value back and leaves what
    follows untouched. *)
Lemma decodeVUint_encodeVUint_app (u : Z) (rest : list byte) :
  0 <= u <= int_max ->
  decodeVUint (encodeVUint u ++ rest) = (u, rest).
Proof.
  intros Hu. pose proof int_max_lt_uint_mod as Hmax.
  rewrite encodeVUint_small by assumption.
  pose proof (Z.mod_pos_bound u 255 ltac:(lia)) as Hm.
  pose proof (Z.div_mod u 255 ltac:(lia)) as Hdm.
  assert (0 <= u / 255) by (apply Z.div_pos; lia).
  unfold decodeVUint. rewrite <- app_assoc.
  rewrite decodeVUint_loop_sentinels by (rewrite ?Z2Nat.id; lia).
  cbn [app]. rewrite decodeVUint_loop_terminal by apply terminal_byte_not_sentinel.
  rewrite Z_of_byte_of_Z by lia. rewrite Z2Nat.id by lia.
  rewrite wrap_uint_small by lia. f_equal. lia.
Qed.

Lemma len_encodeVUint (u : Z) :
  0 <= u <= int_max -> len (encodeVUint u) = u / 255 + 1.
Proof.
  intros Hu. rewrite encodeVUint_small by assumption.
  assert (0 <= u / 255) by (apply Z.div_pos; lia).
  unfold len. rewrite length_app, length_replicate. cbn [length]. lia.
Qed.

(** C4, as amended: for every [uint] [u] that is at most the largest
    [int] (2^63 - 1), encodeVUint(u) is floor(u/255) bytes 255 followed by
    the one byte u mod 255, and decodeVUint gives back (u, empty). *)
Theorem encodeVUint_decodeVUint_roundtrip (u : Z) :
  0 <= u <= int_max ->
  encodeVUint u
  = replicate (Z.to_nat (u / 255)) xff ++ [byte_of_Z (u mod 255)]
  /\ decodeVUint (encodeVUint u) = (u, []).
Proof.
  intros Hu. split.
  - now apply encodeVUint_small.
  - rewrite <- (app_nil_r (encodeVUint u)).
    now apply decodeVUint_encodeVUint_app.
Qed.

Lemma encodeVUint_decodeVUint_roundtrip_witness :
  0 <= 65535 <= int_max
  /\ encodeVUint 65535
     = replicate (Z.to_nat (65535 / 255)) xff ++ [byte_of_Z (65535 mod 255)]
  /\ decodeVUint (encodeVUint 65535) = (65535, []).
Proof.
  split; [vm_compute; split; discriminate |].
  apply (encodeVUint_decodeVUint_roundtrip 65535).
  vm_compute; split; discriminate.
Defined.

(** C4 as stated fails at the [uint] 2^63: [int(u)] is negative there, no
    sentinel byte is written, and the value decoded is 128. *)
Lemma encodeVUint_roundtrip_fails_at_2_63 :
  0 <= 2 ^ 63 < uint_mod
  /\ ~ (encodeVUint (2 ^ 63)
        = replicate (Z.to_nat (2 ^ 63 / 255)) xff ++ [byte_of_Z (2 ^ 63 mod 255)]
        /\ decodeVUint (encodeVUint (2 ^ 63)) = (2 ^ 63, [])).
Proof.
  split; [vm_compute; split; [discriminate | reflexivity] |].
  intros [_ Hdec]. vm_compute in Hdec. discriminate Hdec.
Qed.

Lemma all_sentinels (p : list byte) :
  Forall (fun b => b = xff) p -> p = replicate (length p) xff.
Proof.
  induction 1 as [|b p Hb _ IH]; [reflexivity|].
  cbn [length replicate]. now rewrite Hb, <- IH.
Qed.

(** C10: on a slice made of 0xFF bytes only (the empty slice included)
    decodeVUint returns 255 times the number of bytes and an empty
    surplus; its result type has no error component.  The bound says that
    the sum fits a [uint], which holds for every slice that fits in
    memory. *)
Theorem decodeVUint_unterminated (p : list byte) :
  Forall (fun b => b = xff) p ->
  255 * len p < uint_mod ->
  decodeVUint p = (255 * len p, []).
Proof.
  intros Hall Hfit. rewrite (all_sentinels p Hall) at 1.
  rewrite <- (app_nil_r (replicate _ _)).
  unfold decodeVUint. rewrite decodeVUint_loop_sentinels by (unfold len in Hfit; lia).
  reflexivity.
Qed.

Lemma decodeVUint_unterminated_witness :
  decodeVUint [xff; xff; xff] = (255 * len [xff; xff; xff], []).
Proof.
  apply (decodeVUint_unterminated [xff; xff; xff]).
  - repeat constructor.
  - reflexivity.
Defined.

(** ** The XOR stream *)

(** The method never assigns [s.idx]: on a stream made by NewXorStream
    the key byte used is always the first one. *)
Lemma key_byte_fresh (k0 : byte) (ks : list byte) :
  key_byte (NewXorStream (k0 :: ks)) = Ret k0.
Proof.
  unfold key_byte, NewXorStream. cbn [key idx].
  destruct (Z.eqb_spec (len (k0 :: ks)) 0) as [E|_].
  - unfold len in E. cbn [length] in E. lia.
  - rewrite Z.mod_0_l by (unfold len; cbn [length]; lia). reflexivity.
Qed.

Lemma XORKeyStream_loop_fresh (k0 : byte) (ks : list byte) (src : list byte) :
  forall (pre mid post : list byte),
    length mid = length src ->
    XORKeyStream_loop (NewXorStream (k0 :: ks)) (length pre) src
      (pre ++ mid ++ post)
    = Ret (pre ++ map (fun v => byte_xor v k0) src ++ post).
Proof.
  induction src as [|v src IH]; intros pre mid post Hlen.
  - destruct mid; [reflexivity | discriminate].
  - destruct mid as [|d mid]; [discriminate|].
    cbn [XORKeyStream_loop]. rewrite key_byte_fresh. cbn [bind].
    replace (<[length pre := byte_xor v k0]> (pre ++ (d :: mid) ++ post))
      with ((pre ++ [byte_xor v k0]) ++ mid ++ post).
    + replace (S (length pre)) with (length (pre ++ [byte_xor v k0]))
        by (rewrite length_app; cbn [length]; lia).
      rewrite IH by (cbn [length] in Hlen; lia).
      rewrite <- app_assoc. reflexivity.
    + rewrite insert_app_r_alt by lia. rewrite Nat.sub_diag.
      rewrite <- app_assoc. reflexivity.
Qed.

(** What XORKeyStream computes on a fresh stream: every source byte is
    combined with [key[0]], the rest of [dst] is kept, and the stream is
    returned as it was. *)
Lemma XORKeyStream_fresh (k0 : byte) (ks src dst : list byte) :
  (length src <= length dst)%nat ->
  XORKeyStream (NewXorStream (k0 :: ks)) dst src
  = Ret (NewXorStream (k0 :: ks),
         map (fun v => byte_xor v k0) src ++ drop (length src) dst).
Proof.
  intros Hlen. unfold XORKeyStream.
  destruct (Z.eqb_spec (len src) 0) as [E|E].
  - destruct src; [|unfold len in E; cbn [length] in E; lia].
    reflexivity.
  - destruct (Z.ltb_spec (len dst) (len src)) as [Hlt|_];
      [unfold len in Hlt; lia|].
    rewrite <- (take_drop (length src) dst) at 1.
    pose proof (XORKeyStream_loop_fresh k0 ks src [] (take (length src) dst)
                  (drop (length src) dst)) as Hloop.
    cbn [length app] in Hloop. rewrite Hloop by (rewrite length_take; lia).
    reflexivity.
Qed.

(** C3 (the code departs from it): with the key [01 02] and the source
    [00 00] the second output byte is [00 xor key[0] = 01], not
    [00 xor key[1] = 02]; the counter of the stream is still 0 after the
    call, and a second call on the same stream starts from [key[0]]
    again. *)
Theorem XORKeyStream_position_not_advanced :
  XORKeyStream (NewXorStream [x01; x02]) [x00; x00] [x00; x00]
  = Ret ({| idx := 0; key := [x01; x02] |}, [x01; x01])
  /\ [x01; x01] <> [byte_xor x00 x01; byte_xor x00 x02]
  /\ (let* (s, _) := XORKeyStream (NewXorStream [x01; x02]) [x00] [x00] in
      XORKeyStream s [x00] [x00])
     = Ret ({| idx := 0; key := [x01; x02] |}, [x01]).
Proof.
  split; [reflexivity|]. split; [|reflexivity].
  vm_compute. discriminate.
Qed.

(** C9: with a key of at least one byte, XORKeyStream on a fresh stream
    followed by XORKeyStream on another fresh stream with the same key
    gives the source bytes back. *)
Theorem XORKeyStream_involution (k src dst1 dst2 : list byte) :
  k <> [] ->
  (length src <= length dst1)%nat ->
  (length src <= length dst2)%nat ->
  exists mid out,
    XORKeyStream (NewXorStream k) dst1 src = Ret (NewXorStream k, mid)
    /\ XORKeyStream (NewXorStream k) dst2 (take (length src) mid)
       = Ret (NewXorStream k, out)
    /\ take (length src) out = src.
Proof.
  intros Hk H1 H2. destruct k as [|k0 ks]; [congruence|].
  eexists. eexists. split; [apply XORKeyStream_fresh; assumption|].
  assert (Htake : take (length src)
                    (map (fun v => byte_xor v k0) src ++ drop (length src) dst1)
                  = map (fun v => byte_xor v k0) src).
  { rewrite take_app_le by (rewrite length_map; lia).
    apply take_ge. rewrite length_map. lia. }
  rewrite Htake. split.
  - apply XORKeyStream_fresh. rewrite length_map. assumption.
  - rewrite length_map.
    rewrite take_app_le by (rewrite !length_map; lia).
    rewrite take_ge by (rewrite !length_map; lia).
    rewrite map_map. rewrite <- (map_id src) at 2.
    apply map_ext. intros a. apply byte_xor_involutive.
Qed.

Lemma XORKeyStream_involution_witness :
  [x6b; x65; x79] <> []
  /\ (length [x4e; x45; x4f; x21] <= length [x00; x00; x00; x00])%nat
  /\ (length [x4e; x45; x4f; x21] <= length [x00; x00; x00; x00; x00])%nat
  /\ exists mid out,
      XORKeyStream (NewXorStream [x6b; x65; x79]) [x00; x00; x00; x00]
        [x4e; x45; x4f; x21]
      = Ret (NewXorStream [x6b; x65; x79], mid)
      /\ XORKeyStream (NewXorStream [x6b; x65; x79])
           [x00; x00; x00; x00; x00]
           (take (length [x4e; x45; x4f; x21]) mid)
         = Ret (NewXorStream [x6b; x65; x79], out)
      /\ take (length [x4e; x45; x4f; x21]) out = [x4e; x45; x4f; x21].
Proof.
  split; [discriminate|]. split; [cbn; lia|]. split; [cbn; lia|].
  apply (XORKeyStream_involution [x6b; x65; x79] [x4e; x45; x4f; x21]
           [x00; x00; x00; x00] [x00; x00; x00; x00; x00]).
  - discriminate.
  - cbn; lia.
  - cbn; lia.
Defined.

(** ** Slices *)

Lemma slice_from_app {A} (a b : list A) (k : Z) :
  k = len a -> slice_from (a ++ b) k = Ret b.
Proof.
  intros ->. unfold slice_from. pose proof (len_nonneg a). rewrite len_app.
  pose proof (len_nonneg b).
  destruct (Z.leb_spec 0 (len a)); [|lia].
  destruct (Z.leb_spec (len a) (len a + len b)); [|lia].
  cbn [andb]. unfold len. rewrite Nat2Z.id, drop_app_length. reflexivity.
Qed.

Lemma slice_to_app {A} (a b : list A) (k : Z) :
  k = len a -> slice_to (a ++ b) k = Ret a.
Proof.
  intros ->. unfold slice_to. pose proof (len_nonneg a). rewrite len_app.
  pose proof (len_nonneg b).
  destruct (Z.leb_spec 0 (len a)); [|lia].
  destruct (Z.leb_spec (len a) (len a + len b)); [|lia].
  cbn [andb]. unfold len. rewrite Nat2Z.id, take_app_length. reflexivity.
Qed.

Lemma split_at_app {A} (a b : list A) (k : Z) :
  k = len a -> split_at (a ++ b) k = Ret (a, b).
Proof.
  intros Hk. unfold split_at.
  rewrite slice_to_app, slice_from_app by assumption. reflexivity.
Qed.

Lemma slice_from_panics {A} (s : list A) (k : Z) :
  len s < k -> slice_from s k = Panic slice_bounds.
Proof.
  intros Hk. unfold slice_from.
  destruct (Z.leb_spec k (len s)); [lia|]. now rewrite andb_false_r.
Qed.

Lemma make_ok (n : Z) :
  0 <= n <= int_max -> make n = Ret (replicate (Z.to_nat n) x00).
Proof.
  intros Hn. unfold make.
  destruct (Z.leb_spec 0 n); [|lia].
  destruct (Z.leb_spec n int_max); [|lia]. reflexivity.
Qed.

Lemma copy_fits {A} (dst src : list A) :
  (length src <= length dst)%nat ->
  copy dst src = (src ++ drop (length src) dst, len src).
Proof.
  intros Hlen. unfold copy, len.
  rewrite Nat.min_r by assumption. now rewrite take_ge by lia.
Qed.

Lemma uint_of_len {A} (s : list A) :
  len s <= int_max -> uint_of_int (len s) = len s.
Proof.
  intros Hs. unfold uint_of_int. apply wrap_uint_small.
  pose proof (len_nonneg s). pose proof int_max_lt_uint_mod. lia.
Qed.

(** ** The header *)

Lemma Marshall_frame_eq (v buf : list byte) :
  4 + len v + len buf <= int_max ->
  Marshall_frame v buf = Ret (NeoMagicNumber ++ v ++ buf).
Proof.
  intros Hfit. unfold Marshall_frame.
  pose proof (len_nonneg v). pose proof (len_nonneg buf).
  rewrite make_ok by lia. cbn [bind].
  replace (Z.to_nat (4 + len v + len buf))
    with (4 + (length v + length buf))%nat by (unfold len; lia).
  rewrite !replicate_add.
  set (z4 := replicate 4 x00). set (zv := replicate (length v) x00).
  set (zb := replicate (length buf) x00).
  assert (L4 : length z4 = 4%nat) by apply length_replicate.
  assert (Lv : length zv = length v) by apply length_replicate.
  assert (Lb : length zb = length buf) by apply length_replicate.
  rewrite slice_to_app by (unfold len; lia). cbn [bind].
  rewrite slice_from_app by (unfold len; lia). cbn [bind].
  rewrite copy_fits by (cbn [NeoMagicNumber length]; lia).
  cbn [fst]. rewrite drop_ge by (cbn [NeoMagicNumber length]; lia).
  rewrite app_nil_r.
  rewrite slice_from_app by reflexivity. cbn [bind].
  rewrite take_app_length' by reflexivity.
  rewrite copy_fits by (rewrite length_app; lia). cbn [fst].
  rewrite (drop_app_length' zv zb (length v)) by (now rewrite Lv).
  rewrite (app_assoc NeoMagicNumber v zb).
  rewrite slice_from_app by (rewrite len_app; reflexivity). cbn [bind].
  rewrite take_app_length'
    by (rewrite length_app; cbn [NeoMagicNumber length]; unfold len; lia).
  rewrite copy_fits by lia. cbn [fst].
  rewrite drop_ge by lia. now rewrite app_nil_r, <- app_assoc.
Qed.

Lemma writeContentWithXorEnc_eq (buf content : list byte) (k0 k1 k2 k3 : byte) :
  len content <= int_max ->
  writeContentWithXorEnc buf content (key_of k0 k1 k2 k3)
  = Ret (buf ++ xor_block k0 k1 k2 k3 content).
Proof.
  intros Hfit. unfold writeContentWithXorEnc, xor_block.
  pose proof (len_nonneg content).
  rewrite make_ok by lia. cbn [bind]. unfold key_of.
  rewrite XORKeyStream_fresh by (rewrite length_replicate; unfold len; lia).
  cbn [bind]. rewrite drop_ge by (rewrite length_replicate; unfold len; lia).
  rewrite app_nil_r. rewrite (uint_of_len content) by assumption.
  change (uint_of_int (len [k0; k1; k2; k3])) with 4.
  rewrite <- !app_assoc. reflexivity.
Qed.

Lemma loadContextWithXorEnc_block (k0 k1 k2 k3 : byte) (content rest : list byte) :
  len content <= int_max ->
  loadContextWithXorEnc
    (encodeVUint 4 ++ key_of k0 k1 k2 k3
     ++ encodeVUint (len content) ++ map (fun v => byte_xor v k0) content
     ++ rest)
  = Ret (content, rest).
Proof.
  intros Hfit. unfold loadContextWithXorEnc.
  pose proof (len_nonneg content).
  rewrite decodeVUint_encodeVUint_app by (vm_compute; split; discriminate).
  change (int_of_uint 4) with 4.
  rewrite split_at_app by reflexivity. cbn [bind].
  rewrite decodeVUint_encodeVUint_app by lia.
  rewrite int_of_uint_small by assumption.
  rewrite split_at_app by (unfold len; now rewrite length_map).
  cbn [bind]. rewrite make_ok by lia. cbn [bind]. unfold key_of.
  rewrite XORKeyStream_fresh
    by (rewrite length_replicate, length_map; unfold len; lia).
  cbn [bind].
  rewrite drop_ge by (rewrite length_replicate, length_map; unfold len; lia).
  rewrite app_nil_r, map_map. f_equal. f_equal.
  rewrite <- (map_id content) at 2.
  apply map_ext. intros a. apply byte_xor_involutive.
Qed.

Lemma Z_of_byte_of_Z_mod (z : Z) : Z_of_byte (byte_of_Z z) = z mod 256.
Proof.
  pose proof (Z.mod_pos_bound z 256 ltac:(lia)) as Hm.
  unfold byte_of_Z, Z_of_byte.
  destruct (Byte.of_N (Z.to_N (z mod 256))) as [b|] eqn:E.
  - apply Byte.to_of_N in E. rewrite E. lia.
  - apply Byte.of_N_None_iff in E. lia.
Qed.

Lemma testbit_above_32 (c n : Z) :
  0 <= c < 2 ^ 32 -> 32 <= n -> Z.testbit c n = false.
Proof.
  intros Hc Hn. rewrite <- (Z.mod_small c (2 ^ 32)) by assumption.
  apply Z.mod_pow2_bits_high. lia.
Qed.

Lemma Uint32_PutUint32 (c : Z) :
  0 <= c < 2 ^ 32 -> Uint32 (PutUint32 c) = Ret c.
Proof.
  intros Hc. unfold Uint32, PutUint32. f_equal.
  rewrite !Z_of_byte_of_Z_mod. change 256 with (2 ^ 8).
  apply Z.bits_inj'. intros n Hn.
  rewrite !Z.lor_spec, !Z.shiftl_spec by lia.
  assert (Hpiece : forall k, 0 <= k ->
            Z.testbit (Z.shiftr c k mod 2 ^ 8) (n - k)
            = (k <=? n) && (n <? k + 8) && Z.testbit c n).
  { intros k Hk. destruct (Z.leb_spec k n).
    - rewrite Z.testbit_mod_pow2 by lia.
      rewrite Z.shiftr_spec by lia. replace (n - k + k) with n by lia.
      cbn [andb]. f_equal.
      destruct (Z.ltb_spec (n - k) 8), (Z.ltb_spec n (k + 8)); lia || reflexivity.
    - cbn [andb]. apply Z.testbit_neg_r. lia. }
  rewrite (Hpiece 8), (Hpiece 16), (Hpiece 24) by lia.
  rewrite Z.testbit_mod_pow2 by lia.
  destruct (Z_lt_dec n 32) as [Hlt|Hge].
  - destruct (Z.ltb_spec n 8), (Z.leb_spec 8 n), (Z.ltb_spec n (8 + 8)),
      (Z.leb_spec 16 n), (Z.ltb_spec n (16 + 8)), (Z.leb_spec 24 n),
      (Z.ltb_spec n (24 + 8)); try lia; cbn [andb orb];
      rewrite ?orb_false_r; reflexivity.
  - rewrite (testbit_above_32 c n) by lia.
    now rewrite !andb_false_r.
Qed.

Lemma len_xor_block (k0 k1 k2 k3 : byte) (content : list byte) :
  len content <= int_max ->
  len (xor_block k0 k1 k2 k3 content) = len content + len content / 255 + 7.
Proof.
  intros Hfit. pose proof (len_nonneg content). unfold xor_block.
  rewrite !len_app. rewrite (len_encodeVUint (len content)) by lia.
  unfold len at 5. rewrite length_map. fold (len content).
  change (len [XorEnc]) with 1. change (len (encodeVUint 4)) with 1.
  change (len (key_of k0 k1 k2 k3)) with 4. lia.
Qed.

Lemma Marshall_wire (h : NeoHeader) (a0 a1 a2 a3 c0 c1 c2 c3 : byte) :
  Version h = VersionV1 ->
  OriginalHeaderEncMethod h = XorEnc ->
  OriginalFilenameEncMethod h = XorEnc ->
  len (OriginalHeader h) + len (OriginalFilename h) <= 2 ^ 62 ->
  Marshall h (RandKey a0 a1 a2 a3) (RandKey c0 c1 c2 c3)
  = Ret (wire h a0 a1 a2 a3 c0 c1 c2 c3, None).
Proof.
  intros Hv Hm1 Hm2 Hfit.
  pose proof (len_nonneg (OriginalHeader h)) as H1.
  pose proof (len_nonneg (OriginalFilename h)) as H2.
  assert (Hmax : int_max = 9223372036854775807) by reflexivity.
  change (2 ^ 62) with 4611686018427387904 in Hfit.
  pose proof (Z.mul_div_le (len (OriginalHeader h)) 255 ltac:(lia)) as Hd1.
  pose proof (Z.mul_div_le (len (OriginalFilename h)) 255 ltac:(lia)) as Hd2.
  assert (0 <= len (OriginalHeader h) / 255) by (apply Z.div_pos; lia).
  assert (0 <= len (OriginalFilename h) / 255) by (apply Z.div_pos; lia).
  unfold Marshall, wire. rewrite Hv, Hm1, Hm2.
  change (negb (Byte.eqb VersionV1 VersionV1)) with false.
  change (Byte.eqb XorEnc XorEnc) with true.
  change (byte_and VersionV1 FlagVersion) with x01. cbv iota.
  rewrite writeContentWithXorEnc_eq by lia. cbn [bind].
  rewrite writeContentWithXorEnc_eq by lia. cbn [bind].
  rewrite <- !app_assoc.
  set (body := [x01] ++ _).
  assert (Hbody : len body = 19 + len (OriginalHeader h) + len (OriginalHeader h) / 255
                             + len (OriginalFilename h) + len (OriginalFilename h) / 255).
  { subst body. rewrite !len_app.
    rewrite (len_xor_block a0 a1 a2 a3 (OriginalHeader h)) by lia.
    rewrite (len_xor_block c0 c1 c2 c3 (OriginalFilename h)) by lia.
    change (len [x01]) with 1. change (len (PutUint32 _)) with 4. lia. }
  pose proof (Z.mul_div_le (len body) 255 ltac:(lia)) as Hdb.
  assert (0 <= len body / 255) by (apply Z.div_pos; lia).
  rewrite uint_of_len by lia.
  rewrite Marshall_frame_eq by (rewrite len_encodeVUint; lia).
  reflexivity.
Qed.

Lemma slice_from_1 {A} (x : A) (l : list A) : slice_from (x :: l) 1 = Ret l.
Proof. apply (slice_from_app [x] l). reflexivity. Qed.

Lemma UnMarshall_wire (h h0 : NeoHeader) (a0 a1 a2 a3 c0 c1 c2 c3 : byte) :
  Version h = VersionV1 ->
  OriginalHeaderEncMethod h = XorEnc ->
  OriginalFilenameEncMethod h = XorEnc ->
  0 <= Crc32 h < 2 ^ 32 ->
  len (OriginalHeader h) + len (OriginalFilename h) <= 2 ^ 62 ->
  UnMarshall h0 (wire h a0 a1 a2 a3 c0 c1 c2 c3) = Ret (h, None).
Proof.
  intros Hv Hm1 Hm2 Hcrc Hfit.
  destruct h as [v m1 oh m2 fn crc]. cbn [Version OriginalHeaderEncMethod
    OriginalFilenameEncMethod OriginalHeader OriginalFilename Crc32] in *.
  subst v m1 m2.
  pose proof (len_nonneg oh) as H1. pose proof (len_nonneg fn) as H2.
  assert (Hmax : int_max = 9223372036854775807) by reflexivity.
  change (2 ^ 62) with 4611686018427387904 in Hfit.
  pose proof (Z.mul_div_le (len oh) 255 ltac:(lia)) as Hd1.
  pose proof (Z.mul_div_le (len fn) 255 ltac:(lia)) as Hd2.
  assert (0 <= len oh / 255) by (apply Z.div_pos; lia).
  assert (0 <= len fn / 255) by (apply Z.div_pos; lia).
  unfold wire. cbn [OriginalHeader OriginalFilename Crc32].
  set (body := [x01] ++ _).
  assert (Hbody : len body = 19 + len oh + len oh / 255 + len fn + len fn / 255).
  { subst body. rewrite !len_app.
    rewrite (len_xor_block a0 a1 a2 a3 oh) by lia.
    rewrite (len_xor_block c0 c1 c2 c3 fn) by lia.
    change (len [x01]) with 1. change (len (PutUint32 _)) with 4. lia. }
  pose proof (Z.mul_div_le (len body) 255 ltac:(lia)) as Hdb.
  assert (0 <= len body / 255) by (apply Z.div_pos; lia).
  unfold UnMarshall.
  destruct (Z.leb_spec (len (NeoMagicNumber ++ encodeVUint (len body) ++ body)) 4)
    as [Hle|_].
  { rewrite !len_app in Hle. change (len NeoMagicNumber) with 4 in Hle.
    pose proof (len_nonneg (encodeVUint (len body))). lia. }
  rewrite slice_from_app by reflexivity. cbn [bind].
  rewrite decodeVUint_encodeVUint_app by lia.
  rewrite uint_of_len by lia. rewrite Z.eqb_refl. cbn [negb].
  clear Hbody Hdb. subst body. unfold xor_block.
  rewrite <- !app_assoc. cbn [app index0 bind].
  rewrite slice_from_1. cbn [bind Version].
  change (byte_and x01 FlagVersion) with x01.
  change (negb (Byte.eqb x01 VersionV1)) with false. cbv iota.
  rewrite slice_from_1. cbn [bind OriginalHeaderEncMethod].
  change (Byte.eqb XorEnc XorEnc) with true. cbv iota.
  rewrite loadContextWithXorEnc_block by lia. cbn [bind index0].
  rewrite slice_from_1. cbn [bind OriginalFilenameEncMethod].
  change (Byte.eqb XorEnc XorEnc) with true. cbv iota.
  rewrite loadContextWithXorEnc_block by lia. cbn [bind].
  rewrite <- (app_nil_r (PutUint32 crc)).
  rewrite split_at_app by reflexivity. cbn [bind].
  rewrite Uint32_PutUint32 by assumption. cbn [bind].
  reflexivity.
Qed.

(** C5: a header with version 1 and both methods XorEnc, any
    OriginalHeader bytes, any filename bytes (UTF-8 text included) and any
    32-bit checksum, marshalled with any two 4-byte keys from the random
    source, is marshalled without error, and UnMarshall of the bytes
    succeeds and gives every field back.  The parsed header has no place
    for the keys: the result is the same for all keys.  The bound on
    the lengths says that the header fits a Go slice. *)
Theorem Marshall_UnMarshall_roundtrip
    (h h0 : NeoHeader) (a0 a1 a2 a3 c0 c1 c2 c3 : byte) :
  Version h = VersionV1 ->
  OriginalHeaderEncMethod h = XorEnc ->
  OriginalFilenameEncMethod h = XorEnc ->
  0 <= Crc32 h < 2 ^ 32 ->
  len (OriginalHeader h) + len (OriginalFilename h) <= 2 ^ 62 ->
  exists b,
    Marshall h (RandKey a0 a1 a2 a3) (RandKey c0 c1 c2 c3) = Ret (b, None)
    /\ UnMarshall h0 b = Ret (h, None).
Proof.
  intros Hv Hm1 Hm2 Hcrc Hfit.
  exists (wire h a0 a1 a2 a3 c0 c1 c2 c3). split.
  - now apply Marshall_wire.
  - now apply UnMarshall_wire.
Qed.

Lemma Marshall_UnMarshall_roundtrip_witness :
  exists b,
    Marshall test_header (RandKey x9c x01 xfe x33) (RandKey x00 xff x10 x20)
    = Ret (b, None)
    /\ UnMarshall zero_NeoHeader b = Ret (test_header, None).
Proof.
  apply (Marshall_UnMarshall_roundtrip test_header zero_NeoHeader).
  - reflexivity.
  - reflexivity.
  - reflexivity.
  - vm_compute. split; [discriminate | reflexivity].
  - vm_compute. discriminate.
Defined.

(** C6, as amended: on an input of at least 5 bytes whose declared header
    length differs from the number of bytes left after the magic number
    and the length, UnMarshall panics with "len not equal"; it returns no
    error value. *)
Theorem UnMarshall_length_mismatch_panics (h : NeoHeader) (p : list byte) :
  5 <= len p ->
  uint_of_int (len (snd (decodeVUint (drop 4 p))))
    <> fst (decodeVUint (drop 4 p)) ->
  UnMarshall h p = Panic "len not equal".
Proof.
  intros Hlen Hne. unfold UnMarshall.
  destruct (Z.leb_spec (len p) 4); [lia|].
  rewrite <- (take_drop 4 p) at 1.
  rewrite slice_from_app
    by (unfold len in *; rewrite length_take; lia).
  cbn [bind]. destruct (decodeVUint (drop 4 p)) as [l rest].
  cbn [fst snd] in Hne.
  destruct (Z.eqb_spec (uint_of_int (len rest)) l); [contradiction|].
  reflexivity.
Qed.

Lemma UnMarshall_length_mismatch_panics_witness :
  UnMarshall zero_NeoHeader (NeoMagicNumber ++ [x05]) = Panic "len not equal".
Proof.
  apply (UnMarshall_length_mismatch_panics zero_NeoHeader
           (NeoMagicNumber ++ [x05])).
  - vm_compute. discriminate.
  - vm_compute. discriminate.
Defined.

(** C6 as stated fails on the five bytes FF 4E 45 4F 05: the declared
    length is 5, nothing is left, and UnMarshall returns no error. *)
Lemma UnMarshall_length_mismatch_returns_no_error :
  5 <= len (NeoMagicNumber ++ [x05])
  /\ uint_of_int (len (snd (decodeVUint (drop 4 (NeoMagicNumber ++ [x05])))))
     <> fst (decodeVUint (drop 4 (NeoMagicNumber ++ [x05])))
  /\ ~ exists h' e,
        UnMarshall zero_NeoHeader (NeoMagicNumber ++ [x05]) = Ret (h', Some e).
Proof.
  split; [vm_compute; discriminate|].
  split; [vm_compute; discriminate|].
  intros (h' & e & Hret). vm_compute in Hret. discriminate Hret.
Qed.

(** ** The streaming decoder *)

(** A stream that does not start with the magic number is rejected. *)
Example Read_rejects_wrong_magic :
  result_of (NeoReader_Read (NewNeoReader (mkBuffer [x50; x4b; x03; x04; x00]))
               [x00; x00])
  = Ret ([x00; x00], 0, Some ErrNotNEOHeader).
Proof. vm_compute. reflexivity. Qed.

(** C7 (the code departs from it): UnMarshall reports the bad version
    and the unknown method to Read, and Read returns 0 bytes and no error
    in both cases; the header it keeps makes the next Read pass the
    source through. *)
Theorem Read_swallows_parse_errors :
  (result_of (UnMarshall zero_NeoHeader bad_version_stream)
   = Ret (Some ErrBadVersion)
   /\ result_of (NeoReader_Read (NewNeoReader (mkBuffer bad_version_stream))
                  [x00; x00; x00; x00])
      = Ret ([x00; x00; x00; x00], 0, None))
  /\ (result_of (UnMarshall zero_NeoHeader bad_method_stream)
      = Ret (Some ErrUnknownCryptoMethod)
      /\ result_of (NeoReader_Read (NewNeoReader (mkBuffer bad_method_stream))
                     [x00; x00; x00; x00])
         = Ret ([x00; x00; x00; x00], 0, None)).
Proof. vm_compute. repeat split. Qed.

(** After the swallowed error the decoder treats what follows the header
    as content. *)
Example Read_after_bad_version :
  decode_with [4; 4] (bad_version_stream ++ [x61; x62; x63])
  = Ret ([x61; x62; x63], None).
Proof. vm_compute. reflexivity. Qed.

(** The header of [long_container] spans 1064 bytes and is well formed. *)
Example long_container_header :
  (let* c := long_container in
   result_of (UnMarshall zero_NeoHeader (take 1064 c)))
  = Ret None.
Proof. vm_compute. reflexivity. Qed.

(** Whatever the 4 + hdrLen bytes that Read allocates are filled with,
    UnMarshall finds the declared length hdrLen and fewer bytes left. *)
Lemma UnMarshall_short_buffer (h : NeoHeader) (hdrLen : Z) (tl : list byte) :
  0 <= hdrLen <= int_max ->
  len (NeoMagicNumber ++ encodeVUint hdrLen ++ tl) = 4 + hdrLen ->
  UnMarshall h (NeoMagicNumber ++ encodeVUint hdrLen ++ tl)
  = Panic "len not equal".
Proof.
  intros Hrange Hlen.
  assert (Hd : 0 <= hdrLen / 255) by (apply Z.div_pos; lia).
  rewrite !len_app, len_encodeVUint in Hlen by assumption.
  change (len NeoMagicNumber) with 4 in Hlen.
  pose proof (len_nonneg tl) as Htl. pose proof int_max_lt_uint_mod.
  apply UnMarshall_length_mismatch_panics.
  - rewrite !len_app, len_encodeVUint by assumption.
    change (len NeoMagicNumber) with 4. lia.
  - change 4%nat with (length NeoMagicNumber). rewrite drop_app_length.
    rewrite decodeVUint_encodeVUint_app by assumption. cbn [fst snd].
    unfold uint_of_int. rewrite wrap_uint_small by lia. lia.
Qed.

(** C8 (the code departs from it): on a well-formed container whose
    header does not fit the 1024-byte buffer, the first Read makes a
    buffer without room for the bytes of the length and panics in
    UnMarshall. *)
Theorem Read_long_header_panics :
  (let* c := long_container in
   result_of (NeoReader_Read (NewNeoReader (mkBuffer c)) (replicate 512 x00)))
  = Panic "len not equal".
Proof. vm_compute. reflexivity. Qed.

(** The repository's test: one Write of the 128 bytes, then reads into a
    512-byte buffer; the bytes and the checksum come back. *)
Example decode_in_large_reads :
  (let* c := test_container in decode_with [512; 512] c)
  = Ret (test_payload, Some EOF)
  /\ (let* c := test_container in
      let* (r, _) := read_all [512; 512] (NewNeoReader (mkBuffer c)) [] in
      Ret (option_map Crc32 (r_NeoHeader r)))
     = Ret (Some (ChecksumIEEE test_payload)).
Proof. vm_compute. split; reflexivity. Qed.

(** C1 (the code departs from it): with request sizes 16, 16 the second
    Read slices [p[r.n:]] with [r.n = 32] on a 16-byte [p] and panics;
    with sizes 10, 40, 512, 512 the decoder returns 128 bytes that are
    not the payload. *)
Theorem decode_in_small_reads_fails :
  (let* c := test_container in decode_with [16; 16] c) = Panic slice_bounds
  /\ exists out,
      (let* c := test_container in decode_with [10; 40; 512; 512] c)
      = Ret (out, Some EOF)
      /\ out <> test_payload
      /\ ChecksumIEEE out <> ChecksumIEEE test_payload.
Proof.
  split; [vm_compute; reflexivity|].
  eexists. split; [vm_compute; reflexivity|].
  split; vm_compute; discriminate.
Qed.

(** ** The streaming encoder *)

(** C2 (the code departs from it): the 128-byte payload written byte by
    byte with leading-byte count 32 panics at the 33rd Write, while one
    Write of the whole payload produces the container; with leading-byte
    count 1 the three bytes 00 01 02 written byte by byte give a container
    that lacks the byte 01. *)
Theorem one_byte_writes_differ :
  encode_chunks 32 test_filename 0 (one_byte_chunks test_payload) key1 key2
  = Panic slice_bounds
  /\ (exists c,
       encode_chunks 32 test_filename 0 [test_payload] key1 key2 = Ret c)
  /\ (exists h,
       encode_chunks 1 test_filename 0 [[x00; x01; x02]] key1 key2
       = Ret (h ++ [x01; x02])
       /\ encode_chunks 1 test_filename 0 (one_byte_chunks [x00; x01; x02])
            key1 key2
          = Ret (h ++ [x02])).
Proof.
  split; [vm_compute; reflexivity|].
  split; [eexists; vm_compute; reflexivity|].
  exists (take 33 (match encode_chunks 1 test_filename 0 [[x00; x01; x02]]
                          key1 key2 with Ret c => c | _ => [] end)).
  split; vm_compute; reflexivity.
Qed.

(** ** The fuel of the models is never exhausted *)

Lemma bind_finishes {A B} (m : outcome A) (k : A -> outcome B) :
  finishes m -> (forall a, m = Ret a -> finishes (k a)) -> finishes (bind m k).
Proof.
  unfold finishes. intros Hm Hk. destruct m as [a| |]; cbn [bind].
  - now apply Hk.
  - discriminate.
  - contradiction.
Qed.

Lemma bind_Ret_inv {A B} (m : outcome A) (k : A -> outcome B) (b : B) :
  bind m k = Ret b -> exists a, m = Ret a /\ k a = Ret b.
Proof. destruct m as [a| |]; cbn [bind]; [eauto | discriminate..]. Qed.

Lemma slice_from_finishes {A} (s : list A) (k : Z) : finishes (slice_from s k).
Proof. unfold finishes, slice_from. destruct (_ && _); discriminate. Qed.

Lemma slice_to_finishes {A} (s : list A) (k : Z) : finishes (slice_to s k).
Proof. unfold finishes, slice_to. destruct (_ && _); discriminate. Qed.

Lemma split_at_finishes {A} (s : list A) (k : Z) : finishes (split_at s k).
Proof.
  unfold split_at. apply bind_finishes; [apply slice_to_finishes|].
  intros a _. apply bind_finishes; [apply slice_from_finishes|].
  intros b _. discriminate.
Qed.

Lemma index0_finishes {A} (s : list A) : finishes (index0 s).
Proof. destruct s; discriminate. Qed.

Lemma make_finishes (n : Z) : finishes (make n).
Proof. unfold finishes, make. destruct (_ && _); discriminate. Qed.

Lemma Uint32_finishes (b : list byte) : finishes (Uint32 b).
Proof. destruct b as [|? [|? [|? [|? ?]]]]; discriminate. Qed.

Lemma key_byte_finishes (s : XorStream) : finishes (key_byte s).
Proof.
  unfold finishes, key_byte. destruct (_ =? _); [discriminate|].
  destruct (_ !! _); discriminate.
Qed.

Lemma XORKeyStream_loop_finishes (s : XorStream) (src : list byte) :
  forall i dst, finishes (XORKeyStream_loop s i src dst).
Proof.
  induction src as [|v src IH]; intros i dst; cbn [XORKeyStream_loop].
  - discriminate.
  - apply bind_finishes; [apply key_byte_finishes|]. intros k _. apply IH.
Qed.

Lemma XORKeyStream_finishes (s : XorStream) (dst src : list byte) :
  finishes (XORKeyStream s dst src).
Proof.
  unfold XORKeyStream. destruct (_ =? _); [discriminate|].
  destruct (_ <? _); [discriminate|].
  apply bind_finishes; [apply XORKeyStream_loop_finishes|].
  intros d _. discriminate.
Qed.

Ltac finish_step :=
  match goal with
  | |- finishes (Ret _) => discriminate
  | |- finishes (Panic _) => discriminate
  | |- finishes (bind _ _) => apply bind_finishes; [|intros ? ?]
  | |- finishes (slice_from _ _) => apply slice_from_finishes
  | |- finishes (slice_to _ _) => apply slice_to_finishes
  | |- finishes (split_at _ _) => apply split_at_finishes
  | |- finishes (index0 _) => apply index0_finishes
  | |- finishes (make _) => apply make_finishes
  | |- finishes (Uint32 _) => apply Uint32_finishes
  | |- finishes (XORKeyStream _ _ _) => apply XORKeyStream_finishes
  | |- finishes (match ?x with (_, _) => _ end) => destruct x
  | |- finishes (if ?c then _ else _) => destruct c
  | |- finishes (match ?x with Some _ => _ | None => _ end) => destruct x
  end.

Lemma loadContextWithXorEnc_finishes (p : list byte) :
  finishes (loadContextWithXorEnc p).
Proof. unfold loadContextWithXorEnc. repeat finish_step. Qed.

Lemma UnMarshall_finishes (h : NeoHeader) (p : list byte) :
  finishes (UnMarshall h p).
Proof.
  unfold UnMarshall.
  repeat (finish_step || apply loadContextWithXorEnc_finishes).
Qed.

Lemma Buffer_Read_pending (src : Buffer) (n : Z) :
  (length (fst (snd (io_Read src n))) + length (Bytes (fst (io_Read src n)))
   = length (Bytes src))%nat.
Proof.
  unfold io_Read, Buffer_Reader. destruct (Bytes src) as [|c l] eqn:E.
  - destruct (n =? 0); cbn [fst snd length]; rewrite E; reflexivity.
  - cbn [fst snd Bytes]. rewrite <- length_app, take_drop. reflexivity.
Qed.

Lemma fill_loop_pending (i : nat) :
  forall b : bufio_Reader Buffer, pending (fill_loop i b) = pending b.
Proof.
  induction i as [|i IH]; intros b; cbn [fill_loop]; [reflexivity|].
  pose proof (Buffer_Read_pending (b_rd b) (defaultBufSize - len (b_buf b))) as Hp.
  destruct (io_Read (b_rd b) (defaultBufSize - len (b_buf b))) as [src [data err]].
  cbn [fst snd] in Hp.
  assert (Hnew : pending {| b_rd := src; b_buf := b_buf b ++ data; b_err := b_err b |}
                 = pending b).
  { unfold pending. cbn [b_rd b_buf]. rewrite length_app. lia. }
  destruct err; [exact Hnew|].
  destruct (0 <? len data); [exact Hnew|]. rewrite IH. exact Hnew.
Qed.

Lemma fill_loop_progress {R} `{io_Reader R} (i : nat) :
  forall b : bufio_Reader R,
    b_err (fill_loop i b) <> None \/ b_buf (fill_loop i b) <> [].
Proof.
  induction i as [|i IH]; intros b; cbn [fill_loop].
  - left. discriminate.
  - destruct (io_Read (b_rd b) (defaultBufSize - len (b_buf b))) as [src [data err]].
    destruct err; [left; discriminate|].
    destruct (Z.ltb_spec 0 (len data)) as [Hpos|_]; [|apply IH].
    right. cbn [b_buf]. destruct data; [unfold len in Hpos; cbn in Hpos; lia|].
    intros E. apply app_eq_nil in E. destruct E as [_ E]. discriminate E.
Qed.

Lemma bufio_ReadByte_finishes {R} `{io_Reader R} (b : bufio_Reader R) :
  finishes (bufio_ReadByte b).
Proof.
  unfold bufio_ReadByte. destruct (b_buf b); [|discriminate].
  destruct (b_err b); [discriminate|].
  unfold fill. generalize maxConsecutiveEmptyReads. intros i.
  destruct (_ <=? _); [discriminate|]. cbn [bind].
  destruct (fill_loop_progress i b) as [He|Hb].
  - destruct (b_buf _); [|discriminate].
    destruct (b_err _); [discriminate | contradiction].
  - destruct (b_buf _); [contradiction | discriminate].
Qed.

Lemma bufio_ReadByte_pending (b b' : bufio_Reader Buffer) (v : byte) :
  bufio_ReadByte b = Ret (b', (v, None)) -> S (pending b') = pending b.
Proof.
  unfold bufio_ReadByte. destruct (b_buf b) as [|c tl] eqn:Eb.
  - destruct (b_err b) eqn:Ee.
    + cbn [readErr]. rewrite Ee. discriminate.
    + unfold fill. generalize maxConsecutiveEmptyReads. intros i.
      destruct (_ <=? _); [discriminate|]. cbn [bind].
      pose proof (fill_loop_pending i b) as Hp.
      destruct (b_buf (fill_loop _ b)) as [|c tl] eqn:Ef.
      * destruct (b_err (fill_loop _ b)) eqn:Ee'; [|discriminate].
        cbn [readErr]. rewrite Ee'. discriminate.
      * intros E. injection E as <- _. rewrite <- Hp. unfold pending.
        cbn [b_buf b_rd]. rewrite Ef. reflexivity.
  - intros E. injection E as <- _. unfold pending. cbn [b_buf b_rd].
    rewrite Eb. reflexivity.
Qed.

Lemma bufio_Read_pending (b : bufio_Reader Buffer) (n : Z) :
  (pending (fst (bufio_Read b n)) <= pending b)%nat.
Proof.
  assert (Hcopy : forall b0 : bufio_Reader Buffer,
            (pending {| b_rd := b_rd b0;
                        b_buf := drop (Z.to_nat (Z.min n (len (b_buf b0)))) (b_buf b0);
                        b_err := b_err b0 |} <= pending b0)%nat).
  { intros b0. unfold pending. cbn [b_rd b_buf]. rewrite length_drop. lia. }
  unfold bufio_Read. destruct (n =? 0).
  - destruct (0 <? len (b_buf b)); cbn [fst readErr]; unfold pending; cbn; lia.
  - destruct (b_buf b) as [|c tl] eqn:Eb.
    + destruct (b_err b); [cbn; unfold pending; cbn; rewrite Eb; lia|].
      destruct (defaultBufSize <=? n).
      * pose proof (Buffer_Read_pending (b_rd b) n) as Hp.
        destruct (io_Read (b_rd b) n) as [src [data err]].
        cbn [fst snd] in *. unfold pending. cbn [b_rd b_buf length]. lia.
      * pose proof (Buffer_Read_pending (b_rd b) defaultBufSize) as Hp.
        destruct (io_Read (b_rd b) defaultBufSize) as [src [data err]].
        cbn [fst snd] in *. destruct (len data =? 0).
        -- cbn [fst readErr b_rd b_buf]. unfold pending. cbn [b_rd b_buf length]. lia.
        -- cbn [fst b_rd b_buf b_err].
           etransitivity; [apply (Hcopy {| b_rd := src; b_buf := data; b_err := err |})|].
           unfold pending. cbn [b_rd b_buf]. lia.
    + cbn [fst]. rewrite <- Eb. apply Hcopy.
Qed.

Lemma read_hdrLen_finishes (fuel : nat) :
  forall (b : bufio_Reader Buffer) (n_ hdrLen : Z),
    (pending b < fuel)%nat -> finishes (read_hdrLen fuel b n_ hdrLen).
Proof.
  induction fuel as [|fuel IH]; intros b n_ hdrLen Hfuel; [lia|].
  cbn [read_hdrLen]. apply bind_finishes; [apply bufio_ReadByte_finishes|].
  intros [b' [v err]] Hread. destruct err; [discriminate|].
  destruct (negb _); [discriminate|].
  apply IH. apply bufio_ReadByte_pending in Hread. lia.
Qed.

Lemma wrap_int_small (z : Z) : 0 <= z <= int_max -> wrap_int z = z.
Proof.
  intros Hz. unfold wrap_int. pose proof int_max_lt_uint_mod.
  rewrite wrap_uint_small by lia. now apply int_of_uint_small.
Qed.

Lemma XORKeyStream_loop_length (s : XorStream) (src : list byte) :
  forall i dst d,
    XORKeyStream_loop s i src dst = Ret d -> length d = length dst.
Proof.
  induction src as [|v src IH]; intros i dst d; cbn [XORKeyStream_loop].
  - intros E. now injection E as <-.
  - intros E. apply bind_Ret_inv in E. destruct E as (k & _ & E).
    apply IH in E. now rewrite length_insert in E.
Qed.

Lemma XORKeyStream_length (s s' : XorStream) (dst src d : list byte) :
  XORKeyStream s dst src = Ret (s', d) -> length d = length dst.
Proof.
  unfold XORKeyStream. destruct (_ =? _); [intros E; now injection E as _ <-|].
  destruct (_ <? _); [discriminate|].
  intros E. apply bind_Ret_inv in E. destruct E as (d' & Hloop & E).
  injection E as _ <-. now apply XORKeyStream_loop_length in Hloop.
Qed.

Lemma make_length (n : Z) (s : list byte) :
  make n = Ret s -> len s <= int_max.
Proof.
  unfold make. destruct (Z.leb_spec 0 n), (Z.leb_spec n int_max);
    cbn [andb]; try discriminate.
  intros E. injection E as <-. unfold len. rewrite length_replicate. lia.
Qed.

Lemma loadContextWithXorEnc_fits (p content rest : list byte) :
  loadContextWithXorEnc p = Ret (content, rest) -> len content <= int_max.
Proof.
  unfold loadContextWithXorEnc.
  destruct (decodeVUint p) as [keyLen surplus].
  intros E. apply bind_Ret_inv in E. destruct E as ([k s1] & _ & E).
  destruct (decodeVUint s1) as [contentLen s2].
  apply bind_Ret_inv in E. destruct E as ([sec s3] & _ & E).
  apply bind_Ret_inv in E. destruct E as (c0 & Hmake & E).
  apply bind_Ret_inv in E. destruct E as ([s' c1] & Hxor & E).
  injection E as <- _. apply make_length in Hmake.
  apply XORKeyStream_length in Hxor. unfold len in *. lia.
Qed.

Lemma UnMarshall_fits (h0 h : NeoHeader) (p : list byte) :
  UnMarshall h0 p = Ret (h, None) -> len (OriginalHeader h) <= int_max.
Proof.
  unfold UnMarshall. destruct (_ <=? _); [discriminate|].
  intros E. apply bind_Ret_inv in E. destruct E as (p4 & _ & E).
  destruct (decodeVUint p4) as [l p1]. destruct (negb _); [discriminate|].
  apply bind_Ret_inv in E. destruct E as (flag & _ & E).
  apply bind_Ret_inv in E. destruct E as (p2 & _ & E).
  destruct (negb _); [discriminate|].
  apply bind_Ret_inv in E. destruct E as (m & _ & E).
  apply bind_Ret_inv in E. destruct E as (p3 & _ & E).
  destruct (Byte.eqb _ _); [|discriminate].
  apply bind_Ret_inv in E. destruct E as ([content p5] & Hload & E).
  apply bind_Ret_inv in E. destruct E as (m' & _ & E).
  apply bind_Ret_inv in E. destruct E as (p6 & _ & E).
  destruct (Byte.eqb _ _); [|discriminate].
  apply bind_Ret_inv in E. destruct E as ([fn p7] & _ & E).
  apply bind_Ret_inv in E. destruct E as ([crc p8] & _ & E).
  apply bind_Ret_inv in E. destruct E as (c & _ & E).
  injection E as <-. cbn [OriginalHeader].
  now apply loadContextWithXorEnc_fits in Hload.
Qed.

(** With the header parsed and the replay over, or nothing asked for,
    Read returns at once. *)
Lemma Read_parsed_base (f : nat) (r : NeoReader Buffer) (p : list byte)
    (h : NeoHeader) :
  r_NeoHeader r = Some h ->
  len p = 0 \/ len (OriginalHeader h) <= r_n r ->
  exists res, NeoReader_Read_fuel (S f) r p = Ret res.
Proof.
  intros Hh Hcase. cbn [NeoReader_Read_fuel]. unfold Read_body.
  destruct (Z.eqb_spec (len p) 0) as [|Hp]; [eexists; reflexivity|].
  rewrite Hh. destruct (Z.ltb_spec (r_n r) (len (OriginalHeader h))); [lia|].
  destruct (bufio_Read (r_rd r) (len p)) as [b [data err]].
  eexists; reflexivity.
Qed.

Lemma Read_replay_finishes (f : nat) (r : NeoReader Buffer) (p : list byte)
    (h : NeoHeader) :
  r_NeoHeader r = Some h ->
  len (OriginalHeader h) <= int_max ->
  r_n r < len (OriginalHeader h) ->
  finishes (Read_replay (NeoReader_Read_fuel (S f)) r h p).
Proof.
  intros Hh Hfit Hlt. unfold Read_replay.
  apply bind_finishes; [apply slice_from_finishes|]. intros src Hsrc.
  unfold slice_from in Hsrc.
  destruct (Z.leb_spec 0 (r_n r)) as [Hn0|]; [|discriminate].
  destruct (Z.leb_spec (r_n r) (len (OriginalHeader h))); [|discriminate].
  cbn [andb] in Hsrc. injection Hsrc as Hsrc.
  assert (Hlsrc : len src = len (OriginalHeader h) - r_n r).
  { subst src. unfold len in *. rewrite length_drop. lia. }
  destruct (copy p src) as [p1 n] eqn:Ecopy. unfold copy in Ecopy.
  injection Ecopy as Hp1 Hn.
  assert (Hlp1 : len p1 = len p).
  { subst p1. unfold len. rewrite length_app, length_take, length_drop. lia. }
  assert (Hk : n = len p \/ n = len src) by (subst n; unfold len; lia).
  assert (Hkle : 0 <= n <= len src) by (subst n; unfold len; lia).
  cbn [r_n set_n]. rewrite wrap_int_small by lia.
  apply bind_finishes; [apply slice_from_finishes|]. intros sub Hsub.
  unfold slice_from in Hsub.
  destruct (Z.leb_spec 0 (r_n r + n)); [|discriminate].
  destruct (Z.leb_spec (r_n r + n) (len p1)); [|discriminate].
  cbn [andb] in Hsub. injection Hsub as Hsub.
  destruct (Read_parsed_base f (set_n r (r_n r + n)) sub h) as [res Hres].
  - exact Hh.
  - cbn [r_n set_n]. subst sub. unfold len at 1. rewrite length_drop.
    unfold len in *. lia.
  - rewrite Hres. cbn [bind]. destruct res as [r' [[sub' n_] err_]].
    discriminate.
Qed.

Lemma Read_parsed_finishes (f : nat) (r : NeoReader Buffer) (p : list byte)
    (h : NeoHeader) :
  r_NeoHeader r = Some h ->
  len (OriginalHeader h) <= int_max ->
  finishes (NeoReader_Read_fuel (S (S f)) r p).
Proof.
  intros Hh Hfit.
  change (finishes (Read_body (NeoReader_Read_fuel (S f)) (S f) r p)).
  unfold Read_body.
  destruct (Z.eqb_spec (len p) 0) as [|Hp]; [discriminate|].
  rewrite Hh.
  destruct (Z.ltb_spec (r_n r) (len (OriginalHeader h))) as [Hlt|_].
  - now apply Read_replay_finishes.
  - destruct (bufio_Read (r_rd r) (len p)) as [b [data err]]. discriminate.
Qed.

(** Parsing the header ends, and the header it stores fits. *)
Lemma Read_parse_finishes (fuel : nat) (r : NeoReader Buffer) :
  (pending (r_rd r) < fuel)%nat -> finishes (Read_parse fuel r).
Proof.
  intros Hfuel. unfold Read_parse.
  apply bind_finishes; [apply slice_to_finishes|]. intros m _.
  pose proof (bufio_Read_pending (r_rd r) (len m)) as Hpend.
  destruct (bufio_Read (r_rd r) (len m)) as [b [data err]]. cbn [fst] in Hpend.
  generalize (fst (copy (r_buf (set_rd r b)) data)). intros buf1.
  destruct err; [discriminate|].
  apply bind_finishes; [apply slice_to_finishes|]. intros m' _.
  destruct (negb _); [discriminate|].
  apply bind_finishes.
  { apply read_hdrLen_finishes. cbn [r_rd set_rd set_r_buf]. lia. }
  intros [b2 [[err n_] hdrLen]] _.
  destruct err; [discriminate|].
  generalize (set_rd (set_r_buf (set_rd r b) buf1) b2). intros r3.
  apply bind_finishes;
    [destruct (_ <=? _); [apply slice_to_finishes | apply make_finishes]|].
  intros hdr _.
  generalize (fst (copy hdr NeoMagicNumber)). intros hdr1.
  apply bind_finishes; [apply slice_from_finishes|]. intros tl _.
  generalize (take (Z.to_nat (len NeoMagicNumber)) hdr1
              ++ fst (copy tl (encodeVUint (uint_of_int hdrLen)))).
  intros hdr2.
  apply bind_finishes; [apply slice_from_finishes|]. intros tl' _.
  destruct (bufio_Read _ _) as [b3 [data' err]].
  destruct err; [discriminate|].
  apply bind_finishes; [apply UnMarshall_finishes|]. intros [h e] _.
  destruct e; discriminate.
Qed.

Lemma Read_parse_header (fuel : nat) (r r' : NeoReader Buffer) :
  Read_parse fuel r = Ret (r', None) ->
  exists h, r_NeoHeader r' = Some h /\ len (OriginalHeader h) <= int_max.
Proof.
  unfold Read_parse. intros E.
  apply bind_Ret_inv in E. destruct E as (m & _ & E).
  destruct (bufio_Read (r_rd r) (len m)) as [b [data err]].
  cbv zeta in E. destruct err; [discriminate|].
  apply bind_Ret_inv in E. destruct E as (m' & _ & E).
  destruct (negb _); [discriminate|].
  apply bind_Ret_inv in E. destruct E as ([b2 [[err n_] hdrLen]] & _ & E).
  destruct err; [discriminate|].
  apply bind_Ret_inv in E. destruct E as (hdr & _ & E).
  apply bind_Ret_inv in E. destruct E as (tl & _ & E).
  apply bind_Ret_inv in E. destruct E as (tl' & _ & E).
  destruct (bufio_Read _ _) as [b3 [data' err]].
  destruct err; [discriminate|].
  apply bind_Ret_inv in E. destruct E as ([h e] & Hun & E).
  destruct e; [discriminate|]. injection E as <-.
  exists h. split; [reflexivity|]. now apply UnMarshall_fits in Hun.
Qed.

(** NeoReader.Read on a source held in memory always returns or
    panics: the fuel it is given is enough. *)
Lemma NeoReader_Read_finishes (r : NeoReader Buffer) (p : list byte) :
  header_fits r -> finishes (NeoReader_Read r p).
Proof.
  intros Hfits. unfold NeoReader_Read, header_fits in *.
  change (4 + length (b_buf (r_rd r)) + length (Bytes (b_rd (r_rd r))))%nat
    with (S (S (S (S (pending (r_rd r)))))).
  destruct (r_NeoHeader r) as [h|] eqn:Hh.
  { now apply (Read_parsed_finishes _ r p h). }
  set (f1 := S (S (S (pending (r_rd r))))).
  change (finishes (Read_body (NeoReader_Read_fuel f1) f1 r p)).
  unfold Read_body. destruct (len p =? 0); [discriminate|]. rewrite Hh.
  apply bind_finishes; [apply Read_parse_finishes; subst f1; lia|].
  intros [r' early] Hparse. destruct early as [[n err]|]; [discriminate|].
  apply Read_parse_header in Hparse. destruct Hparse as (h & Hh' & Hfit).
  subst f1. now apply (Read_parsed_finishes _ r' p h).
Qed.

(** The decoder made by NewNeoReader has no header yet. *)
Corollary NewNeoReader_Read_finishes (src p : list byte) :
  finishes (NeoReader_Read (NewNeoReader (mkBuffer src)) p).
Proof. apply NeoReader_Read_finishes. exact I. Qed.

(** ** The encoder fed byte by byte *)

(** While the buffer has room, each 1-byte Write is buffered whole. *)
Lemma write_chunks_buffers (l : list byte) :
  forall (x : NeoWriter Buffer) (rest : list (list byte)) (r1 r2 : rand_read),
    isNewHdrWritten x = false ->
    len (buf x) + len l <= originHdrLen x ->
    write_chunks x (one_byte_chunks l ++ rest) r1 r2
    = write_chunks (set_buf x (buf x ++ l)) rest r1 r2.
Proof.
  induction l as [|c l IH]; intros x rest r1 r2 Hnew Hroom.
  - cbn [one_byte_chunks map app]. rewrite app_nil_r. now destruct x.
  - cbn [one_byte_chunks map app write_chunks].
    fold (one_byte_chunks l). unfold NeoWriter_Write. rewrite Hnew.
    pose proof (len_nonneg l). pose proof (len_nonneg (buf x)).
    change (len (c :: l)) with (Z.of_nat (S (length l))) in Hroom.
    unfold len in *.
    destruct (Z.ltb_spec (Z.of_nat (length (buf x))) (originHdrLen x)); [|lia].
    destruct (Z.leb_spec (Z.of_nat (length [c])) (originHdrLen x));
      [|cbn [length] in *; lia].
    cbn [bind]. rewrite IH.
    + cbn [set_buf buf]. rewrite <- app_assoc. reflexivity.
    + exact Hnew.
    + cbn [set_buf buf originHdrLen]. rewrite length_app. cbn [length]. lia.
Qed.

(** With a leading-byte count of at least 2, the 1-byte Write that comes
    when the buffer is full flushes the header and then slices
    [p[originHdrLen:]] out of its single byte. *)
Lemma one_byte_writes_panic (hdrLen : Z) (filename payload : list byte)
    (crc32 : Z) (a0 a1 a2 a3 c0 c1 c2 c3 : byte) :
  2 <= hdrLen ->
  hdrLen < len payload ->
  hdrLen + len filename <= 2 ^ 62 ->
  encode_chunks hdrLen filename crc32 (one_byte_chunks payload)
    (RandKey a0 a1 a2 a3) (RandKey c0 c1 c2 c3)
  = Panic slice_bounds.
Proof.
  intros H2 Hlong Hfit. unfold encode_chunks.
  rewrite <- (take_drop (Z.to_nat hdrLen) payload).
  unfold one_byte_chunks. rewrite map_app. fold (one_byte_chunks (take (Z.to_nat hdrLen) payload)).
  assert (Htake : len (take (Z.to_nat hdrLen) payload) = hdrLen).
  { unfold len in *. rewrite length_take. lia. }
  rewrite write_chunks_buffers; [|reflexivity|cbn [NewNeoWriter buf originHdrLen]; change (len []) with 0; lia].
  destruct (drop (Z.to_nat hdrLen) payload) as [|c tl] eqn:Edrop.
  { apply (f_equal (@length byte)) in Edrop. rewrite length_drop in Edrop.
    cbn [length] in Edrop. unfold len in Hlong. lia. }
  cbn [map write_chunks]. unfold NeoWriter_Write, NewNeoWriter, set_buf.
  cbn [isNewHdrWritten buf originHdrLen hdr w app].
  destruct (Z.ltb_spec (len (take (Z.to_nat hdrLen) payload)) hdrLen); [lia|].
  unfold Write_flush, set_OriginalHeader.
  cbn [hdr buf originHdrLen w isNewHdrWritten Version OriginalHeaderEncMethod
       OriginalFilenameEncMethod OriginalFilename Crc32].
  rewrite Marshall_wire;
    [|reflexivity..|cbn [OriginalHeader OriginalFilename]; lia].
  cbn [bind]. unfold io_Write, Buffer_Writer, set_w, set_isNewHdrWritten.
  cbn [originHdrLen w].
  rewrite slice_from_panics by (change (len [c]) with 1; lia).
  reflexivity.
Qed.

Lemma one_byte_writes_panic_witness :
  encode_chunks 2 test_filename 0 (one_byte_chunks [x00; x01; x02])
    (RandKey x9c x01 xfe x33) (RandKey x00 xff x10 x20)
  = Panic slice_bounds.
Proof.
  apply (one_byte_writes_panic 2 test_filename [x00; x01; x02] 0).
  - lia.
  - vm_compute. reflexivity.
  - vm_compute. discriminate.
Defined.

(* ================================================================= *)
(** * Further properties of the code *)

(** ** Variable-length integers *)

(** X1: an encoded length is self-delimiting: whatever bytes follow it,
    decodeVUint returns the value and exactly those bytes. *)
Theorem decodeVUint_self_delimiting (u : Z) (rest : list byte) :
  0 <= u <= int_max ->
  decodeVUint (encodeVUint u ++ rest) = (u, rest).
Proof. apply decodeVUint_encodeVUint_app. Qed.

Lemma decodeVUint_self_delimiting_witness :
  decodeVUint (encodeVUint 300 ++ [x07; xff]) = (300, [x07; xff]).
Proof.
  apply (decodeVUint_self_delimiting 300 [x07; xff]).
  vm_compute. split; discriminate.
Defined.

(** X2: for a [uint] above the largest [int], encodeVUint writes the one
    byte u mod 255 and nothing else, and decodeVUint reads u mod 255. *)
Theorem encodeVUint_beyond_int (u : Z) :
  int_max < u < uint_mod ->
  encodeVUint u = [byte_of_Z (u mod 255)]
  /\ decodeVUint (encodeVUint u) = (u mod 255, []).
Proof.
  intros Hu.
  assert (Henc : encodeVUint u = [byte_of_Z (u mod 255)]).
  { unfold encodeVUint, int_of_uint.
    destruct (Z.leb_spec u int_max); [lia|].
    replace (u - uint_mod) with (- (uint_mod - u)) by lia.
    rewrite Z.quot_opp_l by lia.
    pose proof (Z.quot_pos (uint_mod - u) 255 ltac:(lia) ltac:(lia)).
    replace (Z.to_nat (- ((uint_mod - u) ÷ 255))) with 0%nat by lia.
    reflexivity. }
  split; [exact Henc|]. rewrite Henc.
  pose proof (Z.mod_pos_bound u 255 ltac:(lia)) as Hm.
  unfold decodeVUint.
  rewrite decodeVUint_loop_terminal by apply terminal_byte_not_sentinel.
  rewrite Z_of_byte_of_Z by lia.
  rewrite wrap_uint_small by (change uint_mod with 18446744073709551616; lia).
  reflexivity.
Qed.

Lemma encodeVUint_beyond_int_witness :
  encodeVUint (2 ^ 63 + 1000) = [byte_of_Z ((2 ^ 63 + 1000) mod 255)]
  /\ decodeVUint (encodeVUint (2 ^ 63 + 1000)) = ((2 ^ 63 + 1000) mod 255, []).
Proof.
  apply (encodeVUint_beyond_int (2 ^ 63 + 1000)).
  vm_compute. split; reflexivity.
Defined.

(** ** The XOR stream on any instance *)

Lemma XORKeyStream_loop_one_byte (s : XorStream) (kb : byte) (src : list byte) :
  key_byte s = Ret kb ->
  forall (pre mid post : list byte),
    length mid = length src ->
    XORKeyStream_loop s (length pre) src (pre ++ mid ++ post)
    = Ret (pre ++ map (fun v => byte_xor v kb) src ++ post).
Proof.
  intros Hkb. induction src as [|v src IH]; intros pre mid post Hlen.
  - destruct mid; [reflexivity | discriminate].
  - destruct mid as [|d mid]; [discriminate|].
    cbn [XORKeyStream_loop]. rewrite Hkb. cbn [bind].
    replace (<[length pre := byte_xor v kb]> (pre ++ (d :: mid) ++ post))
      with ((pre ++ [byte_xor v kb]) ++ mid ++ post).
    + replace (S (length pre)) with (length (pre ++ [byte_xor v kb]))
        by (rewrite length_app; cbn [length]; lia).
      rewrite IH by (cbn [length] in Hlen; lia).
      rewrite <- app_assoc. reflexivity.
    + rewrite insert_app_r_alt by lia. rewrite Nat.sub_diag.
      rewrite <- app_assoc. reflexivity.
Qed.

(** X3: on any stream with a non-empty key, one call XORs every source
    byte with the same key byte [key[idx mod len(key)]], keeps the bytes
    of [dst] beyond [len(src)], and leaves the stream as it was, so that
    later calls use that key byte again. *)
Theorem XORKeyStream_one_key_byte (s : XorStream) (dst src : list byte) :
  key s <> [] ->
  0 <= idx s ->
  (length src <= length dst)%nat ->
  exists kb,
    key s !! Z.to_nat (idx s mod len (key s)) = Some kb
    /\ XORKeyStream s dst src
       = Ret (s, map (fun v => byte_xor v kb) src ++ drop (length src) dst).
Proof.
  intros Hkey Hidx Hlen.
  assert (Hk : 0 < len (key s)).
  { destruct (key s); [contradiction|]. unfold len. cbn [length]. lia. }
  pose proof (Z.mod_pos_bound (idx s) (len (key s)) Hk) as Hm.
  destruct (key s !! Z.to_nat (idx s mod len (key s))) as [kb|] eqn:Ekb.
  2: { apply lookup_ge_None in Ekb. unfold len in *. lia. }
  exists kb. split; [reflexivity|].
  assert (Hkb : key_byte s = Ret kb).
  { unfold key_byte. destruct (Z.eqb_spec (len (key s)) 0); [lia|].
    now rewrite Ekb. }
  unfold XORKeyStream.
  destruct (Z.eqb_spec (len src) 0) as [E|E].
  - destruct src; [|unfold len in E; cbn [length] in E; lia]. reflexivity.
  - destruct (Z.ltb_spec (len dst) (len src)) as [Hlt|_];
      [unfold len in Hlt; lia|].
    rewrite <- (take_drop (length src) dst) at 1.
    pose proof (XORKeyStream_loop_one_byte s kb src Hkb []
                  (take (length src) dst) (drop (length src) dst)) as Hloop.
    cbn [length app] in Hloop. rewrite Hloop by (rewrite length_take; lia).
    reflexivity.
Qed.

Lemma XORKeyStream_one_key_byte_witness :
  exists kb,
    key {| idx := 5; key := [x0a; x0b; x0c] |}
      !! Z.to_nat (idx {| idx := 5; key := [x0a; x0b; x0c] |}
                   mod len (key {| idx := 5; key := [x0a; x0b; x0c] |}))
    = Some kb
    /\ XORKeyStream {| idx := 5; key := [x0a; x0b; x0c] |}
         [x00; x00; x00] [x01; x02]
       = Ret ({| idx := 5; key := [x0a; x0b; x0c] |},
              map (fun v => byte_xor v kb) [x01; x02]
              ++ drop (length [x01; x02]) [x00; x00; x00]).
Proof.
  apply (XORKeyStream_one_key_byte {| idx := 5; key := [x0a; x0b; x0c] |}
           [x00; x00; x00] [x01; x02]).
  - discriminate.
  - cbn. lia.
  - cbn. lia.
Defined.

(** X4: with an empty key, XORKeyStream panics on a non-empty source
    (the index [s.idx % 0]) and does nothing on an empty one. *)
Theorem XORKeyStream_empty_key (i : Z) (dst src : list byte) :
  (length src <= length dst)%nat ->
  XORKeyStream {| idx := i; key := [] |} dst src
  = match src with
    | [] => Ret ({| idx := i; key := [] |}, dst)
    | _ :: _ => Panic divide_by_zero
    end.
Proof.
  intros Hlen. unfold XORKeyStream. destruct src as [|v src]; [reflexivity|].
  destruct (Z.eqb_spec (len (v :: src)) 0) as [E|_];
    [unfold len in E; cbn [length] in E; lia|].
  destruct (Z.ltb_spec (len dst) (len (v :: src))); [unfold len in *; lia|].
  reflexivity.
Qed.

Lemma XORKeyStream_empty_key_witness :
  XORKeyStream {| idx := 0; key := [] |} [x00; x00] [x41]
  = Panic divide_by_zero.
Proof.
  apply (XORKeyStream_empty_key 0 [x00; x00] [x41]). cbn. lia.
Defined.

(** ** Obfuscated blocks *)

Lemma len_block_body (k0 : byte) (ks content : list byte) :
  len (block_body k0 ks content)
  = len (encodeVUint (len (k0 :: ks))) + len (k0 :: ks)
    + len (encodeVUint (len content)) + len content.
Proof.
  unfold block_body. rewrite !len_app. unfold len at 6.
  rewrite length_map. fold (len content). lia.
Qed.

Lemma writeContentWithXorEnc_any_key (buf content : list byte) (k0 : byte)
    (ks : list byte) :
  len (k0 :: ks) <= int_max ->
  len content <= int_max ->
  writeContentWithXorEnc buf content (k0 :: ks)
  = Ret (buf ++ XorEnc :: block_body k0 ks content).
Proof.
  intros Hk Hc. unfold writeContentWithXorEnc, block_body.
  pose proof (len_nonneg content).
  rewrite make_ok by lia. cbn [bind].
  rewrite XORKeyStream_fresh by (rewrite length_replicate; unfold len; lia).
  cbn [bind]. rewrite drop_ge by (rewrite length_replicate; unfold len; lia).
  rewrite app_nil_r. rewrite (uint_of_len content), (uint_of_len (k0 :: ks))
    by assumption.
  rewrite <- !app_assoc. reflexivity.
Qed.

Lemma loadContextWithXorEnc_any_key (k0 : byte) (ks content rest : list byte) :
  len (k0 :: ks) <= int_max ->
  len content <= int_max ->
  loadContextWithXorEnc (block_body k0 ks content ++ rest)
  = Ret (content, rest).
Proof.
  intros Hk Hc. unfold loadContextWithXorEnc, block_body.
  pose proof (len_nonneg content). pose proof (len_nonneg (k0 :: ks)).
  rewrite <- !app_assoc.
  rewrite decodeVUint_encodeVUint_app by lia.
  rewrite int_of_uint_small by assumption.
  rewrite split_at_app by reflexivity. cbn [bind].
  rewrite decodeVUint_encodeVUint_app by lia.
  rewrite int_of_uint_small by assumption.
  rewrite split_at_app by (unfold len; now rewrite length_map).
  cbn [bind]. rewrite make_ok by lia. cbn [bind].
  rewrite XORKeyStream_fresh
    by (rewrite length_replicate, length_map; unfold len; lia).
  cbn [bind].
  rewrite drop_ge by (rewrite length_replicate, length_map; unfold len; lia).
  rewrite app_nil_r, map_map. f_equal. f_equal.
  rewrite <- (map_id content) at 2.
  apply map_ext. intros a. apply byte_xor_involutive.
Qed.

(** X5: for every key of at least one byte and every content,
    writeContentWithXorEnc appends the tag and a block from which
    loadContextWithXorEnc recovers the content, leaving the bytes that
    follow the block untouched. *)
Theorem block_roundtrip (buf content rest : list byte) (k0 : byte)
    (ks : list byte) :
  len (k0 :: ks) <= int_max ->
  len content <= int_max ->
  exists blk,
    writeContentWithXorEnc buf content (k0 :: ks) = Ret (buf ++ XorEnc :: blk)
    /\ loadContextWithXorEnc (blk ++ rest) = Ret (content, rest).
Proof.
  intros Hk Hc. exists (block_body k0 ks content). split.
  - now apply writeContentWithXorEnc_any_key.
  - now apply loadContextWithXorEnc_any_key.
Qed.

Lemma block_roundtrip_witness :
  exists blk,
    writeContentWithXorEnc [x01] [x52; x61; x72] (x5a :: [x10])
    = Ret ([x01] ++ XorEnc :: blk)
    /\ loadContextWithXorEnc (blk ++ [xaa; xbb]) = Ret ([x52; x61; x72], [xaa; xbb]).
Proof.
  apply (block_roundtrip [x01] [x52; x61; x72] [xaa; xbb] x5a [x10]).
  - vm_compute. discriminate.
  - vm_compute. discriminate.
Defined.

(** ** What UnMarshall accepts and rejects *)

Lemma framed_longer_than_magic (m4 body : list byte) :
  length m4 = 4%nat -> body <> [] ->
  (len (m4 ++ encodeVUint (len body) ++ body) <=? 4) = false.
Proof.
  intros Hm Hb. apply Z.leb_gt. rewrite !len_app.
  pose proof (len_nonneg (encodeVUint (len body))).
  destruct body; [contradiction|]. unfold len in *. cbn [length]. lia.
Qed.

(** The first steps of UnMarshall on four bytes, a length and that many
    bytes. *)
Ltac unmarshall_frame Hm Hb Hfit :=
  unfold UnMarshall;
  rewrite framed_longer_than_magic by assumption;
  rewrite slice_from_app by (unfold len; rewrite Hm; reflexivity);
  cbn [bind];
  rewrite decodeVUint_encodeVUint_app by (split; [apply len_nonneg | exact Hfit]);
  rewrite uint_of_len by exact Hfit;
  rewrite Z.eqb_refl; cbn [negb].

(** X6: UnMarshall accepts every well-formed header, not only those that
    Marshall writes: the first four bytes are not looked at, the high
    four bits of the flags byte are ignored, the keys may have any length
    of at least one byte, and bytes after the checksum inside the declared
    length are ignored.  The fields come back as they were stored. *)
Theorem UnMarshall_accepts (h0 : NeoHeader) (m4 : list byte) (flag a0 : byte)
    (aks oh : list byte) (c0 : byte) (cks fn : list byte) (crc : Z)
    (junk : list byte) :
  length m4 = 4%nat ->
  byte_and flag FlagVersion = VersionV1 ->
  0 <= crc < 2 ^ 32 ->
  len (header_body flag a0 aks oh c0 cks fn crc junk) <= int_max ->
  UnMarshall h0
    (m4 ++ encodeVUint (len (header_body flag a0 aks oh c0 cks fn crc junk))
        ++ header_body flag a0 aks oh c0 cks fn crc junk)
  = Ret ({| Version := VersionV1;
            OriginalHeaderEncMethod := XorEnc;
            OriginalHeader := oh;
            OriginalFilenameEncMethod := XorEnc;
            OriginalFilename := fn;
            Crc32 := crc |}, None).
Proof.
  intros Hm Hflag Hcrc Hfit.
  assert (Hb : header_body flag a0 aks oh c0 cks fn crc junk <> [])
    by discriminate.
  assert (Hparts : len (a0 :: aks) <= int_max /\ len oh <= int_max
                   /\ len (c0 :: cks) <= int_max /\ len fn <= int_max).
  { unfold header_body in Hfit.
    change (flag :: XorEnc :: ?l) with ([flag; XorEnc] ++ l) in Hfit.
    change (XorEnc :: ?l) with ([XorEnc] ++ l) in Hfit at 2.
    rewrite !len_app, !len_block_body in Hfit.
    pose proof (len_nonneg (encodeVUint (len (a0 :: aks)))).
    pose proof (len_nonneg (encodeVUint (len oh))).
    pose proof (len_nonneg (encodeVUint (len (c0 :: cks)))).
    pose proof (len_nonneg (encodeVUint (len fn))).
    pose proof (len_nonneg (a0 :: aks)). pose proof (len_nonneg oh).
    pose proof (len_nonneg (c0 :: cks)). pose proof (len_nonneg fn).
    pose proof (len_nonneg (PutUint32 crc)). pose proof (len_nonneg junk).
    pose proof (len_nonneg [flag; XorEnc]). pose proof (len_nonneg [XorEnc]).
    lia. }
  destruct Hparts as (Hk1 & Hoh & Hk2 & Hfn).
  unmarshall_frame Hm Hb Hfit.
  unfold header_body. cbn [index0 bind].
  rewrite slice_from_1. cbn [bind Version]. rewrite Hflag.
  change (negb (Byte.eqb VersionV1 VersionV1)) with false. cbv iota.
  rewrite slice_from_1. cbn [bind OriginalHeaderEncMethod].
  change (Byte.eqb XorEnc XorEnc) with true. cbv iota.
  rewrite loadContextWithXorEnc_any_key by assumption. cbn [bind index0].
  rewrite slice_from_1. cbn [bind OriginalFilenameEncMethod].
  change (Byte.eqb XorEnc XorEnc) with true. cbv iota.
  rewrite loadContextWithXorEnc_any_key by assumption. cbn [bind].
  rewrite split_at_app by reflexivity. cbn [bind].
  rewrite Uint32_PutUint32 by assumption. cbn [bind].
  reflexivity.
Qed.

Lemma UnMarshall_accepts_witness :
  UnMarshall zero_NeoHeader
    ([x00; x00; x00; x00]
     ++ encodeVUint (len (header_body xf1 x07 [] [x41; x42] x09 [x0a; x0b]
                            [x2e] 77 [xde; xad]))
     ++ header_body xf1 x07 [] [x41; x42] x09 [x0a; x0b] [x2e] 77 [xde; xad])
  = Ret ({| Version := VersionV1;
            OriginalHeaderEncMethod := XorEnc;
            OriginalHeader := [x41; x42];
            OriginalFilenameEncMethod := XorEnc;
            OriginalFilename := [x2e];
            Crc32 := 77 |}, None).
Proof.
  apply (UnMarshall_accepts zero_NeoHeader [x00; x00; x00; x00] xf1 x07 []
           [x41; x42] x09 [x0a; x0b] [x2e] 77 [xde; xad]).
  - reflexivity.
  - reflexivity.
  - vm_compute. split; [discriminate | reflexivity].
  - vm_compute. discriminate.
Defined.

(** X7: when the low four bits of the flags byte are not 1, UnMarshall
    returns ErrBadVersion; the receiver has got the version read and
    nothing else. *)
Theorem UnMarshall_rejects_version (h0 : NeoHeader) (m4 : list byte)
    (flag : byte) (tl : list byte) :
  length m4 = 4%nat ->
  byte_and flag FlagVersion <> VersionV1 ->
  len (flag :: tl) <= int_max ->
  UnMarshall h0 (m4 ++ encodeVUint (len (flag :: tl)) ++ flag :: tl)
  = Ret ({| Version := byte_and flag FlagVersion;
            OriginalHeaderEncMethod := OriginalHeaderEncMethod h0;
            OriginalHeader := OriginalHeader h0;
            OriginalFilenameEncMethod := OriginalFilenameEncMethod h0;
            OriginalFilename := OriginalFilename h0;
            Crc32 := Crc32 h0 |}, Some ErrBadVersion).
Proof.
  intros Hm Hflag Hfit.
  assert (Hb : flag :: tl <> []) by discriminate.
  unmarshall_frame Hm Hb Hfit.
  cbn [index0 bind]. rewrite slice_from_1. cbn [bind Version].
  rewrite (byte_eqb_neq _ _ Hflag). reflexivity.
Qed.

Lemma UnMarshall_rejects_version_witness :
  UnMarshall zero_NeoHeader
    (NeoMagicNumber ++ encodeVUint (len (x12 :: [x01; x00])) ++ x12 :: [x01; x00])
  = Ret ({| Version := byte_and x12 FlagVersion;
            OriginalHeaderEncMethod := OriginalHeaderEncMethod zero_NeoHeader;
            OriginalHeader := OriginalHeader zero_NeoHeader;
            OriginalFilenameEncMethod := OriginalFilenameEncMethod zero_NeoHeader;
            OriginalFilename := OriginalFilename zero_NeoHeader;
            Crc32 := Crc32 zero_NeoHeader |}, Some ErrBadVersion).
Proof.
  apply (UnMarshall_rejects_version zero_NeoHeader NeoMagicNumber x12 [x01; x00]).
  - reflexivity.
  - vm_compute. discriminate.
  - vm_compute. discriminate.
Defined.

(** X8: a method tag other than XorEnc makes UnMarshall return
    ErrUnknownCryptoMethod, for the first block and, after a good first
    block, for the second; what was read before stays in the receiver. *)
Theorem UnMarshall_rejects_method (h0 : NeoHeader) (m4 : list byte)
    (flag m a0 : byte) (aks oh tl : list byte) :
  length m4 = 4%nat ->
  byte_and flag FlagVersion = VersionV1 ->
  m <> XorEnc ->
  len (flag :: XorEnc :: block_body a0 aks oh ++ m :: tl) <= int_max ->
  UnMarshall h0 (m4 ++ encodeVUint (len (flag :: m :: tl)) ++ flag :: m :: tl)
  = Ret ({| Version := VersionV1;
            OriginalHeaderEncMethod := m;
            OriginalHeader := OriginalHeader h0;
            OriginalFilenameEncMethod := OriginalFilenameEncMethod h0;
            OriginalFilename := OriginalFilename h0;
            Crc32 := Crc32 h0 |}, Some ErrUnknownCryptoMethod)
  /\ UnMarshall h0
       (m4 ++ encodeVUint (len (flag :: XorEnc :: block_body a0 aks oh ++ m :: tl))
           ++ flag :: XorEnc :: block_body a0 aks oh ++ m :: tl)
     = Ret ({| Version := VersionV1;
               OriginalHeaderEncMethod := XorEnc;
               OriginalHeader := oh;
               OriginalFilenameEncMethod := m;
               OriginalFilename := OriginalFilename h0;
               Crc32 := Crc32 h0 |}, Some ErrUnknownCryptoMethod).
Proof.
  intros Hm Hflag Hne Hfit.
  assert (Hlens : len (flag :: m :: tl) <= int_max
                  /\ len (a0 :: aks) <= int_max /\ len oh <= int_max).
  { change (flag :: XorEnc :: ?l) with ([flag; XorEnc] ++ l) in Hfit.
    rewrite !len_app, len_block_body in Hfit.
    pose proof (len_nonneg (encodeVUint (len (a0 :: aks)))).
    pose proof (len_nonneg (encodeVUint (len oh))).
    pose proof (len_nonneg (a0 :: aks)). pose proof (len_nonneg oh).
    change (len (flag :: m :: tl)) with (Z.of_nat (S (length (m :: tl)))).
    change (len [flag; XorEnc]) with 2 in Hfit. unfold len in *. lia. }
  destruct Hlens as (Hshort & Hk & Hoh).
  split.
  - assert (Hb : flag :: m :: tl <> []) by discriminate.
    unmarshall_frame Hm Hb Hshort.
    cbn [index0 bind]. rewrite slice_from_1. cbn [bind Version].
    rewrite Hflag. change (negb (Byte.eqb VersionV1 VersionV1)) with false.
    cbv iota. cbn [index0 bind]. rewrite slice_from_1.
    cbn [bind OriginalHeaderEncMethod]. rewrite (byte_eqb_neq _ _ Hne).
    reflexivity.
  - assert (Hb : flag :: XorEnc :: block_body a0 aks oh ++ m :: tl <> [])
      by discriminate.
    unmarshall_frame Hm Hb Hfit.
    cbn [index0 bind]. rewrite slice_from_1. cbn [bind Version].
    rewrite Hflag. change (negb (Byte.eqb VersionV1 VersionV1)) with false.
    cbv iota. cbn [index0 bind]. rewrite slice_from_1.
    cbn [bind OriginalHeaderEncMethod].
    change (Byte.eqb XorEnc XorEnc) with true. cbv iota.
    rewrite loadContextWithXorEnc_any_key by assumption. cbn [bind index0].
    rewrite slice_from_1. cbn [bind OriginalFilenameEncMethod].
    rewrite (byte_eqb_neq _ _ Hne). reflexivity.
Qed.

Lemma UnMarshall_rejects_method_witness :
  UnMarshall zero_NeoHeader
    (NeoMagicNumber ++ encodeVUint (len (x01 :: x02 :: [x00])) ++ x01 :: x02 :: [x00])
  = Ret ({| Version := VersionV1;
            OriginalHeaderEncMethod := x02;
            OriginalHeader := OriginalHeader zero_NeoHeader;
            OriginalFilenameEncMethod := OriginalFilenameEncMethod zero_NeoHeader;
            OriginalFilename := OriginalFilename zero_NeoHeader;
            Crc32 := Crc32 zero_NeoHeader |}, Some ErrUnknownCryptoMethod)
  /\ UnMarshall zero_NeoHeader
       (NeoMagicNumber
        ++ encodeVUint (len (x01 :: XorEnc :: block_body x07 [] [x41] ++ x02 :: [x00]))
        ++ x01 :: XorEnc :: block_body x07 [] [x41] ++ x02 :: [x00])
     = Ret ({| Version := VersionV1;
               OriginalHeaderEncMethod := XorEnc;
               OriginalHeader := [x41];
               OriginalFilenameEncMethod := x02;
               OriginalFilename := OriginalFilename zero_NeoHeader;
               Crc32 := Crc32 zero_NeoHeader |}, Some ErrUnknownCryptoMethod).
Proof.
  apply (UnMarshall_rejects_method zero_NeoHeader NeoMagicNumber x01 x02 x07
           [] [x41] [x00]).
  - reflexivity.
  - reflexivity.
  - discriminate.
  - vm_compute. discriminate.
Defined.

(** X9: the only errors UnMarshall returns are ErrNotNEOHeader,
    ErrBadVersion and ErrUnknownCryptoMethod; every other malformed
    input (a wrong length, a header cut short) ends in a panic. *)
Theorem UnMarshall_error_kinds (h h' : NeoHeader) (p : list byte) (e : error) :
  UnMarshall h p = Ret (h', Some e) ->
  e = ErrNotNEOHeader \/ e = ErrBadVersion \/ e = ErrUnknownCryptoMethod.
Proof.
  unfold UnMarshall. destruct (_ <=? _).
  { intros E. injection E as _ <-. now left. }
  intros E. apply bind_Ret_inv in E. destruct E as (p4 & _ & E).
  destruct (decodeVUint p4) as [l p1]. destruct (negb _); [discriminate|].
  apply bind_Ret_inv in E. destruct E as (flag & _ & E).
  apply bind_Ret_inv in E. destruct E as (p2 & _ & E).
  destruct (negb _). { injection E as _ <-. right. now left. }
  apply bind_Ret_inv in E. destruct E as (m & _ & E).
  apply bind_Ret_inv in E. destruct E as (p3 & _ & E).
  destruct (Byte.eqb _ _). 2: { injection E as _ <-. right. now right. }
  apply bind_Ret_inv in E. destruct E as ([content p5] & _ & E).
  apply bind_Ret_inv in E. destruct E as (m' & _ & E).
  apply bind_Ret_inv in E. destruct E as (p6 & _ & E).
  destruct (Byte.eqb _ _). 2: { injection E as _ <-. right. now right. }
  apply bind_Ret_inv in E. destruct E as ([fn p7] & _ & E).
  apply bind_Ret_inv in E. destruct E as ([crc p8] & _ & E).
  apply bind_Ret_inv in E. destruct E as (c & _ & E).
  discriminate E.
Qed.

Lemma UnMarshall_error_kinds_witness :
  ErrNotNEOHeader = ErrNotNEOHeader \/ ErrNotNEOHeader = ErrBadVersion
  \/ ErrNotNEOHeader = ErrUnknownCryptoMethod.
Proof.
  apply (UnMarshall_error_kinds zero_NeoHeader zero_NeoHeader [x00]
           ErrNotNEOHeader).
  reflexivity.
Defined.

(** ** Marshall *)

(** X10: Marshall never panics on a header that fits: it returns the
    bytes and no error exactly when the version is 1, both methods are
    XorEnc and the random source delivers both keys; in every other case
    it returns no bytes and an error. *)
Theorem Marshall_result (h : NeoHeader) (r1 r2 : rand_read) :
  len (OriginalHeader h) + len (OriginalFilename h) <= 2 ^ 62 ->
  exists b e,
    Marshall h r1 r2 = Ret (b, e)
    /\ (e = None <->
        Version h = VersionV1
        /\ OriginalHeaderEncMethod h = XorEnc
        /\ OriginalFilenameEncMethod h = XorEnc
        /\ (exists a0 a1 a2 a3, r1 = RandKey a0 a1 a2 a3)
        /\ (exists c0 c1 c2 c3, r2 = RandKey c0 c1 c2 c3))
    /\ (e <> None -> b = []).
Proof.
  intros Hfit.
  pose proof (len_nonneg (OriginalHeader h)) as H1.
  pose proof (len_nonneg (OriginalFilename h)) as H2.
  assert (Hmax : int_max = 9223372036854775807) by reflexivity.
  change (2 ^ 62) with 4611686018427387904 in Hfit.
  destruct (Byte.byte_eq_dec (Version h) VersionV1) as [Hv|Hv].
  2: { exists [], (Some ErrBadVersion). unfold Marshall.
       rewrite (byte_eqb_neq _ _ Hv). cbn [negb]. split; [reflexivity|].
       split; [|reflexivity]. split; [discriminate|]. intros (Hv' & _).
       contradiction. }
  destruct (Byte.byte_eq_dec (OriginalHeaderEncMethod h) XorEnc) as [Hm1|Hm1].
  2: { exists [], (Some ErrUnknownCryptoMethod). unfold Marshall.
       rewrite Hv, (byte_eqb_neq _ _ Hm1).
       change (negb (Byte.eqb VersionV1 VersionV1)) with false. cbv iota.
       split; [reflexivity|]. split; [|reflexivity].
       split; [discriminate|]. intros (_ & Hm' & _). contradiction. }
  destruct r1 as [a0 a1 a2 a3|e1].
  2: { exists [], (Some e1). unfold Marshall. rewrite Hv, Hm1.
       change (negb (Byte.eqb VersionV1 VersionV1)) with false.
       change (Byte.eqb XorEnc XorEnc) with true. cbv iota.
       split; [reflexivity|]. split; [|reflexivity].
       split; [discriminate|]. intros (_ & _ & _ & (? & ? & ? & ? & E) & _).
       discriminate E. }
  destruct (Byte.byte_eq_dec (OriginalFilenameEncMethod h) XorEnc) as [Hm2|Hm2].
  2: { exists [], (Some ErrUnknownCryptoMethod). unfold Marshall.
       rewrite Hv, Hm1, (byte_eqb_neq _ _ Hm2).
       change (negb (Byte.eqb VersionV1 VersionV1)) with false.
       change (Byte.eqb XorEnc XorEnc) with true. cbv iota.
       rewrite writeContentWithXorEnc_eq by lia. cbn [bind].
       split; [reflexivity|]. split; [|reflexivity].
       split; [discriminate|]. intros (_ & _ & Hm' & _). contradiction. }
  destruct r2 as [c0 c1 c2 c3|e2].
  2: { exists [], (Some e2). unfold Marshall. rewrite Hv, Hm1, Hm2.
       change (negb (Byte.eqb VersionV1 VersionV1)) with false.
       change (Byte.eqb XorEnc XorEnc) with true. cbv iota.
       rewrite writeContentWithXorEnc_eq by lia. cbn [bind].
       split; [reflexivity|]. split; [|reflexivity].
       split; [discriminate|]. intros (_ & _ & _ & _ & (? & ? & ? & ? & E)).
       discriminate E. }
  exists (wire h a0 a1 a2 a3 c0 c1 c2 c3), None.
  split; [apply Marshall_wire; assumption || (change (2 ^ 62) with 4611686018427387904; lia)|].
  split; [|congruence].
  split; [|reflexivity]. intros _. repeat split; try assumption; eauto 8.
Qed.

Lemma Marshall_result_witness :
  exists b e,
    Marshall test_header (RandErr EOF) key2 = Ret (b, e)
    /\ (e = None <->
        Version test_header = VersionV1
        /\ OriginalHeaderEncMethod test_header = XorEnc
        /\ OriginalFilenameEncMethod test_header = XorEnc
        /\ (exists a0 a1 a2 a3, RandErr EOF = RandKey a0 a1 a2 a3)
        /\ (exists c0 c1 c2 c3, key2 = RandKey c0 c1 c2 c3))
    /\ (e <> None -> b = []).
Proof.
  apply (Marshall_result test_header (RandErr EOF) key2).
  vm_compute. discriminate.
Defined.

(** X11: the bytes Marshall returns start with the magic number; the
    length that follows is the exact number of bytes after it, and that
    number is 19 plus the two field lengths plus one byte for every 255
    bytes of each field. *)
Theorem Marshall_framing (h : NeoHeader) (a0 a1 a2 a3 c0 c1 c2 c3 : byte) :
  Version h = VersionV1 ->
  OriginalHeaderEncMethod h = XorEnc ->
  OriginalFilenameEncMethod h = XorEnc ->
  len (OriginalHeader h) + len (OriginalFilename h) <= 2 ^ 62 ->
  exists body,
    Marshall h (RandKey a0 a1 a2 a3) (RandKey c0 c1 c2 c3)
    = Ret (NeoMagicNumber ++ encodeVUint (len body) ++ body, None)
    /\ decodeVUint (encodeVUint (len body) ++ body) = (len body, body)
    /\ len body = 19 + len (OriginalHeader h) + len (OriginalHeader h) / 255
                  + len (OriginalFilename h) + len (OriginalFilename h) / 255.
Proof.
  intros Hv Hm1 Hm2 Hfit.
  pose proof (Marshall_wire h a0 a1 a2 a3 c0 c1 c2 c3 Hv Hm1 Hm2 Hfit) as Hw.
  unfold wire in Hw. cbv zeta in Hw.
  eexists. split; [exact Hw|].
  pose proof (len_nonneg (OriginalHeader h)) as H1.
  pose proof (len_nonneg (OriginalFilename h)) as H2.
  assert (Hmax : int_max = 9223372036854775807) by reflexivity.
  change (2 ^ 62) with 4611686018427387904 in Hfit.
  pose proof (Z.mul_div_le (len (OriginalHeader h)) 255 ltac:(lia)) as Hd1.
  pose proof (Z.mul_div_le (len (OriginalFilename h)) 255 ltac:(lia)) as Hd2.
  assert (0 <= len (OriginalHeader h) / 255) by (apply Z.div_pos; lia).
  assert (0 <= len (OriginalFilename h) / 255) by (apply Z.div_pos; lia).
  match goal with |- context [encodeVUint (len ?b)] => set (body := b) end.
  assert (Hbody : len body
                  = 19 + len (OriginalHeader h) + len (OriginalHeader h) / 255
                    + len (OriginalFilename h) + len (OriginalFilename h) / 255).
  { subst body. rewrite !len_app.
    rewrite (len_xor_block a0 a1 a2 a3 (OriginalHeader h)) by lia.
    rewrite (len_xor_block c0 c1 c2 c3 (OriginalFilename h)) by lia.
    change (len [x01]) with 1. change (len (PutUint32 _)) with 4. lia. }
  split; [|exact Hbody].
  apply decodeVUint_encodeVUint_app. lia.
Qed.

Lemma Marshall_framing_witness :
  exists body,
    Marshall test_header (RandKey x9c x01 xfe x33) (RandKey x00 xff x10 x20)
    = Ret (NeoMagicNumber ++ encodeVUint (len body) ++ body, None)
    /\ decodeVUint (encodeVUint (len body) ++ body) = (len body, body)
    /\ len body = 19 + len (OriginalHeader test_header)
                  + len (OriginalHeader test_header) / 255
                  + len (OriginalFilename test_header)
                  + len (OriginalFilename test_header) / 255.
Proof.
  apply (Marshall_framing test_header).
  - reflexivity.
  - reflexivity.
  - reflexivity.
  - vm_compute. discriminate.
Defined.

(** ** The encoder *)

Lemma slice_from_ok {A} (s : list A) (k : Z) :
  0 <= k <= len s -> slice_from s k = Ret (drop (Z.to_nat k) s).
Proof.
  intros Hk. unfold slice_from.
  destruct (Z.leb_spec 0 k); [|lia]. destruct (Z.leb_spec k (len s)); [|lia].
  reflexivity.
Qed.

Lemma slice_to_ok {A} (s : list A) (k : Z) :
  0 <= k <= len s -> slice_to s k = Ret (take (Z.to_nat k) s).
Proof.
  intros Hk. unfold slice_to.
  destruct (Z.leb_spec 0 k); [|lia]. destruct (Z.leb_spec k (len s)); [|lia].
  reflexivity.
Qed.

(** The first Write of more than [hdrLen] bytes on a new encoder. *)
Lemma Write_first_long (s0 : list byte) (hdrLen : Z) (filename : list byte)
    (crc32 : Z) (p : list byte) (a0 a1 a2 a3 c0 c1 c2 c3 : byte) :
  0 <= hdrLen < len p ->
  len p <= int_max ->
  hdrLen + len filename <= 2 ^ 62 ->
  NeoWriter_Write (NewNeoWriter (mkBuffer s0) hdrLen filename crc32) p
    (RandKey a0 a1 a2 a3) (RandKey c0 c1 c2 c3)
  = Ret ({| originHdrLen := hdrLen;
            hdr := written_header hdrLen filename crc32 p;
            w := mkBuffer
                   (s0 ++ wire (written_header hdrLen filename crc32 p)
                            a0 a1 a2 a3 c0 c1 c2 c3
                       ++ drop (Z.to_nat hdrLen) p);
            buf := take (Z.to_nat hdrLen) p;
            isNewHdrWritten := true |}, (len p, None)).
Proof.
  intros HN Hp Hfit.
  assert (Htake : len (take (Z.to_nat hdrLen) p) = hdrLen)
    by (unfold len in *; rewrite length_take; lia).
  assert (Hflush : forall x0 : NeoWriter Buffer,
            x0 = {| originHdrLen := hdrLen;
                    hdr := hdr (NewNeoWriter (mkBuffer s0) hdrLen filename crc32);
                    w := mkBuffer s0;
                    buf := take (Z.to_nat hdrLen) p;
                    isNewHdrWritten := false |} ->
            Write_flush x0 p (RandKey a0 a1 a2 a3) (RandKey c0 c1 c2 c3)
            = Ret ({| originHdrLen := hdrLen;
                      hdr := written_header hdrLen filename crc32 p;
                      w := mkBuffer
                             (s0 ++ wire (written_header hdrLen filename crc32 p)
                                      a0 a1 a2 a3 c0 c1 c2 c3
                                 ++ drop (Z.to_nat hdrLen) p);
                      buf := take (Z.to_nat hdrLen) p;
                      isNewHdrWritten := true |}, (len p, None))).
  { intros x0 ->. unfold Write_flush, set_OriginalHeader, NewNeoWriter.
    cbn [hdr buf originHdrLen w isNewHdrWritten Version OriginalHeaderEncMethod
         OriginalFilenameEncMethod OriginalFilename Crc32].
    fold (written_header hdrLen filename crc32 p).
    rewrite Marshall_wire;
      [|reflexivity..|unfold written_header; cbn [OriginalHeader OriginalFilename]; lia].
    cbn [bind]. unfold io_Write, Buffer_Writer, set_w, set_isNewHdrWritten.
    cbn [originHdrLen w hdr buf isNewHdrWritten Bytes].
    rewrite slice_from_ok by lia. cbn [bind].
    rewrite <- app_assoc. do 2 f_equal. f_equal.
    assert (Hd : len (drop (Z.to_nat hdrLen) p) = len p - hdrLen)
      by (unfold len in *; rewrite length_drop; lia).
    rewrite Hd. replace (len p - hdrLen + hdrLen) with (len p) by lia.
    apply wrap_int_small. pose proof (len_nonneg p). lia. }
  unfold NeoWriter_Write. cbn [NewNeoWriter isNewHdrWritten buf originHdrLen].
  change (len []) with 0.
  destruct (Z.ltb_spec 0 hdrLen) as [Hpos|Hzero].
  - destruct (Z.leb_spec (len p) hdrLen); [lia|].
    rewrite slice_to_ok by lia. cbn [bind].
    apply Hflush. reflexivity.
  - assert (hdrLen = 0) by lia. subst hdrLen.
    apply Hflush. reflexivity.
Qed.

(** Once the header is written every Write goes to the sink. *)
Lemma write_chunks_passthrough (cs : list (list byte)) :
  forall (x : NeoWriter Buffer) (r1 r2 : rand_read),
    isNewHdrWritten x = true ->
    write_chunks x cs r1 r2
    = Ret (set_w x (mkBuffer (Bytes (w x) ++ concat cs)), None).
Proof.
  induction cs as [|c cs IH]; intros x r1 r2 Hnew.
  - cbn [write_chunks concat]. rewrite app_nil_r.
    destruct x as [n h [s] b i]. reflexivity.
  - cbn [write_chunks concat]. unfold NeoWriter_Write. rewrite Hnew.
    unfold io_Write, Buffer_Writer. cbn [bind].
    rewrite IH by exact Hnew. unfold set_w.
    cbn [w Bytes originHdrLen hdr buf isNewHdrWritten].
    now rewrite <- app_assoc.
Qed.

(** A single Write of more than [hdrLen] bytes: the container. *)
Lemma encode_once_long (hdrLen : Z) (filename : list byte) (crc32 : Z)
    (payload : list byte) (a0 a1 a2 a3 c0 c1 c2 c3 : byte) :
  0 <= hdrLen < len payload ->
  len payload <= int_max ->
  hdrLen + len filename <= 2 ^ 62 ->
  encode_once hdrLen filename crc32 payload
    (RandKey a0 a1 a2 a3) (RandKey c0 c1 c2 c3)
  = Ret (wire (written_header hdrLen filename crc32 payload)
           a0 a1 a2 a3 c0 c1 c2 c3
         ++ drop (Z.to_nat hdrLen) payload).
Proof.
  intros HN Hp Hfit. unfold encode_once.
  rewrite Write_first_long by assumption. reflexivity.
Qed.

(** X12: one Write of a payload longer than the leading-byte count puts
    on the sink the marshalled header, whose OriginalHeader is the first
    [hdrLen] bytes of the payload, followed by the rest of the payload. *)
Theorem encode_once_container (hdrLen : Z) (filename : list byte) (crc32 : Z)
    (payload : list byte) (a0 a1 a2 a3 c0 c1 c2 c3 : byte) :
  0 <= hdrLen < len payload ->
  len payload <= int_max ->
  hdrLen + len filename <= 2 ^ 62 ->
  encode_once hdrLen filename crc32 payload
    (RandKey a0 a1 a2 a3) (RandKey c0 c1 c2 c3)
  = Ret (wire (written_header hdrLen filename crc32 payload)
           a0 a1 a2 a3 c0 c1 c2 c3
         ++ drop (Z.to_nat hdrLen) payload).
Proof. exact (encode_once_long hdrLen filename crc32 payload a0 a1 a2 a3 c0 c1 c2 c3). Qed.

Lemma encode_once_container_witness :
  encode_once 2 test_filename 9 [x61; x62; x63; x64]
    (RandKey x9c x01 xfe x33) (RandKey x00 xff x10 x20)
  = Ret (wire (written_header 2 test_filename 9 [x61; x62; x63; x64])
           x9c x01 xfe x33 x00 xff x10 x20
         ++ drop (Z.to_nat 2) [x61; x62; x63; x64]).
Proof.
  apply (encode_once_container 2 test_filename 9 [x61; x62; x63; x64]).
  - vm_compute. split; [discriminate | reflexivity].
  - vm_compute. discriminate.
  - vm_compute. discriminate.
Defined.

(** Chunks given to a new encoder, the first longer than [hdrLen]: what
    reaches the sink. *)
Lemma write_chunks_long_first (hdrLen : Z) (filename : list byte)
    (crc32 : Z) (c1 : list byte) (cs : list (list byte))
    (a0 a1 a2 a3 c0 c1' c2 c3 : byte) :
  0 <= hdrLen < len c1 ->
  len c1 <= int_max ->
  hdrLen + len filename <= 2 ^ 62 ->
  exists x,
    write_chunks (NewNeoWriter (mkBuffer []) hdrLen filename crc32) (c1 :: cs)
      (RandKey a0 a1 a2 a3) (RandKey c0 c1' c2 c3) = Ret (x, None)
    /\ Bytes (w x)
       = wire (written_header hdrLen filename crc32 (c1 ++ concat cs))
           a0 a1 a2 a3 c0 c1' c2 c3
         ++ drop (Z.to_nat hdrLen) (c1 ++ concat cs).
Proof.
  intros HN Hp Hfit.
  assert (Hhdr : written_header hdrLen filename crc32 (c1 ++ concat cs)
                 = written_header hdrLen filename crc32 c1).
  { unfold written_header. f_equal. apply take_app_le. unfold len in *. lia. }
  cbn [write_chunks].
  rewrite Write_first_long by lia. cbn [bind].
  rewrite write_chunks_passthrough by reflexivity.
  eexists. split; [reflexivity|]. cbn [set_w w Bytes].
  rewrite Hhdr, <- !app_assoc. cbn [app].
  rewrite (drop_app_le c1) by (unfold len in *; lia). reflexivity.
Qed.

(** X13: when the first chunk is longer than the leading-byte count, the
    container does not depend on how the payload is cut into chunks: it
    is the one that a single Write of the whole payload gives. *)
Theorem chunks_after_long_first (hdrLen : Z) (filename : list byte)
    (crc32 : Z) (c1 : list byte) (cs : list (list byte))
    (a0 a1 a2 a3 c0 c1' c2 c3 : byte) :
  0 <= hdrLen < len c1 ->
  len (c1 ++ concat cs) <= int_max ->
  hdrLen + len filename <= 2 ^ 62 ->
  encode_chunks hdrLen filename crc32 (c1 :: cs)
    (RandKey a0 a1 a2 a3) (RandKey c0 c1' c2 c3)
  = encode_once hdrLen filename crc32 (c1 ++ concat cs)
      (RandKey a0 a1 a2 a3) (RandKey c0 c1' c2 c3).
Proof.
  intros HN Hp Hfit.
  pose proof (len_nonneg (concat cs)) as Hcs. rewrite len_app in Hp.
  assert (Hhdr : written_header hdrLen filename crc32 (c1 ++ concat cs)
                 = written_header hdrLen filename crc32 c1).
  { unfold written_header. f_equal. apply take_app_le. unfold len in *. lia. }
  rewrite encode_once_long by (rewrite ?len_app; lia).
  unfold encode_chunks. cbn [write_chunks].
  rewrite Write_first_long by lia. cbn [bind].
  rewrite write_chunks_passthrough by reflexivity. cbn [bind set_w w Bytes].
  rewrite Hhdr, <- !app_assoc. cbn [app].
  rewrite (drop_app_le c1) by (unfold len in *; lia). reflexivity.
Qed.

Lemma chunks_after_long_first_witness :
  encode_chunks 2 test_filename 9 ([x61; x62; x63] :: [[x64]; []; [x65; x66]])
    (RandKey x9c x01 xfe x33) (RandKey x00 xff x10 x20)
  = encode_once 2 test_filename 9
      ([x61; x62; x63] ++ concat [[x64]; []; [x65; x66]])
      (RandKey x9c x01 xfe x33) (RandKey x00 xff x10 x20).
Proof.
  apply (chunks_after_long_first 2 test_filename 9 [x61; x62; x63]
           [[x64]; []; [x65; x66]]).
  - vm_compute. split; [discriminate | reflexivity].
  - vm_compute. discriminate.
  - vm_compute. discriminate.
Defined.

Lemma write_chunks_short (chunks : list (list byte)) :
  forall (x : NeoWriter Buffer) (r1 r2 : rand_read),
    isNewHdrWritten x = false ->
    Forall (fun c => c <> []) chunks ->
    len (buf x) + len (concat chunks) <= originHdrLen x ->
    write_chunks x chunks r1 r2
    = Ret (set_buf x (buf x ++ concat chunks), None).
Proof.
  induction chunks as [|c cs IH]; intros x r1 r2 Hnew Hne Hroom.
  - cbn [write_chunks concat]. rewrite app_nil_r. now destruct x.
  - inversion Hne as [|c' cs' Hc Hcs]; subst.
    cbn [concat] in Hroom. rewrite len_app in Hroom.
    pose proof (len_nonneg (concat cs)). pose proof (len_nonneg (buf x)).
    assert (1 <= len c) by (destruct c; [contradiction|]; unfold len; cbn [length]; lia).
    cbn [write_chunks]. unfold NeoWriter_Write. rewrite Hnew.
    destruct (Z.ltb_spec (len (buf x)) (originHdrLen x)); [|lia].
    destruct (Z.leb_spec (len c) (originHdrLen x)); [|lia].
    cbn [bind]. rewrite IH.
    + cbn [set_buf buf concat]. now rewrite <- app_assoc.
    + exact Hnew.
    + exact Hcs.
    + cbn [set_buf buf originHdrLen]. rewrite len_app. lia.
Qed.

(** X14: a payload of at most [hdrLen] bytes, written in any non-empty
    chunks, never reaches the sink: every chunk is kept in the buffer, no
    header is written, and the encoder has no other operation that would
    write it.  The random source is not consulted. *)
Theorem short_payload_not_written (hdrLen : Z) (filename : list byte)
    (crc32 : Z) (chunks : list (list byte)) (r1 r2 : rand_read) :
  Forall (fun c => c <> []) chunks ->
  len (concat chunks) <= hdrLen ->
  encode_chunks hdrLen filename crc32 chunks r1 r2 = Ret []
  /\ exists x,
      write_chunks (NewNeoWriter (mkBuffer []) hdrLen filename crc32)
        chunks r1 r2 = Ret (x, None)
      /\ buf x = concat chunks /\ isNewHdrWritten x = false.
Proof.
  intros Hne Hshort.
  pose proof (write_chunks_short chunks
                (NewNeoWriter (mkBuffer []) hdrLen filename crc32) r1 r2
                eq_refl Hne) as Hw.
  cbn [NewNeoWriter buf originHdrLen] in Hw. change (len []) with 0 in Hw.
  specialize (Hw ltac:(lia)). split.
  - unfold encode_chunks. rewrite Hw. reflexivity.
  - eexists. split; [exact Hw|]. split; reflexivity.
Qed.

Lemma short_payload_not_written_witness :
  encode_chunks 8 test_filename 0 [[x61; x62; x63]; [x64; x65; x66; x67; x68]]
    key1 key2 = Ret []
  /\ exists x,
      write_chunks (NewNeoWriter (mkBuffer []) 8 test_filename 0)
        [[x61; x62; x63]; [x64; x65; x66; x67; x68]] key1 key2 = Ret (x, None)
      /\ buf x = concat [[x61; x62; x63]; [x64; x65; x66; x67; x68]]
      /\ isNewHdrWritten x = false.
Proof.
  apply (short_payload_not_written 8 test_filename 0
           [[x61; x62; x63]; [x64; x65; x66; x67; x68]] key1 key2).
  - repeat constructor; discriminate.
  - vm_compute. discriminate.
Defined.

(** X15: when the random source fails while the header is marshalled,
    Write returns 0 and that error, writes nothing to the sink and does
    not mark the header as written. *)
Theorem Write_random_source_error (s0 : list byte) (hdrLen : Z)
    (filename : list byte) (crc32 : Z) (p : list byte) (e : error)
    (r : rand_read) (a0 a1 a2 a3 : byte) :
  0 <= hdrLen < len p ->
  hdrLen + len filename <= 2 ^ 62 ->
  (exists x,
     NeoWriter_Write (NewNeoWriter (mkBuffer s0) hdrLen filename crc32) p
       (RandErr e) r = Ret (x, (0, Some e))
     /\ Bytes (w x) = s0 /\ isNewHdrWritten x = false)
  /\ (exists x,
       NeoWriter_Write (NewNeoWriter (mkBuffer s0) hdrLen filename crc32) p
         (RandKey a0 a1 a2 a3) (RandErr e) = Ret (x, (0, Some e))
       /\ Bytes (w x) = s0 /\ isNewHdrWritten x = false).
Proof.
  intros HN Hfit.
  assert (Htake : len (take (Z.to_nat hdrLen) p) = hdrLen)
    by (unfold len in *; rewrite length_take; lia).
  assert (Hmax : int_max = 9223372036854775807) by reflexivity.
  change (2 ^ 62) with 4611686018427387904 in Hfit.
  pose proof (len_nonneg filename).
  assert (Hflush : forall r1 r2,
            (r1 = RandErr e \/ (r1 = RandKey a0 a1 a2 a3 /\ r2 = RandErr e)) ->
            exists x,
              Write_flush {| originHdrLen := hdrLen;
                             hdr := hdr (NewNeoWriter (mkBuffer s0) hdrLen filename crc32);
                             w := mkBuffer s0;
                             buf := take (Z.to_nat hdrLen) p;
                             isNewHdrWritten := false |} p r1 r2
              = Ret (x, (0, Some e))
              /\ Bytes (w x) = s0 /\ isNewHdrWritten x = false).
  { intros r1 r2 Hr. unfold Write_flush, set_OriginalHeader, NewNeoWriter, Marshall.
    cbn [hdr buf originHdrLen w isNewHdrWritten Version OriginalHeaderEncMethod
         OriginalFilenameEncMethod OriginalFilename OriginalHeader Crc32].
    change (negb (Byte.eqb VersionV1 VersionV1)) with false.
    change (Byte.eqb XorEnc XorEnc) with true. cbv iota.
    destruct Hr as [->|[-> ->]].
    - cbn [bind]. eexists. split; [reflexivity|]. split; reflexivity.
    - rewrite writeContentWithXorEnc_eq by lia. cbn [bind].
      eexists. split; [reflexivity|]. split; reflexivity. }
  assert (Hwrite : forall r1 r2,
            (r1 = RandErr e \/ (r1 = RandKey a0 a1 a2 a3 /\ r2 = RandErr e)) ->
            exists x,
              NeoWriter_Write (NewNeoWriter (mkBuffer s0) hdrLen filename crc32)
                p r1 r2 = Ret (x, (0, Some e))
              /\ Bytes (w x) = s0 /\ isNewHdrWritten x = false).
  { intros r1 r2 Hr. unfold NeoWriter_Write.
    cbn [NewNeoWriter isNewHdrWritten buf originHdrLen]. change (len []) with 0.
    destruct (Z.ltb_spec 0 hdrLen) as [Hpos|Hzero].
    - destruct (Z.leb_spec (len p) hdrLen); [lia|].
      rewrite slice_to_ok by lia. cbn [bind]. now apply Hflush.
    - assert (hdrLen = 0) by lia. subst hdrLen. now apply Hflush. }
  split; apply Hwrite; auto.
Qed.

Lemma Write_random_source_error_witness :
  (exists x,
     NeoWriter_Write (NewNeoWriter (mkBuffer [x00]) 2 test_filename 9)
       [x61; x62; x63] (RandErr (ErrOther "entropy")) key2
     = Ret (x, (0, Some (ErrOther "entropy")))
     /\ Bytes (w x) = [x00] /\ isNewHdrWritten x = false)
  /\ (exists x,
       NeoWriter_Write (NewNeoWriter (mkBuffer [x00]) 2 test_filename 9)
         [x61; x62; x63] (RandKey x01 x02 x03 x04) (RandErr (ErrOther "entropy"))
       = Ret (x, (0, Some (ErrOther "entropy")))
       /\ Bytes (w x) = [x00] /\ isNewHdrWritten x = false).
Proof.
  apply (Write_random_source_error [x00] 2 test_filename 9 [x61; x62; x63]
           (ErrOther "entropy") key2 x01 x02 x03 x04).
  - vm_compute. split; [discriminate | reflexivity].
  - vm_compute. discriminate.
Defined.

(** ** The buffered reader over a source in memory *)

Lemma bufio_Read_buffered (b : bufio_Reader Buffer) (n : Z) :
  0 < n -> b_buf b <> [] ->
  bufio_Read b n
  = ({| b_rd := b_rd b;
        b_buf := drop (Z.to_nat (Z.min n (len (b_buf b)))) (b_buf b);
        b_err := b_err b |},
     (take (Z.to_nat (Z.min n (len (b_buf b)))) (b_buf b), None)).
Proof.
  intros Hn Hb. unfold bufio_Read.
  destruct (Z.eqb_spec n 0); [lia|].
  destruct (b_buf b); [contradiction | reflexivity].
Qed.

(** A Read of [n > 0] bytes: it delivers a non-empty prefix of what is
    unread, or io.EOF when nothing is; no error stays pending. *)
Lemma bufio_Read_unread (b : bufio_Reader Buffer) (n : Z) :
  0 < n -> b_err b = None ->
  exists b' data err,
    bufio_Read b n = (b', (data, err))
    /\ b_err b' = None
    /\ data ++ unread b' = unread b
    /\ len data <= n
    /\ (unread b = [] -> data = [] /\ err = Some EOF)
    /\ (unread b <> [] -> data <> [] /\ err = None).
Proof.
  intros Hn Herr.
  assert (Hcopy : forall b0 : bufio_Reader Buffer,
            b_buf b0 <> [] -> b_err b0 = None ->
            let k := Z.to_nat (Z.min n (len (b_buf b0))) in
            b_err {| b_rd := b_rd b0; b_buf := drop k (b_buf b0); b_err := b_err b0 |} = None
            /\ take k (b_buf b0)
               ++ unread {| b_rd := b_rd b0; b_buf := drop k (b_buf b0); b_err := b_err b0 |}
               = unread b0
            /\ len (take k (b_buf b0)) <= n
            /\ take k (b_buf b0) <> []).
  { intros b0 Hb0 He0 k. unfold unread. cbn [b_err b_buf b_rd].
    split; [exact He0|]. split; [now rewrite app_assoc, take_drop|].
    split; [unfold len; rewrite length_take; lia|].
    destruct (b_buf b0) as [|c l]; [contradiction|].
    assert (1 <= k)%nat by (subst k; unfold len; cbn [length]; lia).
    destruct k; [lia|]. discriminate. }
  destruct (b_buf b) as [|c l] eqn:Eb.
  - unfold bufio_Read. destruct (Z.eqb_spec n 0); [lia|]. rewrite Eb, Herr.
    assert (Hsrc : forall m, 0 < m ->
              io_Read (b_rd b) m
              = match Bytes (b_rd b) with
                | [] => (b_rd b, ([], Some EOF))
                | _ => (mkBuffer (drop (Z.to_nat (Z.min m (len (Bytes (b_rd b)))))
                                    (Bytes (b_rd b))),
                        (take (Z.to_nat (Z.min m (len (Bytes (b_rd b)))))
                           (Bytes (b_rd b)), None))
                end).
    { intros m Hm. unfold io_Read, Buffer_Reader.
      destruct (Bytes (b_rd b)); [|reflexivity].
      destruct (Z.eqb_spec m 0); [lia | reflexivity]. }
    unfold unread. rewrite Eb. cbn [app].
    destruct (Z.leb_spec defaultBufSize n) as [Hbig|Hsmall].
    + rewrite Hsrc by lia. destruct (Bytes (b_rd b)) as [|c l] eqn:Es.
      * do 3 eexists. split; [reflexivity|]. cbn [b_err b_buf b_rd app].
        rewrite Es. split; [reflexivity|]. split; [reflexivity|].
        split; [unfold len; cbn [length]; lia|].
        split; [intros _; split; reflexivity | intros Hc; contradiction].
      * do 3 eexists. split; [reflexivity|]. cbn [b_err b_buf b_rd app Bytes].
        split; [reflexivity|]. split; [apply take_drop|].
        split; [unfold len; rewrite length_take; lia|].
        split; [discriminate|]. intros _. split; [|reflexivity].
        assert (1 <= Z.to_nat (Z.min n (len (c :: l))))%nat
          by (unfold len; cbn [length]; lia).
        destruct (Z.to_nat _); [lia | discriminate].
    + rewrite Hsrc by reflexivity. destruct (Bytes (b_rd b)) as [|c l] eqn:Es.
      * cbn [len length Z.of_nat Z.eqb readErr b_err b_buf b_rd].
        do 3 eexists. split; [reflexivity|]. cbn [b_err b_buf b_rd app].
        rewrite Es. split; [reflexivity|]. split; [reflexivity|].
        split; [unfold len; cbn [length]; lia|].
        split; [intros _; split; reflexivity | intros Hc; contradiction].
      * set (k := Z.to_nat (Z.min defaultBufSize (len (c :: l)))).
        assert (Hk : (1 <= k)%nat) by (subst k; unfold len; cbn [length]; lia).
        assert (Hdata : take k (c :: l) <> [])
          by (destruct k; [lia | discriminate]).
        destruct (Z.eqb_spec (len (take k (c :: l))) 0) as [E0|_].
        { destruct (take k (c :: l)); [contradiction|].
          unfold len in E0; cbn [length] in E0; lia. }
        cbn [b_rd b_err].
        destruct (Hcopy {| b_rd := mkBuffer (drop k (c :: l));
                           b_buf := take k (c :: l); b_err := None |}
                    Hdata eq_refl) as (H1 & H2 & H3 & H4).
        cbn [b_rd b_buf b_err] in *.
        do 3 eexists. split; [reflexivity|].
        split; [exact H1|]. split.
        { etransitivity; [exact H2|]. unfold unread. cbn [b_buf b_rd Bytes].
          apply take_drop. }
        split; [exact H3|]. split; [discriminate|]. intros _. now split.
  - assert (Hb : b_buf b <> []) by (rewrite Eb; discriminate).
    rewrite bufio_Read_buffered by assumption.
    destruct (Hcopy b Hb Herr) as (H1 & H2 & H3 & H4).
    do 3 eexists. split; [reflexivity|].
    split; [exact H1|]. split; [exact H2|]. split; [exact H3|].
    split; [|intros _; now split].
    unfold unread. rewrite Eb. discriminate.
Qed.

(** The length loop on a buffer that starts with [k] bytes 0xFF and a
    terminal byte. *)
Lemma read_hdrLen_buffered (k : nat) :
  forall (fuel : nat) (b : bufio_Reader Buffer) (n_ acc : Z) (t : byte)
         (tail : list byte),
    b_buf b = replicate k xff ++ t :: tail ->
    t <> xff ->
    (k < fuel)%nat ->
    0 <= n_ -> n_ + Z.of_nat k + 1 <= int_max ->
    0 <= acc -> acc + 255 * Z.of_nat k + 255 <= int_max ->
    read_hdrLen fuel b n_ acc
    = Ret ({| b_rd := b_rd b; b_buf := tail; b_err := b_err b |},
           (None, n_ + Z.of_nat k + 1, acc + 255 * Z.of_nat k + Z_of_byte t)).
Proof.
  induction k as [|k IH]; intros fuel b n_ acc t tail Hb Ht Hfuel Hn Hnk Ha Hak;
    (destruct fuel as [|fuel]; [lia|]); cbn [read_hdrLen];
    unfold bufio_ReadByte; rewrite Hb; cbn [replicate app bind].
  - pose proof (Z_of_byte_range t).
    rewrite (byte_eqb_neq _ _ Ht). cbn [negb].
    rewrite !wrap_int_small by lia.
    match goal with
    | |- Ret (_, (_, ?a, ?c)) = Ret (_, (_, ?a', ?c')) =>
        replace a' with a by lia; replace c' with c by lia
    end. reflexivity.
  - rewrite byte_eqb_refl. cbn [negb].
    change (Z_of_byte xff) with 255. rewrite !wrap_int_small by lia.
    rewrite (IH fuel _ (n_ + 1) (acc + 255) t tail) by (cbn [b_buf]; auto; lia).
    cbn [b_rd b_err].
    match goal with
    | |- Ret (_, (_, ?a, ?c)) = Ret (_, (_, ?a', ?c')) =>
        replace a' with a by lia; replace c' with c by lia
    end. reflexivity.
Qed.

Lemma Buffer_Read_nonempty (s : list byte) (n : Z) :
  s <> [] ->
  io_Read (mkBuffer s) n
  = (mkBuffer (drop (Z.to_nat (Z.min n (len s))) s),
     (take (Z.to_nat (Z.min n (len s))) s, None)).
Proof.
  intros Hs. unfold io_Read, Buffer_Reader. cbn [Bytes].
  destruct s; [contradiction | reflexivity].
Qed.

(** The first Read of a new buffered reader, when what is asked for and
    the bytes [W] after it fit the buffer: they are all taken from the
    source at once. *)
Lemma bufio_Read_fresh_framed (hd W rest : list byte) :
  hd <> [] ->
  len hd + len W <= defaultBufSize ->
  len hd < defaultBufSize ->
  exists X Y,
    X ++ Y = rest
    /\ bufio_Read (bufio_NewReader (mkBuffer (hd ++ W ++ rest))) (len hd)
       = ({| b_rd := mkBuffer Y; b_buf := W ++ X; b_err := None |}, (hd, None)).
Proof.
  intros Hhd Hfit Hsmall.
  assert (Hpos : 0 < len hd)
    by (destruct hd; [contradiction|]; unfold len; cbn [length]; lia).
  set (s := hd ++ W ++ rest).
  set (k := Z.to_nat (Z.min defaultBufSize (len s))).
  assert (Hlen : len s = len hd + len W + len rest)
    by (subst s; rewrite !len_app; lia).
  pose proof (len_nonneg W). pose proof (len_nonneg rest).
  assert (Hk : (length hd + length W <= k)%nat) by (subst k; unfold len in *; lia).
  exists (take (k - length hd - length W) rest),
         (drop (k - length hd - length W) rest).
  split; [apply take_drop|].
  assert (Htake : take k s = hd ++ W ++ take (k - length hd - length W) rest).
  { subst s. rewrite take_app_ge by lia. f_equal.
    rewrite take_app_ge by lia. reflexivity. }
  assert (Hdrop : drop k s = drop (k - length hd - length W) rest).
  { subst s. rewrite drop_app_ge by lia. rewrite drop_app_ge by lia.
    reflexivity. }
  unfold bufio_Read, bufio_NewReader. cbn [b_buf b_err b_rd].
  destruct (Z.eqb_spec (len hd) 0); [lia|].
  destruct (Z.leb_spec defaultBufSize (len hd)); [lia|].
  rewrite Buffer_Read_nonempty
    by (subst s; destruct hd; [contradiction | discriminate]).
  fold k. rewrite Htake, Hdrop.
  destruct (Z.eqb_spec (len (hd ++ W ++ take (k - length hd - length W) rest)) 0)
    as [E0|_].
  { rewrite len_app in E0. pose proof (len_nonneg (W ++ take (k - length hd - length W) rest)). lia. }
  cbn [b_rd b_buf b_err].
  replace (Z.to_nat (Z.min (len hd)
             (len (hd ++ W ++ take (k - length hd - length W) rest))))
    with (length hd).
  2: { rewrite len_app.
       pose proof (len_nonneg (W ++ take (k - length hd - length W) rest)).
       unfold len in *. lia. }
  rewrite take_app_length, drop_app_length. reflexivity.
Qed.

Lemma split_buffer {A} (l : list A) (a b c : nat) :
  (a + b + c <= length l)%nat ->
  exists l1 l2 l3 l4,
    l = l1 ++ l2 ++ l3 ++ l4
    /\ length l1 = a /\ length l2 = b /\ length l3 = c.
Proof.
  intros Hl.
  exists (take a l), (take b (drop a l)), (take c (drop b (drop a l))),
         (drop c (drop b (drop a l))).
  split; [now rewrite !take_drop|].
  rewrite !length_take, !length_drop. lia.
Qed.

Lemma bytes_Equal_refl (a : list byte) : bytes_Equal a a = true.
Proof.
  induction a as [|x a IH]; [reflexivity|].
  cbn [bytes_Equal]. now rewrite byte_eqb_refl, IH.
Qed.

(** Parsing on a new decoder: when the magic number, the length and the
    declared bytes of the header fit the scratch buffer, exactly these
    bytes go to UnMarshall, and what follows them in the stream stays
    unread. *)
Lemma Read_parse_framed (fuel : nat) (r : NeoReader Buffer)
    (body rest : list byte) :
  r_rd r = bufio_NewReader
             (mkBuffer (NeoMagicNumber ++ encodeVUint (len body) ++ body ++ rest)) ->
  body <> [] ->
  4 + len (encodeVUint (len body)) + len body <= len (r_buf r) ->
  len (r_buf r) <= defaultBufSize ->
  (Z.to_nat (len body / 255) < fuel)%nat ->
  exists b' buf',
    unread b' = rest /\ b_err b' = None
    /\ Read_parse fuel r
       = (let* (h, err) :=
            UnMarshall zero_NeoHeader
              (NeoMagicNumber ++ encodeVUint (len body) ++ body) in
          match err with
          | Some _ =>
              Ret ({| r_n := r_n r; r_rd := b'; r_NeoHeader := Some h;
                      r_buf := buf' |}, Some (0, None))
          | None =>
              Ret ({| r_n := r_n r; r_rd := b'; r_NeoHeader := Some h;
                      r_buf := buf' |}, None)
          end).
Proof.
  intros Hrd Hbody Hspan Hbuf Hfuel.
  destruct r as [n0 rd0 hd0 rb]. cbn [r_rd r_buf r_n] in *. subst rd0.
  set (L := len body) in *. set (V := encodeVUint L) in *.
  assert (HL : 1 <= L)
    by (subst L; destruct body; [contradiction|]; unfold len; cbn [length]; lia).
  assert (Hmax : int_max = 9223372036854775807) by reflexivity.
  assert (Hdef : defaultBufSize = 4096) by reflexivity.
  pose proof (len_nonneg V) as HV0.
  assert (HVlen : len V = L / 255 + 1) by (subst V; apply len_encodeVUint; lia).
  assert (Hq : 0 <= L / 255) by (apply Z.div_pos; lia).
  assert (HVshape : V = replicate (Z.to_nat (L / 255)) xff ++ [byte_of_Z (L mod 255)])
    by (subst V; apply encodeVUint_small; lia).
  pose proof (Z.div_mod L 255 ltac:(lia)) as Hdm.
  pose proof (Z.mod_pos_bound L 255 ltac:(lia)) as Hmod.
  destruct (split_buffer rb 4 (length V) (length body)) as
    (r4 & rv & rbd & rt & Hrb & Hr4 & Hrv & Hrbd).
  { unfold len in *. lia. }
  destruct (bufio_Read_fresh_framed NeoMagicNumber (V ++ body) rest)
    as (X & Y & HXY & Hread).
  { discriminate. }
  { rewrite len_app. change (len NeoMagicNumber) with 4. subst L. lia. }
  { reflexivity. }
  rewrite <- app_assoc in Hread.
  exists {| b_rd := mkBuffer Y; b_buf := X; b_err := None |},
         ((NeoMagicNumber ++ V ++ body) ++ rt).
  split; [exact HXY|]. split; [reflexivity|].
  unfold Read_parse, set_rd, set_r_buf, set_NeoHeader.
  cbn [r_rd r_buf r_n r_NeoHeader].
  rewrite slice_to_ok by (change (len NeoMagicNumber) with 4; lia).
  cbn [bind].
  replace (len (take (Z.to_nat (len NeoMagicNumber)) rb)) with (len NeoMagicNumber).
  2: { unfold len. rewrite length_take. change (length NeoMagicNumber) with 4%nat.
       unfold len in *. lia. }
  rewrite Hread.
  rewrite copy_fits by (change (length NeoMagicNumber) with 4%nat; unfold len in *; lia).
  cbn [fst]. rewrite Hrb.
  rewrite (drop_app_length' r4) by (now rewrite Hr4).
  rewrite slice_to_app by reflexivity. cbn [bind].
  rewrite bytes_Equal_refl. cbn [negb].
  rewrite (read_hdrLen_buffered (Z.to_nat (L / 255)) fuel _ 0 0
             (byte_of_Z (L mod 255)) (body ++ X)).
  2: { cbn [b_buf]. rewrite HVshape, <- !app_assoc. reflexivity. }
  2: { apply terminal_byte_not_sentinel. }
  2: { exact Hfuel. }
  2-5: lia.
  cbn [bind b_rd b_err].
  rewrite Z_of_byte_of_Z by lia. rewrite Z2Nat.id by lia.
  replace (0 + 255 * (L / 255) + L mod 255) with L by lia.
  replace (0 + L / 255 + 1) with (len V) by lia.
  change (len NeoMagicNumber) with 4.
  assert (Hlenbuf : len (NeoMagicNumber ++ rv ++ rbd ++ rt) = len rb).
  { rewrite Hrb, !len_app. unfold len. rewrite Hr4. reflexivity. }
  rewrite Hlenbuf.
  rewrite !wrap_int_small by lia.
  destruct (Z.leb_spec (4 + len V + L) (len rb)) as [_|Hno]; [|lia].
  rewrite (app_assoc NeoMagicNumber rv), (app_assoc (NeoMagicNumber ++ rv) rbd).
  rewrite slice_to_app.
  2: { rewrite !len_app. change (len NeoMagicNumber) with 4. unfold len in *. lia. }
  cbn [bind]. rewrite <- !app_assoc.
  rewrite copy_fits
    by (rewrite !length_app; change (length NeoMagicNumber) with 4%nat; lia).
  cbn [fst]. rewrite drop_app_length.
  rewrite slice_from_app by reflexivity. cbn [bind].
  change (Z.to_nat 4) with (length NeoMagicNumber).
  rewrite take_app_length.
  unfold uint_of_int.
  rewrite wrap_uint_small by (change uint_mod with 18446744073709551616; lia).
  fold V.
  rewrite copy_fits by (rewrite length_app; lia). cbn [fst].
  rewrite (drop_app_length' rv) by (now rewrite Hrv).
  rewrite (app_assoc NeoMagicNumber V).
  rewrite slice_from_app
    by (rewrite len_app; change (len NeoMagicNumber) with 4; reflexivity).
  cbn [bind].
  rewrite bufio_Read_buffered.
  2: { unfold len. rewrite Hrbd. fold (len body). lia. }
  2: { cbn [b_buf]. destruct body; [contradiction | discriminate]. }
  cbn [b_buf b_rd b_err].
  replace (Z.to_nat (Z.min (len rbd) (len (body ++ X)))) with (length body).
  2: { rewrite len_app. pose proof (len_nonneg X). unfold len in *. lia. }
  rewrite take_app_length, drop_app_length.
  rewrite copy_fits by lia. cbn [fst].
  rewrite (drop_ge rbd) by lia. rewrite app_nil_r.
  rewrite take_app_length'
    by (rewrite length_app; change (length NeoMagicNumber) with 4%nat; unfold len in *; lia).
  destruct (Z.leb_spec 0 0) as [_|]; [|lia].
  rewrite copy_fits.
  2: { rewrite !length_app. change (length NeoMagicNumber) with 4%nat. lia. }
  cbn [fst].
  replace (drop (length ((NeoMagicNumber ++ V) ++ body))
             (NeoMagicNumber ++ rv ++ rbd ++ rt)) with rt.
  2: { rewrite (app_assoc NeoMagicNumber rv), (app_assoc (NeoMagicNumber ++ rv) rbd).
       rewrite drop_app_length'; [reflexivity|]. rewrite !length_app. lia. }
  rewrite <- !app_assoc. cbn [r_n r_rd r_buf].
  reflexivity.
Qed.

(** ** Reading a container back *)

(** A Read once the replay is over: the next bytes of the stream. *)
Lemma Read_passthrough (f : nat) (r : NeoReader Buffer) (p : list byte)
    (h : NeoHeader) :
  r_NeoHeader r = Some h ->
  len (OriginalHeader h) <= r_n r ->
  b_err (r_rd r) = None ->
  p <> [] ->
  exists b' data err,
    NeoReader_Read_fuel (S f) r p
    = Ret (set_rd r b', (data ++ drop (length data) p, len data, err))
    /\ b_err b' = None
    /\ data ++ unread b' = unread (r_rd r)
    /\ len data <= len p
    /\ (unread (r_rd r) = [] -> data = [] /\ err = Some EOF)
    /\ (unread (r_rd r) <> [] -> data <> [] /\ err = None).
Proof.
  intros Hh Hn Herr Hp.
  assert (Hlen : 0 < len p)
    by (destruct p; [contradiction|]; unfold len; cbn [length]; lia).
  destruct (bufio_Read_unread (r_rd r) (len p) Hlen Herr)
    as (b' & data & err & Hread & He & Hun & Hle & Hempty & Hfull).
  exists b', data, err. split; [|auto].
  cbn [NeoReader_Read_fuel]. unfold Read_body.
  destruct (Z.eqb_spec (len p) 0); [lia|]. rewrite Hh.
  destruct (Z.ltb_spec (r_n r) (len (OriginalHeader h))); [lia|].
  rewrite Hread. rewrite copy_fits by (unfold len in Hle; lia). reflexivity.
Qed.

(** The first Read after the header is parsed, into a buffer that has
    room for all the leading bytes: they are replayed and followed, in
    the same call, by the next bytes of the stream. *)
Lemma Read_parsed_first (f : nat) (r : NeoReader Buffer) (p : list byte)
    (h : NeoHeader) :
  r_NeoHeader r = Some h ->
  r_n r = 0 ->
  b_err (r_rd r) = None ->
  len (OriginalHeader h) <= len p ->
  len p <= int_max ->
  p <> [] ->
  exists b' data err,
    NeoReader_Read_fuel (S (S f)) r p
    = Ret (set_rd (set_n r (len (OriginalHeader h))) b',
           (OriginalHeader h ++ data
            ++ drop (length (OriginalHeader h) + length data) p,
            len (OriginalHeader h) + len data, err))
    /\ b_err b' = None
    /\ data ++ unread b' = unread (r_rd r)
    /\ len (OriginalHeader h) + len data <= len p
    /\ (err = None \/ (err = Some EOF /\ unread b' = [])).
Proof.
  intros Hh Hn Herr Hroom Hfit Hp.
  set (oh := OriginalHeader h) in *.
  pose proof (len_nonneg oh) as Hoh.
  assert (Hlen : 0 < len p)
    by (destruct p; [contradiction|]; unfold len; cbn [length]; lia).
  destruct (Z.ltb_spec 0 (len oh)) as [Hpos|Hzero].
  - (* replay *)
    change (NeoReader_Read_fuel (S (S f)) r p)
      with (Read_body (NeoReader_Read_fuel (S f)) (S f) r p).
    unfold Read_body. destruct (Z.eqb_spec (len p) 0); [lia|]. rewrite Hh.
    fold oh. rewrite Hn.
    destruct (Z.ltb_spec 0 (len oh)); [|lia].
    unfold Read_replay. fold oh. rewrite Hn.
    rewrite slice_from_ok by lia. cbn [bind]. change (Z.to_nat 0) with 0%nat.
    rewrite drop_0. rewrite copy_fits by (unfold len in *; lia).
    cbn [r_n set_n]. rewrite Z.add_0_l. rewrite wrap_int_small by lia.
    assert (Hp1 : len (oh ++ drop (length oh) p) = len p).
    { unfold len in *. rewrite length_app, length_drop. lia. }
    rewrite slice_from_ok by lia. cbn [bind].
    replace (Z.to_nat (len oh)) with (length oh) by (unfold len; lia).
    rewrite drop_app_length, take_app_length.
    set (sub := drop (length oh) p).
    set (r2 := set_n r (len oh)).
    destruct sub as [|c sub'] eqn:Esub.
    + (* the buffer is full after the replay *)
      exists (r_rd r), [], None.
      split.
      * cbn [NeoReader_Read_fuel]. unfold Read_body.
        change (len [] =? 0) with true. cbv iota. cbn [bind].
        rewrite wrap_int_small by lia.
        assert (Hd : drop (length oh + length (@nil byte)) p = [])
          by (apply drop_ge; subst sub;
              apply (f_equal (@length byte)) in Esub;
              rewrite length_drop in Esub; cbn [length] in *; lia).
        rewrite Hd. cbn [app len length]. rewrite Z.add_0_l, Z.add_0_r.
        subst r2. destruct r. reflexivity.
      * split; [exact Herr|]. split; [reflexivity|].
        split; [change (len []) with 0; lia|]. now left.
    + assert (Hsub : c :: sub' <> []) by discriminate.
      destruct (Read_passthrough f r2 (c :: sub') h)
        as (b' & data & err & Hread & He & Hun & Hle & Hempty & Hfull).
      { exact Hh. } { subst r2. cbn [r_n set_n]. fold oh. lia. }
      { exact Herr. } { exact Hsub. }
      exists b', data, err. split.
      * rewrite Hread. cbn [bind].
        assert (Hlsub : len (c :: sub') = len p - len oh).
        { rewrite <- Esub. subst sub. unfold len in *. rewrite length_drop. lia. }
        rewrite wrap_int_small by (pose proof (len_nonneg data); lia).
        rewrite <- Esub. subst sub. rewrite drop_drop.
        replace (len data + len oh) with (len oh + len data) by lia.
        reflexivity.
      * split; [exact He|]. split; [exact Hun|].
        assert (Hlsub : len (c :: sub') = len p - len oh).
        { rewrite <- Esub. subst sub. unfold len in *. rewrite length_drop. lia. }
        split; [lia|].
        destruct (unread (r_rd r2)) as [|u us] eqn:Eu.
        -- destruct (Hempty eq_refl) as [-> ->]. right. split; [reflexivity|].
           cbn [app] in Hun. exact Hun.
        -- destruct (Hfull ltac:(discriminate)) as [_ ->]. now left.
  - (* no leading bytes *)
    assert (Hoh0 : oh = [])
      by (destruct oh; [reflexivity|]; unfold len in *; cbn [length] in *; lia).
    destruct (Read_passthrough (S f) r p h Hh)
      as (b' & data & err & Hread & He & Hun & Hle & Hempty & Hfull);
      [fold oh; lia | exact Herr | exact Hp |].
    exists b', data, err. split.
    + rewrite Hread. rewrite Hoh0. cbn [app length len Z.of_nat Nat.add].
      rewrite Z.add_0_l. do 2 f_equal.
      destruct r; cbn [r_n] in Hn; subst; reflexivity.
    + split; [exact He|]. split; [exact Hun|].
      split; [rewrite Hoh0; change (len []) with 0; lia|].
      destruct (unread (r_rd r)) as [|u us] eqn:Eu.
      * destruct (Hempty eq_refl) as [-> ->]. right. split; [reflexivity|].
        cbn [app] in Hun. exact Hun.
      * destruct (Hfull ltac:(discriminate)) as [_ ->]. now left.
Qed.

Lemma NeoReader_Read_fuel_eq (r : NeoReader Buffer) (p : list byte) :
  NeoReader_Read r p
  = NeoReader_Read_fuel (S (S (S (S (pending (r_rd r)))))) r p.
Proof. reflexivity. Qed.

(** Reading on once the replay is over: with more requests than bytes
    left, read_all delivers all of them and ends with io.EOF. *)
Lemma read_all_passthrough (sizes : list Z) :
  forall (r : NeoReader Buffer) (acc : list byte) (h : NeoHeader),
    r_NeoHeader r = Some h ->
    len (OriginalHeader h) <= r_n r ->
    b_err (r_rd r) = None ->
    Forall (fun s => 1 <= s <= int_max) sizes ->
    (length (unread (r_rd r)) < length sizes)%nat ->
    exists r',
      read_all sizes r acc = Ret (r', (acc ++ unread (r_rd r), Some EOF))
      /\ r_NeoHeader r' = Some h.
Proof.
  induction sizes as [|s sizes IH]; intros r acc h Hh Hn Herr Hsizes Hmany.
  - cbn [length] in Hmany. lia.
  - inversion Hsizes as [|s' sizes' Hs Hrest]; subst.
    cbn [read_all]. rewrite make_ok by lia. cbn [bind].
    set (p := replicate (Z.to_nat s) x00).
    assert (Hp : p <> []).
    { subst p. destruct (Z.to_nat s) eqn:E; [lia | discriminate]. }
    rewrite NeoReader_Read_fuel_eq.
    destruct (Read_passthrough (S (S (S (pending (r_rd r))))) r p h
                Hh Hn Herr Hp)
      as (b' & data & err & Hread & He & Hun & Hle & Hempty & Hfull).
    rewrite Hread. cbn [bind].
    rewrite slice_to_app by reflexivity. cbn [bind].
    destruct (unread (r_rd r)) as [|u us] eqn:Eu.
    + destruct (Hempty eq_refl) as [-> ->].
      exists (set_rd r b'). split; [reflexivity | exact Hh].
    + destruct (Hfull ltac:(discriminate)) as [Hdata ->].
      destruct (IH (set_rd r b') (acc ++ data) h) as (r' & Hall & Hh').
      * exact Hh.
      * exact Hn.
      * exact He.
      * exact Hrest.
      * cbn [r_rd set_rd]. apply (f_equal (@length byte)) in Hun.
        rewrite length_app in Hun. cbn [length] in *.
        destruct data; [contradiction|]. cbn [length] in Hun. lia.
      * exists r'. split; [|exact Hh'].
        rewrite Hall. cbn [r_rd set_rd]. rewrite <- app_assoc, Hun.
        reflexivity.
Qed.

Lemma len_map {A B} (g : A -> B) (l : list A) : len (map g l) = len l.
Proof. unfold len. now rewrite length_map. Qed.

Lemma len_xor_block_ge (k0 k1 k2 k3 : byte) (content : list byte) :
  len content <= len (xor_block k0 k1 k2 k3 content).
Proof.
  unfold xor_block. rewrite !len_app, len_map.
  pose proof (len_nonneg [XorEnc]). pose proof (len_nonneg (encodeVUint 4)).
  pose proof (len_nonneg (key_of k0 k1 k2 k3)).
  pose proof (len_nonneg (encodeVUint (len content))). lia.
Qed.

(** Reading a marshalled header and what follows it to the end. *)
Lemma read_all_container (h : NeoHeader) (a0 a1 a2 a3 c0 c1 c2 c3 : byte)
    (rest : list byte) (s1 : Z) (sizes : list Z) :
  Version h = VersionV1 ->
  OriginalHeaderEncMethod h = XorEnc ->
  OriginalFilenameEncMethod h = XorEnc ->
  0 <= Crc32 h < 2 ^ 32 ->
  len (wire h a0 a1 a2 a3 c0 c1 c2 c3) <= 1024 ->
  len (OriginalHeader h) <= s1 ->
  Forall (fun s => 1 <= s <= int_max) (s1 :: sizes) ->
  (length rest < length sizes)%nat ->
  exists r',
    read_all (s1 :: sizes)
      (NewNeoReader (mkBuffer (wire h a0 a1 a2 a3 c0 c1 c2 c3 ++ rest))) []
    = Ret (r', (OriginalHeader h ++ rest, Some EOF))
    /\ r_NeoHeader r' = Some h.
Proof.
  intros Hv Hm1 Hm2 Hcrc Hspan Hs1 Hsizes Hmany.
  inversion Hsizes as [|s' sizes' Hs Hrest]; subst.
  pose proof (len_nonneg (OriginalHeader h)) as Hoh.
  pose proof (len_nonneg (OriginalFilename h)) as Hfn.
  assert (Hmax : int_max = 9223372036854775807) by reflexivity.
  (* the header *)
  pose proof Hspan as Hspan'. unfold wire in Hspan'. cbv zeta in Hspan'.
  set (body := [x01] ++ xor_block a0 a1 a2 a3 (OriginalHeader h)
               ++ xor_block c0 c1 c2 c3 (OriginalFilename h)
               ++ PutUint32 (Crc32 h)) in *.
  assert (Hwire : wire h a0 a1 a2 a3 c0 c1 c2 c3
                  = NeoMagicNumber ++ encodeVUint (len body) ++ body)
    by reflexivity.
  rewrite !len_app in Hspan'. change (len NeoMagicNumber) with 4 in Hspan'.
  pose proof (len_nonneg (encodeVUint (len body))) as HV.
  pose proof (len_nonneg body) as Hb0.
  assert (Hbody : body <> []) by discriminate.
  assert (Hsmall : len (OriginalHeader h) + len (OriginalFilename h) <= 2 ^ 62).
  { assert (len (OriginalHeader h) + len (OriginalFilename h) <= len body).
    { subst body. rewrite !len_app.
      pose proof (len_xor_block_ge a0 a1 a2 a3 (OriginalHeader h)).
      pose proof (len_xor_block_ge c0 c1 c2 c3 (OriginalFilename h)).
      pose proof (len_nonneg (PutUint32 (Crc32 h))).
      pose proof (len_nonneg [x01]). lia. }
    change (2 ^ 62) with 4611686018427387904. lia. }
  pose proof (UnMarshall_wire h zero_NeoHeader a0 a1 a2 a3 c0 c1 c2 c3
                Hv Hm1 Hm2 Hcrc Hsmall) as Hun.
  rewrite Hwire in Hun.
  (* the first Read *)
  cbn [read_all]. rewrite make_ok by lia. cbn [bind].
  set (p := replicate (Z.to_nat s1) x00).
  assert (Hp : p <> []).
  { subst p. destruct (Z.to_nat s1) eqn:E; [lia | discriminate]. }
  assert (Hlp : len p = s1)
    by (subst p; unfold len; rewrite length_replicate; lia).
  rewrite NeoReader_Read_fuel_eq.
  set (f := S (pending (r_rd (NewNeoReader
              (mkBuffer (wire h a0 a1 a2 a3 c0 c1 c2 c3 ++ rest)))))).
  change (NeoReader_Read_fuel (S (S (S f))) ?r p)
    with (Read_body (NeoReader_Read_fuel (S (S f))) (S (S f)) r p).
  unfold Read_body. destruct (Z.eqb_spec (len p) 0); [lia|].
  change (r_NeoHeader (NewNeoReader _)) with (@None NeoHeader). cbv iota.
  destruct (Read_parse_framed (S (S f))
              (NewNeoReader (mkBuffer (wire h a0 a1 a2 a3 c0 c1 c2 c3 ++ rest)))
              body rest) as (b1 & buf1 & Hun1 & He1 & Hparse).
  { rewrite Hwire, <- !app_assoc. reflexivity. }
  { exact Hbody. }
  { change (len (r_buf (NewNeoReader _))) with 1024. lia. }
  { change (len (r_buf (NewNeoReader _))) with 1024. discriminate. }
  { subst f. unfold pending. cbn [r_rd NewNeoReader bufio_NewReader b_buf b_rd Bytes length].
    rewrite Hwire, !length_app.
    assert (Z.to_nat (len body / 255) <= length body)%nat.
    { pose proof (Z.mul_div_le (len body) 255 ltac:(lia)).
      assert (0 <= len body / 255) by (apply Z.div_pos; lia).
      unfold len in *. lia. }
    lia. }
  rewrite Hparse, Hun. cbn [bind r_n NewNeoReader].
  set (r1 := {| r_n := 0; r_rd := b1; r_NeoHeader := Some h; r_buf := buf1 |}).
  destruct (Read_parsed_first f r1 p h)
    as (b2 & data & err & Hread & He2 & Hun2 & Hle & Herr).
  { reflexivity. } { reflexivity. } { exact He1. } { lia. } { lia. } { exact Hp. }
  rewrite Hread. cbn [bind].
  rewrite app_assoc.
  rewrite slice_to_app by (rewrite len_app; reflexivity).
  cbn [bind app]. cbn [r_rd r1] in Hun2. rewrite Hun1 in Hun2.
  destruct Herr as [->|[-> Hdone]].
  - destruct (read_all_passthrough sizes
                (set_rd (set_n r1 (len (OriginalHeader h))) b2)
                (OriginalHeader h ++ data) h) as (r' & Hall & Hh').
    + reflexivity.
    + cbn [r_n set_rd set_n]. lia.
    + exact He2.
    + exact Hrest.
    + cbn [r_rd set_rd]. apply (f_equal (@length byte)) in Hun2.
      rewrite length_app in Hun2. lia.
    + exists r'. split; [|exact Hh'].
      rewrite Hall. cbn [r_rd set_rd]. rewrite <- app_assoc, Hun2.
      reflexivity.
  - exists (set_rd (set_n r1 (len (OriginalHeader h))) b2).
    split; [|reflexivity].
    rewrite Hdone, app_nil_r in Hun2. subst data. reflexivity.
Qed.

(** X16: on a stream made of a marshalled header of at most 1024 bytes
    and any bytes after it, a new decoder read with a first request of at
    least the number of leading bytes, positive requests, and more
    requests than bytes follow the header, returns the leading bytes
    followed by the rest of the stream, ends with io.EOF and keeps the
    parsed header. *)
Theorem decode_container (h : NeoHeader) (a0 a1 a2 a3 c0 c1 c2 c3 : byte)
    (rest : list byte) (s1 : Z) (sizes : list Z) :
  Version h = VersionV1 ->
  OriginalHeaderEncMethod h = XorEnc ->
  OriginalFilenameEncMethod h = XorEnc ->
  0 <= Crc32 h < 2 ^ 32 ->
  len (wire h a0 a1 a2 a3 c0 c1 c2 c3) <= 1024 ->
  len (OriginalHeader h) <= s1 ->
  Forall (fun s => 1 <= s <= int_max) (s1 :: sizes) ->
  (length rest < length sizes)%nat ->
  exists r',
    read_all (s1 :: sizes)
      (NewNeoReader (mkBuffer (wire h a0 a1 a2 a3 c0 c1 c2 c3 ++ rest))) []
    = Ret (r', (OriginalHeader h ++ rest, Some EOF))
    /\ r_NeoHeader r' = Some h.
Proof. exact (read_all_container h a0 a1 a2 a3 c0 c1 c2 c3 rest s1 sizes). Qed.

Lemma decode_container_witness :
  exists r',
    read_all (8 :: [3; 3; 3])
      (NewNeoReader
         (mkBuffer (wire test_header x9c x01 xfe x33 x00 xff x10 x20
                    ++ [x61; x62])))
      []
    = Ret (r', (OriginalHeader test_header ++ [x61; x62], Some EOF))
    /\ r_NeoHeader r' = Some test_header.
Proof.
  apply (decode_container test_header x9c x01 xfe x33 x00 xff x10 x20
           [x61; x62] 8 [3; 3; 3]).
  - reflexivity.
  - reflexivity.
  - reflexivity.
  - vm_compute. split; [discriminate | reflexivity].
  - vm_compute. discriminate.
  - vm_compute. discriminate.
  - repeat constructor; vm_compute; discriminate.
  - cbn. lia.
Defined.

(** X17: encoding and decoding compose.  A payload longer than the
    leading-byte count, written in one Write, and read back with a first
    request of at least that count comes back byte for byte, followed by
    io.EOF; the decoder then holds the file name and the checksum that the
    encoder was given.  The header must fit the decoder's 1024-byte
    buffer. *)
Theorem encode_decode_roundtrip (hdrLen : Z) (filename : list byte)
    (crc32 : Z) (payload : list byte) (a0 a1 a2 a3 c0 c1 c2 c3 : byte)
    (s1 : Z) (sizes : list Z) :
  0 <= hdrLen < len payload ->
  len payload <= int_max ->
  0 <= crc32 < 2 ^ 32 ->
  len (wire (written_header hdrLen filename crc32 payload)
         a0 a1 a2 a3 c0 c1 c2 c3) <= 1024 ->
  hdrLen <= s1 ->
  Forall (fun s => 1 <= s <= int_max) (s1 :: sizes) ->
  (length payload < length sizes)%nat ->
  exists c r',
    encode_once hdrLen filename crc32 payload
      (RandKey a0 a1 a2 a3) (RandKey c0 c1 c2 c3) = Ret c
    /\ read_all (s1 :: sizes) (NewNeoReader (mkBuffer c)) []
       = Ret (r', (payload, Some EOF))
    /\ option_map OriginalFilename (r_NeoHeader r') = Some filename
    /\ option_map Crc32 (r_NeoHeader r') = Some crc32.
Proof.
  intros HN Hp Hcrc Hspan Hs1 Hsizes Hmany.
  set (h := written_header hdrLen filename crc32 payload) in *.
  assert (Hoh : len (OriginalHeader h) = hdrLen).
  { subst h. cbn [written_header OriginalHeader]. unfold len in *.
    rewrite length_take. lia. }
  assert (Hfit : hdrLen + len filename <= 2 ^ 62).
  { pose proof (len_xor_block_ge a0 a1 a2 a3 (OriginalHeader h)).
    pose proof (len_xor_block_ge c0 c1 c2 c3 (OriginalFilename h)).
    unfold wire in Hspan. cbv zeta in Hspan. rewrite !len_app in Hspan.
    pose proof (len_nonneg NeoMagicNumber).
    pose proof (len_nonneg [x01]).
    pose proof (len_nonneg (PutUint32 (Crc32 h))).
    match type of Hspan with
    | context [len (encodeVUint ?u)] => pose proof (len_nonneg (encodeVUint u))
    end.
    change (OriginalFilename h) with filename in *.
    change (2 ^ 62) with 4611686018427387904. lia. }
  destruct (read_all_container h a0 a1 a2 a3 c0 c1 c2 c3
              (drop (Z.to_nat hdrLen) payload) s1 sizes)
    as (r' & Hread & Hh); try reflexivity; try assumption.
  { lia. }
  { rewrite length_drop. lia. }
  exists (wire h a0 a1 a2 a3 c0 c1 c2 c3 ++ drop (Z.to_nat hdrLen) payload), r'.
  split; [apply encode_once_long; assumption|].
  split.
  - rewrite Hread. subst h. cbn [written_header OriginalHeader].
    now rewrite take_drop.
  - rewrite Hh. split; reflexivity.
Qed.

Lemma encode_decode_roundtrip_witness :
  exists c r',
    encode_once 2 test_filename 9 [x61; x62; x63; x64]
      (RandKey x9c x01 xfe x33) (RandKey x00 xff x10 x20) = Ret c
    /\ read_all (2 :: [1; 1; 1; 1; 1]) (NewNeoReader (mkBuffer c)) []
       = Ret (r', ([x61; x62; x63; x64], Some EOF))
    /\ option_map OriginalFilename (r_NeoHeader r') = Some test_filename
    /\ option_map Crc32 (r_NeoHeader r') = Some 9.
Proof.
  apply (encode_decode_roundtrip 2 test_filename 9 [x61; x62; x63; x64]
           x9c x01 xfe x33 x00 xff x10 x20 2 [1; 1; 1; 1; 1]).
  - vm_compute. split; [discriminate | reflexivity].
  - vm_compute. discriminate.
  - vm_compute. split; [discriminate | reflexivity].
  - vm_compute. discriminate.
  - lia.
  - repeat constructor; vm_compute; discriminate.
  - cbn. lia.
Defined.

(** X18: whatever error UnMarshall returns for a header that fits the
    1024-byte buffer, the Read that parsed it returns 0 bytes and no
    error, and leaves the caller's buffer as it was. *)
Theorem Read_hides_parse_error (body rest p : list byte) (h' : NeoHeader)
    (e : error) :
  body <> [] ->
  4 + len (encodeVUint (len body)) + len body <= 1024 ->
  p <> [] ->
  UnMarshall zero_NeoHeader (NeoMagicNumber ++ encodeVUint (len body) ++ body)
  = Ret (h', Some e) ->
  result_of
    (NeoReader_Read
       (NewNeoReader
          (mkBuffer (NeoMagicNumber ++ encodeVUint (len body) ++ body ++ rest)))
       p)
  = Ret (p, 0, None).
Proof.
  intros Hbody Hspan Hp Hun.
  assert (Hlen : 0 < len p)
    by (destruct p; [contradiction|]; unfold len; cbn [length]; lia).
  set (s := NeoMagicNumber ++ encodeVUint (len body) ++ body ++ rest).
  rewrite NeoReader_Read_fuel_eq.
  set (f := pending (r_rd (NewNeoReader (mkBuffer s)))).
  change (NeoReader_Read_fuel (S (S (S (S f)))) ?r p)
    with (Read_body (NeoReader_Read_fuel (S (S (S f)))) (S (S (S f))) r p).
  unfold Read_body. destruct (Z.eqb_spec (len p) 0); [lia|].
  change (r_NeoHeader (NewNeoReader _)) with (@None NeoHeader). cbv iota.
  destruct (Read_parse_framed (S (S (S f))) (NewNeoReader (mkBuffer s)) body rest)
    as (b1 & buf1 & Hun1 & He1 & Hparse).
  { reflexivity. }
  { exact Hbody. }
  { change (len (r_buf (NewNeoReader _))) with 1024. lia. }
  { change (len (r_buf (NewNeoReader _))) with 1024. discriminate. }
  { subst f s. unfold pending.
    cbn [r_rd NewNeoReader bufio_NewReader b_buf b_rd Bytes length].
    rewrite !length_app.
    pose proof (Z.mul_div_le (len body) 255 ltac:(lia)).
    pose proof (len_nonneg body).
    assert (0 <= len body / 255) by (apply Z.div_pos; lia).
    unfold len in *. lia. }
  rewrite Hparse, Hun. cbn [bind]. reflexivity.
Qed.

Lemma Read_hides_parse_error_witness :
  result_of
    (NeoReader_Read
       (NewNeoReader
          (mkBuffer (NeoMagicNumber ++ encodeVUint (len [x02; x01]) ++ [x02; x01]
                     ++ [x61; x62])))
       [x00; x00; x00])
  = Ret ([x00; x00; x00], 0, None).
Proof.
  apply (Read_hides_parse_error [x02; x01] [x61; x62] [x00; x00; x00]
           {| Version := x02; OriginalHeaderEncMethod := x00;
              OriginalHeader := []; OriginalFilenameEncMethod := x00;
              OriginalFilename := []; Crc32 := 0 |} ErrBadVersion).
  - discriminate.
  - vm_compute. discriminate.
  - discriminate.
  - vm_compute. reflexivity.
Defined.

(** ** Streams that are not containers *)

Lemma bytes_Equal_true (a : list byte) :
  forall b, bytes_Equal a b = true -> a = b.
Proof.
  induction a as [|x a IH]; intros [|y b] E; cbn [bytes_Equal] in E;
    try discriminate; [reflexivity|].
  apply andb_true_iff in E. destruct E as [Exy Eab].
  apply Byte.byte_dec_bl in Exy. apply IH in Eab. now subst.
Qed.

Lemma bytes_Equal_neq (a b : list byte) : a <> b -> bytes_Equal a b = false.
Proof.
  intros Hne. destruct (bytes_Equal a b) eqn:E; [|reflexivity].
  now apply bytes_Equal_true in E.
Qed.

(** The first Read of fewer bytes than the buffer holds: the first bytes
    of the source, as many as asked for or as there are. *)
Lemma bufio_Read_fresh_small (s : list byte) (n : Z) :
  s <> [] -> 0 < n < defaultBufSize ->
  exists b',
    bufio_Read (bufio_NewReader (mkBuffer s)) n
    = (b', (take (Z.to_nat n) s, None)).
Proof.
  intros Hs Hn. unfold bufio_Read, bufio_NewReader. cbn [b_buf b_err b_rd].
  destruct (Z.eqb_spec n 0); [lia|].
  destruct (Z.leb_spec defaultBufSize n); [lia|].
  rewrite Buffer_Read_nonempty by exact Hs.
  set (k := Z.to_nat (Z.min defaultBufSize (len s))).
  assert (Hpos : 0 < len s)
    by (destruct s; [contradiction|]; unfold len; cbn [length]; lia).
  assert (Hk : (1 <= k)%nat) by (subst k; lia).
  destruct (Z.eqb_spec (len (take k s)) 0) as [E0|_].
  { unfold len in *. rewrite length_take in E0. lia. }
  cbn [b_rd b_buf b_err]. eexists. f_equal. f_equal.
  rewrite take_take.
  destruct (Z_le_dec n (len s)) as [Hle|Hgt].
  - f_equal. unfold len in *. rewrite length_take. subst k. unfold len. lia.
  - rewrite (take_ge s (Z.to_nat n)) by (unfold len in *; lia).
    apply take_ge. unfold len in *. rewrite length_take. subst k. unfold len. lia.
Qed.

Lemma magic_prefix_or_not (s : list byte) :
  s <> [] ->
  take 4 s <> NeoMagicNumber ->
  take 4 (take 4 s ++ drop (length (take 4 s)) (replicate 1024 x00))
  <> NeoMagicNumber.
Proof.
  intros Hs Hne.
  destruct s as [|a [|b [|c [|d s']]]]; [contradiction|..];
    cbn [take length drop replicate app]; try (intros E; discriminate E).
  exact Hne.
Qed.

(** X19: on a non-empty stream that does not start with the four bytes
    of the magic number (a stream shorter than four bytes included), the
    first Read of a new decoder returns 0 and ErrNotNEOHeader. *)
Theorem Read_rejects_missing_magic (s p : list byte) :
  s <> [] ->
  p <> [] ->
  take 4 s <> NeoMagicNumber ->
  result_of (NeoReader_Read (NewNeoReader (mkBuffer s)) p)
  = Ret (p, 0, Some ErrNotNEOHeader).
Proof.
  intros Hs Hp Hne.
  assert (Hlen : 0 < len p)
    by (destruct p; [contradiction|]; unfold len; cbn [length]; lia).
  rewrite NeoReader_Read_fuel_eq.
  set (f := pending (r_rd (NewNeoReader (mkBuffer s)))).
  change (NeoReader_Read_fuel (S (S (S (S f)))) ?r p)
    with (Read_body (NeoReader_Read_fuel (S (S (S f)))) (S (S (S f))) r p).
  unfold Read_body. destruct (Z.eqb_spec (len p) 0); [lia|].
  change (r_NeoHeader (NewNeoReader _)) with (@None NeoHeader). cbv iota.
  unfold Read_parse, NewNeoReader, set_rd, set_r_buf.
  cbn [r_buf r_rd r_n r_NeoHeader].
  change (slice_to (replicate 1024 x00) (len NeoMagicNumber))
    with (Ret (replicate 4 x00)).
  cbn [bind]. change (len (replicate 4 x00)) with 4.
  destruct (bufio_Read_fresh_small s 4 Hs) as (b' & Hread); [split; reflexivity|].
  rewrite Hread. change (Z.to_nat 4) with 4%nat.
  rewrite copy_fits.
  2: { rewrite length_take, length_replicate. lia. }
  cbn [fst].
  rewrite slice_to_ok.
  2: { change (len NeoMagicNumber) with 4. unfold len.
       rewrite length_app, length_take, length_drop, length_replicate. lia. }
  cbn [bind]. change (Z.to_nat (len NeoMagicNumber)) with 4%nat.
  rewrite bytes_Equal_neq by (apply magic_prefix_or_not; assumption).
  reflexivity.
Qed.

Lemma Read_rejects_missing_magic_witness :
  result_of (NeoReader_Read (NewNeoReader (mkBuffer [xff; x4e])) [x00])
  = Ret ([x00], 0, Some ErrNotNEOHeader).
Proof.
  apply (Read_rejects_missing_magic [xff; x4e] [x00]); discriminate.
Defined.

(** X20: on an empty source a Read of a new decoder returns 0 bytes and
    no error, not io.EOF, and leaves the decoder as it was, so that every
    later Read does the same. *)
Theorem Read_empty_source (p : list byte) :
  p <> [] ->
  NeoReader_Read (NewNeoReader (mkBuffer [])) p
  = Ret (NewNeoReader (mkBuffer []), (p, 0, None)).
Proof.
  intros Hp.
  assert (Hlen : 0 < len p)
    by (destruct p; [contradiction|]; unfold len; cbn [length]; lia).
  rewrite NeoReader_Read_fuel_eq.
  change (pending (r_rd (NewNeoReader (mkBuffer [])))) with 0%nat.
  change (NeoReader_Read_fuel 4 ?r p)
    with (Read_body (NeoReader_Read_fuel 3) 3 r p).
  unfold Read_body. destruct (Z.eqb_spec (len p) 0); [lia|].
  change (r_NeoHeader (NewNeoReader _)) with (@None NeoHeader). cbv iota.
  assert (Hparse : Read_parse 3 (NewNeoReader (mkBuffer []))
                   = Ret (NewNeoReader (mkBuffer []), Some (0, None)))
    by (vm_compute; reflexivity).
  rewrite Hparse. reflexivity.
Qed.

Lemma Read_empty_source_witness :
  NeoReader_Read (NewNeoReader (mkBuffer [])) [x00; x00]
  = Ret (NewNeoReader (mkBuffer []), ([x00; x00], 0, None)).
Proof. apply (Read_empty_source [x00; x00]). discriminate. Defined.

(** ** Telling containers from plain files *)

Lemma IsNeoFile_cases (file : list byte) :
  IsNeoFile file
  = match file with
    | [] => Ret (false, Some EOF)
    | _ => Ret (bytes_Equal (take 4 file) NeoMagicNumber, None)
    end.
Proof.
  unfold IsNeoFile.
  change (make (len NeoMagicNumber)) with (Ret (replicate 4 x00)).
  cbn [bind]. change (len (replicate 4 x00)) with 4.
  destruct file as [|a file]; [reflexivity|].
  rewrite Buffer_Read_nonempty by discriminate.
  destruct file as [|b [|c [|d tl]]].
  - reflexivity.
  - change (Z.to_nat (Z.min 4 (len [a; b]))) with 2%nat.
    cbn. now rewrite !andb_false_r.
  - change (Z.to_nat (Z.min 4 (len [a; b; c]))) with 3%nat.
    cbn. now rewrite !andb_false_r.
  - replace (Z.to_nat (Z.min 4 (len (a :: b :: c :: d :: tl)))) with 4%nat
      by (unfold len; cbn [length]; lia).
    reflexivity.
Qed.

(** X21: IsNeoFile reports io.EOF for an empty file; for any other file
    it answers whether the first four bytes are the magic number, a file
    shorter than four bytes being no container. *)
Theorem IsNeoFile_spec (file : list byte) :
  IsNeoFile file
  = match file with
    | [] => Ret (false, Some EOF)
    | _ => Ret (bytes_Equal (take 4 file) NeoMagicNumber, None)
    end.
Proof. exact (IsNeoFile_cases file). Qed.

Lemma IsNeoFile_wire (h : NeoHeader) (a0 a1 a2 a3 c0 c1 c2 c3 : byte)
    (rest : list byte) :
  IsNeoFile (wire h a0 a1 a2 a3 c0 c1 c2 c3 ++ rest) = Ret (true, None).
Proof. rewrite IsNeoFile_cases. reflexivity. Qed.

(** X22: what the encoder writes is recognised by IsNeoFile: the bytes
    Marshall returns for a header, followed by any content, are a
    container. *)
Theorem IsNeoFile_container (h : NeoHeader) (a0 a1 a2 a3 c0 c1 c2 c3 : byte)
    (rest : list byte) :
  Version h = VersionV1 ->
  OriginalHeaderEncMethod h = XorEnc ->
  OriginalFilenameEncMethod h = XorEnc ->
  len (OriginalHeader h) + len (OriginalFilename h) <= 2 ^ 62 ->
  exists out,
    Marshall h (RandKey a0 a1 a2 a3) (RandKey c0 c1 c2 c3) = Ret (out, None)
    /\ IsNeoFile (out ++ rest) = Ret (true, None).
Proof.
  intros Hv Hm1 Hm2 Hfit. eexists. split.
  - apply Marshall_wire; assumption.
  - apply IsNeoFile_wire.
Qed.

Lemma IsNeoFile_container_witness :
  exists out,
    Marshall test_header (RandKey x9c x01 xfe x33) (RandKey x00 xff x10 x20)
    = Ret (out, None)
    /\ IsNeoFile (out ++ [x61; x62]) = Ret (true, None).
Proof.
  apply (IsNeoFile_container test_header).
  - reflexivity.
  - reflexivity.
  - reflexivity.
  - vm_compute. discriminate.
Defined.

(** ** Files *)

Lemma lxor_range32 (a b : Z) :
  0 <= a < 2 ^ 32 -> 0 <= b < 2 ^ 32 -> 0 <= Z.lxor a b < 2 ^ 32.
Proof.
  intros Ha Hb.
  assert (Hnn : 0 <= Z.lxor a b) by (apply Z.lxor_nonneg; lia).
  split; [exact Hnn|].
  destruct (Z.eq_dec (Z.lxor a b) 0) as [E|E]; [rewrite E; reflexivity|].
  apply Z.log2_lt_pow2; [lia|].
  pose proof (Z.log2_lxor a b ltac:(lia) ltac:(lia)) as Hl.
  assert (Z.log2 a < 32).
  { destruct (Z.eq_dec a 0) as [->|]; [reflexivity|].
    apply Z.log2_lt_pow2; lia. }
  assert (Z.log2 b < 32).
  { destruct (Z.eq_dec b 0) as [->|]; [reflexivity|].
    apply Z.log2_lt_pow2; lia. }
  lia.
Qed.

Lemma crc32_bits_range (k : nat) :
  forall c, 0 <= c < 2 ^ 32 -> 0 <= crc32_bits k c < 2 ^ 32.
Proof.
  induction k as [|k IH]; intros c Hc; cbn [crc32_bits]; [exact Hc|].
  apply IH.
  assert (Hs : 0 <= Z.shiftr c 1 < 2 ^ 32).
  { rewrite Z.shiftr_div_pow2 by lia. change (2 ^ 1) with 2.
    change (2 ^ 32) with 4294967296 in *.
    pose proof (Z.div_pos c 2 ltac:(lia) ltac:(lia)).
    pose proof (Z.div_le_upper_bound c 2 4294967296 ltac:(lia) ltac:(lia)).
    pose proof (Z.mul_div_le c 2 ltac:(lia)). lia. }
  destruct (Z.testbit c 0); [|exact Hs].
  apply lxor_range32; [exact Hs|]. split; [discriminate | reflexivity].
Qed.

Lemma crc32_update_range (p : list byte) :
  forall c, 0 <= c < 2 ^ 32 -> 0 <= crc32_update c p < 2 ^ 32.
Proof.
  unfold crc32_update.
  induction p as [|b p IH]; intros c Hc; cbn [fold_left]; [exact Hc|].
  apply IH. apply crc32_bits_range. apply lxor_range32; [exact Hc|].
  pose proof (Z_of_byte_range b). change (2 ^ 32) with 4294967296. lia.
Qed.

Lemma crc32_Write_range (crc : Z) (p : list byte) :
  0 <= crc < 2 ^ 32 -> 0 <= crc32_Write crc p < 2 ^ 32.
Proof.
  intros Hc. unfold crc32_Write.
  assert (Hm : 0 <= 0xffffffff < 2 ^ 32) by (split; [discriminate | reflexivity]).
  apply lxor_range32; [|exact Hm].
  apply crc32_update_range. now apply lxor_range32.
Qed.

Lemma crc32_Write_app (crc : Z) (a b : list byte) :
  crc32_Write (crc32_Write crc a) b = crc32_Write crc (a ++ b).
Proof.
  unfold crc32_Write.
  rewrite Z.lxor_assoc, Z.lxor_nilpotent, Z.lxor_0_r.
  unfold crc32_update. now rewrite fold_left_app.
Qed.

Lemma crc32_Write_nil (crc : Z) : crc32_Write crc [] = crc.
Proof.
  unfold crc32_Write, crc32_update. cbn [fold_left].
  now rewrite Z.lxor_assoc, Z.lxor_nilpotent, Z.lxor_0_r.
Qed.

Lemma crc32_Write_chunks (chunks : list (list byte)) :
  forall crc, fold_left crc32_Write chunks crc = crc32_Write crc (concat chunks).
Proof.
  induction chunks as [|c cs IH]; intros crc; cbn [fold_left concat].
  - now rewrite crc32_Write_nil.
  - now rewrite IH, crc32_Write_app.
Qed.

Lemma copy_buffer_positive : (0 < Z.to_nat copy_buffer_size)%nat.
Proof. unfold copy_buffer_size. lia. Qed.

Lemma concat_file_reads_fuel (fuel : nat) :
  forall file, (length file <= fuel)%nat ->
               concat (file_reads_fuel fuel file) = file.
Proof.
  pose proof copy_buffer_positive as Hpos.
  induction fuel as [|fuel IH]; intros file Hlen.
  - destruct file; [reflexivity | cbn [length] in Hlen; lia].
  - cbn [file_reads_fuel]. destruct file as [|b file]; [reflexivity|].
    cbn [concat]. rewrite IH; [apply take_drop|].
    rewrite length_drop. cbn [length] in *. lia.
Qed.

Lemma file_reads_fuel_nonempty (fuel : nat) :
  forall file, Forall (fun c => c <> []) (file_reads_fuel fuel file).
Proof.
  pose proof copy_buffer_positive as Hpos.
  induction fuel as [|fuel IH]; intros file; cbn [file_reads_fuel];
    [constructor|].
  destruct file as [|b file]; [constructor|].
  constructor; [|apply IH].
  destruct (Z.to_nat copy_buffer_size); [lia | discriminate].
Qed.

Lemma concat_file_reads (file : list byte) : concat (file_reads file) = file.
Proof. apply concat_file_reads_fuel. lia. Qed.

Lemma crc32ofFile_eq (file : list byte) : crc32ofFile file = crc32_Write 0 file.
Proof.
  unfold crc32ofFile. now rewrite crc32_Write_chunks, concat_file_reads.
Qed.

Lemma crc32ofFile_range (file : list byte) : 0 <= crc32ofFile file < 2 ^ 32.
Proof.
  rewrite crc32ofFile_eq. apply crc32_Write_range.
  split; [reflexivity | reflexivity].
Qed.

(** X23: crc32ofFile, which hashes the file piece by piece as io.Copy
    reads it, returns the IEEE CRC-32 of the whole content, a value that
    fits the four bytes the header has for it. *)
Theorem crc32ofFile_whole_file (file : list byte) :
  crc32ofFile file = ChecksumIEEE file /\ 0 <= crc32ofFile file < 2 ^ 32.
Proof.
  split; [rewrite crc32ofFile_eq; reflexivity | apply crc32ofFile_range].
Qed.

Lemma copy_buffer_over_8 : (8 < Z.to_nat copy_buffer_size)%nat.
Proof. unfold copy_buffer_size. lia. Qed.

Lemma file_reads_first (file : list byte) :
  file <> [] ->
  exists c1 cs,
    file_reads file = c1 :: cs
    /\ c1 ++ concat cs = file
    /\ length c1 = Nat.min (Z.to_nat copy_buffer_size) (length file).
Proof.
  intros Hne. pose proof copy_buffer_positive as Hpos.
  unfold file_reads. destruct file as [|b tl]; [contradiction|].
  cbn [length file_reads_fuel].
  generalize dependent (Z.to_nat copy_buffer_size). intros n Hpos.
  exists (take n (b :: tl)), (file_reads_fuel (length tl) (drop n (b :: tl))).
  split; [reflexivity|]. split.
  - rewrite concat_file_reads_fuel; [apply take_drop|].
    rewrite length_drop. cbn [length]. lia.
  - rewrite length_take. cbn [length]. lia.
Qed.

Lemma len_wire (h : NeoHeader) (a0 a1 a2 a3 c0 c1 c2 c3 : byte) :
  len (OriginalHeader h) + len (OriginalFilename h) <= 2 ^ 62 ->
  let body := 19 + len (OriginalHeader h) + len (OriginalHeader h) / 255
              + len (OriginalFilename h) + len (OriginalFilename h) / 255 in
  len (wire h a0 a1 a2 a3 c0 c1 c2 c3) = 5 + body + body / 255.
Proof.
  intros Hfit body.
  pose proof (len_nonneg (OriginalHeader h)) as H1.
  pose proof (len_nonneg (OriginalFilename h)) as H2.
  assert (Hmax : int_max = 9223372036854775807) by reflexivity.
  change (2 ^ 62) with 4611686018427387904 in Hfit.
  pose proof (Z.mul_div_le (len (OriginalHeader h)) 255 ltac:(lia)) as Hd1.
  pose proof (Z.mul_div_le (len (OriginalFilename h)) 255 ltac:(lia)) as Hd2.
  assert (0 <= len (OriginalHeader h) / 255) by (apply Z.div_pos; lia).
  assert (0 <= len (OriginalFilename h) / 255) by (apply Z.div_pos; lia).
  unfold wire. cbv zeta.
  match goal with |- context [encodeVUint (len ?b)] => set (bs := b) end.
  assert (Hbody : len bs = body).
  { subst bs body. rewrite !len_app.
    rewrite (len_xor_block a0 a1 a2 a3 (OriginalHeader h)) by lia.
    rewrite (len_xor_block c0 c1 c2 c3 (OriginalFilename h)) by lia.
    change (len [x01]) with 1. change (len (PutUint32 _)) with 4. lia. }
  rewrite !len_app, len_encodeVUint by (rewrite Hbody; subst body; lia).
  rewrite Hbody. change (len NeoMagicNumber) with 4. lia.
Qed.

(** encodeFile on a file of more than 8 bytes. *)
Lemma encodeFile_long (base file : list byte) (a0 a1 a2 a3 c0 c1' c2 c3 : byte) :
  8 < len file ->
  len file <= int_max ->
  8 + len base <= 2 ^ 62 ->
  encodeFile base file (RandKey a0 a1 a2 a3) (RandKey c0 c1' c2 c3)
  = Ret (wire (written_header 8 base (crc32ofFile file) file)
           a0 a1 a2 a3 c0 c1' c2 c3
         ++ drop 8 file, None).
Proof.
  intros Hlong Hmax Hfit.
  assert (Hne : file <> [])
    by (intros ->; unfold len in Hlong; cbn [length] in Hlong; lia).
  destruct (file_reads_first file Hne) as (c1 & cs & Hreads & Hcat & Hlen).
  pose proof copy_buffer_over_8 as Hn.
  generalize dependent (Z.to_nat copy_buffer_size). intros n Hlen Hn.
  assert (Hc1 : 8 < len c1 <= len file) by (unfold len in *; lia).
  destruct (write_chunks_long_first 8 base (crc32ofFile file) c1 cs
              a0 a1 a2 a3 c0 c1' c2 c3) as (x & Hw & Hbytes); [lia | lia | lia |].
  unfold encodeFile. rewrite Hreads, Hw. cbn [bind].
  rewrite Hbytes, Hcat. reflexivity.
Qed.

Lemma written_header_span (base file : list byte) (crc : Z)
    (a0 a1 a2 a3 c0 c1 c2 c3 : byte) :
  8 <= len file ->
  len base <= 986 ->
  len (wire (written_header 8 base crc file) a0 a1 a2 a3 c0 c1 c2 c3) <= 1024.
Proof.
  intros Hlong Hbase. pose proof (len_nonneg base) as Hb.
  assert (Hoh : len (OriginalHeader (written_header 8 base crc file)) = 8).
  { cbn [written_header OriginalHeader]. unfold len in *.
    rewrite length_take. lia. }
  rewrite len_wire.
  2: { rewrite Hoh. cbn [written_header OriginalFilename].
       change (2 ^ 62) with 4611686018427387904. lia. }
  cbv zeta. rewrite Hoh. cbn [written_header OriginalFilename].
  change (8 / 255) with 0.
  pose proof (Z.div_lt_upper_bound (len base) 255 4 ltac:(lia) ltac:(lia)).
  assert (0 <= len base / 255) by (apply Z.div_pos; lia).
  pose proof (Z.div_lt_upper_bound
                (19 + 8 + 0 + len base + len base / 255) 255 4
                ltac:(lia) ltac:(lia)).
  lia.
Qed.

(** Decoding what encodeFile wrote for a file of more than 8 bytes. *)
Lemma decodeFile_written (base file : list byte) (a0 a1 a2 a3 c0 c1 c2 c3 : byte) :
  8 < len file ->
  len base <= 986 ->
  decodeFile (wire (written_header 8 base (crc32ofFile file) file)
                a0 a1 a2 a3 c0 c1 c2 c3 ++ drop 8 file)
  = Ret (Renamed base file).
Proof.
  intros Hlong Hbase.
  set (h := written_header 8 base (crc32ofFile file) file).
  set (c := wire h a0 a1 a2 a3 c0 c1 c2 c3 ++ drop 8 file).
  unfold decodeFile.
  change (2 + length c)%nat with (S (S (length c))). cbn [replicate].
  destruct (read_all_container h a0 a1 a2 a3 c0 c1 c2 c3 (drop 8 file)
              copy_buffer_size (copy_buffer_size :: replicate (length c) copy_buffer_size))
    as (r' & Hread & Hh).
  - reflexivity.
  - reflexivity.
  - reflexivity.
  - apply crc32ofFile_range.
  - apply written_header_span; lia.
  - subst h. cbn [written_header OriginalHeader]. unfold len.
    rewrite length_take. unfold copy_buffer_size. lia.
  - change (Forall (fun s => 1 <= s <= int_max)
              (replicate (S (S (length c))) copy_buffer_size)).
    apply Forall_replicate. split; [discriminate | discriminate].
  - cbn [length]. rewrite length_replicate. subst c.
    rewrite length_app, length_drop. lia.
  - fold c in Hread. rewrite Hread. cbn [bind]. rewrite Hh.
    subst h. cbn [written_header OriginalHeader OriginalFilename Crc32].
    change (Z.to_nat 8) with 8%nat. rewrite take_drop.
    rewrite <- crc32ofFile_eq, Z.eqb_refl. reflexivity.
Qed.

(** X24: encodeFile and decodeFile compose.  For a file of more than 8
    bytes whose base name has at most 986 bytes, and a random source that
    delivers both keys, encodeFile writes a container without error, and
    decodeFile on that container restores the content under the original
    name: the checksum matches and the output is renamed, not removed. *)
Theorem encodeFile_decodeFile_roundtrip (base file : list byte)
    (a0 a1 a2 a3 c0 c1 c2 c3 : byte) :
  8 < len file ->
  len file <= int_max ->
  len base <= 986 ->
  exists c,
    encodeFile base file (RandKey a0 a1 a2 a3) (RandKey c0 c1 c2 c3)
    = Ret (c, None)
    /\ decodeFile c = Ret (Renamed base file).
Proof.
  intros Hlong Hmax Hbase. eexists. split.
  - apply encodeFile_long; [assumption | assumption|].
    change (2 ^ 62) with 4611686018427387904. lia.
  - apply decodeFile_written; assumption.
Qed.

Lemma encodeFile_decodeFile_roundtrip_witness :
  exists c,
    encodeFile test_filename (x4e :: x45 :: x4f :: test_payload)
      (RandKey x9c x01 xfe x33) (RandKey x00 xff x10 x20)
    = Ret (c, None)
    /\ decodeFile c
       = Ret (Renamed test_filename (x4e :: x45 :: x4f :: test_payload)).
Proof.
  apply (encodeFile_decodeFile_roundtrip test_filename
           (x4e :: x45 :: x4f :: test_payload)).
  - vm_compute. reflexivity.
  - vm_compute. discriminate.
  - vm_compute. discriminate.
Defined.

(** ** A stream that ends inside the length field *)

Lemma fill_loop_exhausted (i : nat) (b : bufio_Reader Buffer) :
  Bytes (b_rd b) = [] ->
  len (b_buf b) < defaultBufSize ->
  fill_loop (S i) b
  = {| b_rd := b_rd b; b_buf := b_buf b ++ []; b_err := Some EOF |}.
Proof.
  intros Hsrc Hroom. cbn [fill_loop].
  unfold io_Read, Buffer_Reader. rewrite Hsrc.
  destruct (Z.eqb_spec (defaultBufSize - len (b_buf b)) 0); [lia|].
  reflexivity.
Qed.

Lemma bufio_ReadByte_exhausted (b : bufio_Reader Buffer) :
  b_buf b = [] -> Bytes (b_rd b) = [] -> b_err b = None ->
  bufio_ReadByte b
  = Ret ({| b_rd := b_rd b; b_buf := []; b_err := None |}, (x00, Some EOF)).
Proof.
  intros Hbuf Hsrc Herr. unfold bufio_ReadByte. rewrite Hbuf, Herr.
  unfold fill. rewrite Hbuf. change (defaultBufSize <=? len []) with false.
  cbv iota. unfold maxConsecutiveEmptyReads.
  rewrite fill_loop_exhausted; [|exact Hsrc|rewrite Hbuf; reflexivity].
  cbn [bind b_buf b_err b_rd readErr]. rewrite Hbuf. reflexivity.
Qed.

(** The length loop on a buffer that holds nothing but bytes 255 over
    an exhausted source: it consumes them all and ends with io.EOF. *)
Lemma read_hdrLen_unterminated (k : nat) :
  forall (fuel : nat) (b : bufio_Reader Buffer) (n_ acc : Z),
    b_buf b = replicate k xff ->
    Bytes (b_rd b) = [] ->
    b_err b = None ->
    (k < fuel)%nat ->
    0 <= n_ -> n_ + Z.of_nat k <= int_max ->
    0 <= acc -> acc + 255 * Z.of_nat k <= int_max ->
    exists b' n' acc',
      read_hdrLen fuel b n_ acc = Ret (b', (Some EOF, n', acc')).
Proof.
  induction k as [|k IH]; intros fuel b n_ acc Hb Hsrc Herr Hfuel Hn Hnk Ha Hak;
    (destruct fuel as [|fuel]; [lia|]); cbn [read_hdrLen].
  - rewrite bufio_ReadByte_exhausted by assumption. cbn [bind].
    eexists _, _, _. reflexivity.
  - unfold bufio_ReadByte. rewrite Hb. cbn [replicate bind].
    rewrite byte_eqb_refl. cbn [negb].
    change (Z_of_byte xff) with 255.
    rewrite !wrap_int_small by lia.
    apply IH; cbn [b_buf b_rd b_err]; try assumption; try reflexivity; lia.
Qed.

Lemma Read_unterminated (k : nat) (p : list byte) :
  (k <= 4092)%nat ->
  p <> [] ->
  exists r',
    NeoReader_Read
      (NewNeoReader (mkBuffer (NeoMagicNumber ++ replicate k xff))) p
    = Ret (r', (p, 0, Some EOF))
    /\ r_NeoHeader r' = None.
Proof.
  intros Hk Hp.
  assert (Hlen : 0 < len p)
    by (destruct p; [contradiction|]; unfold len; cbn [length]; lia).
  assert (Hmax : int_max = 9223372036854775807) by reflexivity.
  set (s := NeoMagicNumber ++ replicate k xff).
  rewrite NeoReader_Read_fuel_eq.
  assert (Hpend : pending (r_rd (NewNeoReader (mkBuffer s))) = (4 + k)%nat).
  { subst s. unfold pending.
    cbn [r_rd NewNeoReader bufio_NewReader b_buf b_rd Bytes].
    rewrite length_app, length_replicate. reflexivity. }
  rewrite Hpend.
  generalize (S (S (4 + k)))%nat (Nat.lt_succ_diag_r (S (4 + k))).
  intros f Hf.
  change (NeoReader_Read_fuel (S (S f)) ?r p)
    with (Read_body (NeoReader_Read_fuel (S f)) (S f) r p).
  unfold Read_body. destruct (Z.eqb_spec (len p) 0); [lia|].
  change (r_NeoHeader (NewNeoReader _)) with (@None NeoHeader). cbv iota.
  destruct (bufio_Read_fresh_framed NeoMagicNumber (replicate k xff) [])
    as (X & Y & HXY & Hread).
  { discriminate. }
  { change (len NeoMagicNumber) with 4. unfold len.
    rewrite length_replicate. change defaultBufSize with 4096. lia. }
  { reflexivity. }
  apply app_eq_nil in HXY. destruct HXY as [-> ->].
  rewrite !app_nil_r in Hread.
  unfold Read_parse, NewNeoReader, set_rd, set_r_buf.
  cbn [r_buf r_rd r_n r_NeoHeader].
  change (slice_to (replicate 1024 x00) (len NeoMagicNumber))
    with (Ret (replicate 4 x00)).
  cbn [bind]. change (len (replicate 4 x00)) with (len NeoMagicNumber).
  subst s. rewrite Hread.
  rewrite copy_fits by (rewrite length_replicate; cbn [length NeoMagicNumber]; lia).
  cbn [fst].
  rewrite slice_to_app by reflexivity. cbn [bind].
  rewrite bytes_Equal_refl. cbn [negb].
  destruct (read_hdrLen_unterminated k (S f)
              {| b_rd := mkBuffer []; b_buf := replicate k xff; b_err := None |}
              0 0) as (b' & n' & acc' & Hloop);
    try reflexivity; try lia.
  rewrite Hloop. cbn [bind]. eexists. split; reflexivity.
Qed.

(** X25: a stream that ends inside the length field (the magic number
    followed by nothing but bytes 255) makes the first Read return 0 and
    io.EOF, and the decoder has no header afterwards. *)
Theorem Read_truncated_length (k : nat) (p : list byte) :
  (k <= 4092)%nat ->
  p <> [] ->
  exists r',
    NeoReader_Read
      (NewNeoReader (mkBuffer (NeoMagicNumber ++ replicate k xff))) p
    = Ret (r', (p, 0, Some EOF))
    /\ r_NeoHeader r' = None.
Proof. exact (Read_unterminated k p). Qed.

Lemma Read_truncated_length_witness :
  exists r',
    NeoReader_Read
      (NewNeoReader (mkBuffer (NeoMagicNumber ++ replicate 2 xff))) [x00]
    = Ret (r', ([x00], 0, Some EOF))
    /\ r_NeoHeader r' = None.
Proof.
  apply (Read_truncated_length 2 [x00]); [lia | discriminate].
Defined.

(** X26: decodeFile on such a file does not report a damaged file: the
    copy ends without error on the io.EOF, no header was parsed, and
    reading the checksum of the nil header is a nil-pointer panic. *)
Theorem decodeFile_truncated_length_panics (k : nat) :
  (k <= 4092)%nat ->
  decodeFile (NeoMagicNumber ++ replicate k xff) = Panic nil_dereference.
Proof.
  intros Hk. unfold decodeFile.
  set (s := NeoMagicNumber ++ replicate k xff).
  change (2 + length s)%nat with (S (S (length s))).
  cbn [replicate read_all].
  change (make copy_buffer_size)
    with (Ret (replicate (Z.to_nat copy_buffer_size) x00)).
  cbn [bind].
  destruct (Read_unterminated k (replicate (Z.to_nat copy_buffer_size) x00) Hk)
    as (r' & Hread & Hh).
  { pose proof copy_buffer_positive.
    destruct (Z.to_nat copy_buffer_size); [lia | discriminate]. }
  fold s in Hread. rewrite Hread. cbn [bind].
  rewrite slice_to_ok by (split; [reflexivity | apply len_nonneg]).
  cbn [bind]. rewrite Hh. reflexivity.
Qed.

Lemma decodeFile_truncated_length_panics_witness :
  decodeFile (NeoMagicNumber ++ replicate 0 xff) = Panic nil_dereference.
Proof. apply (decodeFile_truncated_length_panics 0). lia. Defined.

(** ** Short files *)

(** X27: a file of at most 8 bytes is not encoded: encodeFile reports no
    error and leaves an empty container, whatever the random source
    does, and parseFile on that empty container only reports io.EOF. *)
Theorem encodeFile_short_file (base file : list byte) (r1 r2 : rand_read) :
  len file <= 8 ->
  encodeFile base file r1 r2 = Ret ([], None)
  /\ forall name r1' r2', parseFile name [] r1' r2' = Ret (NotParsed EOF).
Proof.
  intros Hshort. split; [|reflexivity].
  unfold encodeFile.
  rewrite (write_chunks_short (file_reads file)
             (NewNeoWriter (mkBuffer []) 8 base (crc32ofFile file)) r1 r2).
  - reflexivity.
  - reflexivity.
  - apply file_reads_fuel_nonempty.
  - rewrite concat_file_reads. cbn [NewNeoWriter buf originHdrLen].
    change (len []) with 0. lia.
Qed.

Lemma encodeFile_short_file_witness :
  encodeFile test_filename [x61; x62; x63] key1 key2 = Ret ([], None)
  /\ forall name r1' r2', parseFile name [] r1' r2' = Ret (NotParsed EOF).
Proof.
  apply (encodeFile_short_file test_filename [x61; x62; x63] key1 key2).
  vm_compute. discriminate.
Defined.

(** ** parseFile *)

(** X28: parseFile undoes itself.  A file of more than 8 bytes that does
    not start with the magic number is encoded, and parseFile on the
    container, under whatever name it has, restores the content and the
    original base name. *)
Theorem parseFile_roundtrip (base file : list byte)
    (a0 a1 a2 a3 c0 c1 c2 c3 : byte) (name : list byte) (r1 r2 : rand_read) :
  8 < len file ->
  len file <= int_max ->
  len base <= 986 ->
  take 4 file <> NeoMagicNumber ->
  exists c,
    parseFile base file (RandKey a0 a1 a2 a3) (RandKey c0 c1 c2 c3)
    = Ret (Encoded c None)
    /\ parseFile name c r1 r2 = Ret (Decoded (Renamed base file)).
Proof.
  intros Hlong Hmax Hbase Hmagic.
  assert (Hne : file <> [])
    by (intros ->; unfold len in Hlong; cbn [length] in Hlong; lia).
  eexists. split.
  - unfold parseFile. rewrite IsNeoFile_cases.
    destruct file as [|b tl]; [contradiction|].
    cbn [bind]. rewrite (bytes_Equal_neq _ _ Hmagic).
    rewrite encodeFile_long; [reflexivity | assumption | assumption |].
    change (2 ^ 62) with 4611686018427387904. lia.
  - unfold parseFile. rewrite IsNeoFile_wire. cbn [bind].
    rewrite decodeFile_written by assumption. reflexivity.
Qed.

Lemma parseFile_roundtrip_witness :
  exists c,
    parseFile test_filename (x4e :: x45 :: x4f :: test_payload)
      (RandKey x9c x01 xfe x33) (RandKey x00 xff x10 x20)
    = Ret (Encoded c None)
    /\ parseFile [x61] c (RandErr EOF) (RandErr EOF)
       = Ret (Decoded (Renamed test_filename
                         (x4e :: x45 :: x4f :: test_payload))).
Proof.
  apply (parseFile_roundtrip test_filename (x4e :: x45 :: x4f :: test_payload)).
  - vm_compute. reflexivity.
  - vm_compute. discriminate.
  - vm_compute. discriminate.
  - vm_compute. discriminate.
Defined.


